(** * RailNav routing graph engine (backend/app.py)

    A shallow embedding of the routing core of [backend/app.py]: the
    geometry helpers, the way classifier of the pedestrian fetch, the two
    graph builders, the nearest-node scan and the Dijkstra search, followed
    by the properties the design document states about them.

    Conventions of the embedding.
    - A Python [float] is an element of an abstract carrier [pyfloat] with the
      operations the source uses (class [PyFloat]).  Theorems that do not
      depend on how numbers are ordered hold for every such structure; the
      ones that do (nearest node, Dijkstra) assume [FloatLaws]: the
      comparisons form a total order, and adding a non-negative number to
      non-negative numbers is monotone, which is how binary64 behaves on
      distances (no NaN).  A sum may overflow to [inf]: nothing is assumed
      to stay finite.
    - A Python exception is a [Raise e] result; a function that cannot raise
      returns its value directly.
    - [dict]s whose iteration order the code never observes are [gmap]s;
      the node table, which [_nearest_node] iterates, is the list of its
      items in insertion order.
    - [frozenset((u, v))] is the sorted pair of its two members. *)

From Stdlib Require Import ZArith Permutation Ascii.
From stdpp Require Import gmap strings list fin_maps fin_sets pretty.

Local Open Scope string_scope.
Local Open Scope Z_scope.
Local Open Scope list_scope.

(** [==] on strings. *)
Notation "a == b" := (String.eqb a b) (at level 70, no associativity).

(** ** Exceptions *)

Inductive exn := KeyError | ValueError | ZeroDivisionError.

Inductive result (A : Type) := Ok (a : A) | Raise (e : exn).
Arguments Ok {A} a.
Arguments Raise {A} e.

#[global] Instance result_ret : MRet result := fun A a => Ok a.
#[global] Instance result_bind : MBind result :=
  fun A B f r => match r with Ok a => f a | Raise e => Raise e end.

Definition is_Ok {A} (r : result A) : Prop := exists a, r = Ok a.

(** [for x in xs: st = body(st, x)] where the body may raise. *)
Fixpoint for_each {A S : Type} (body : S -> A -> result S) (xs : list A) (st : S)
  : result S :=
  match xs with
  | [] => Ok st
  | x :: xs' => st' ← body st x; for_each body xs' st'
  end.

(** ** Floats *)

Class PyFloat := {
  pyfloat : Type;
  (** [lit n] is the float literal with the integer value [n]: [2.0],
      [6371000.0], [float(1)]. *)
  lit : Z -> pyfloat;
  (** [float('inf')] *)
  inf : pyfloat;
  fadd : pyfloat -> pyfloat -> pyfloat;
  fsub : pyfloat -> pyfloat -> pyfloat;
  fmul : pyfloat -> pyfloat -> pyfloat;
  (** the quotient; the [ZeroDivisionError] that Python raises on a zero
      divisor is written out where the divisor is not a literal
      ([py_div]). *)
  fdiv : pyfloat -> pyfloat -> pyfloat;
  fpow : pyfloat -> pyfloat -> pyfloat;
  fltb : pyfloat -> pyfloat -> bool;
  fleb : pyfloat -> pyfloat -> bool;
  feqb : pyfloat -> pyfloat -> bool;
  (** the [math] module; [None] is its [ValueError] (math domain error) *)
  math_radians : pyfloat -> pyfloat;
  math_sin : pyfloat -> option pyfloat;
  math_cos : pyfloat -> option pyfloat;
  math_sqrt : pyfloat -> option pyfloat;
  math_atan2 : pyfloat -> pyfloat -> pyfloat;
}.

(** The order and arithmetic facts the search proofs rely on.  The two
    facts about sums speak of numbers that are not negative, and hold when
    the sum is rounded or overflows to [inf]. *)
Class FloatLaws (FM : PyFloat) : Prop := {
  fltb_irrefl : forall x, fltb x x = false;
  fltb_trans : forall x y z, fltb x y = true -> fltb y z = true -> fltb x z = true;
  fltb_total : forall x y, fltb x y = false -> fltb y x = false -> x = y;
  fleb_fltb : forall x y, fleb x y = negb (fltb y x);
  feqb_eq : forall x y, feqb x y = true <-> x = y;
  fadd_mono : forall a b w,
    fleb (lit 0) a = true -> fleb (lit 0) w = true -> fleb a b = true ->
    fleb (fadd a w) (fadd b w) = true;
  fadd_nonneg : forall d w,
    fleb (lit 0) d = true -> fleb (lit 0) w = true -> fleb d (fadd d w) = true;
  zero_finite : fltb (lit 0) inf = true;
  fmul_one : forall x, fmul x (lit 1) = x;
}.

Section Geometry.
Context {FM : PyFloat}.

(** A call of a [math] function. *)
Definition math_call (r : option pyfloat) : result pyfloat :=
  match r with Some y => Ok y | None => Raise ValueError end.

(** [x / y] with a divisor that is not a literal. *)
Definition py_div (x y : pyfloat) : result pyfloat :=
  if feqb y (lit 0) then Raise ZeroDivisionError else Ok (fdiv x y).

(** app.py, lines 59-67. *)
Definition _haversine_m (lat1 lon1 lat2 lon2 : pyfloat) : result pyfloat :=
  let R := lit 6371000 in
  let phi1 := math_radians lat1 in
  let phi2 := math_radians lat2 in
  let dphi := math_radians (fsub lat2 lat1) in
  let dlambda := math_radians (fsub lon2 lon1) in
  s1 ← math_call (math_sin (fdiv dphi (lit 2)));
  c1 ← math_call (math_cos phi1);
  c2 ← math_call (math_cos phi2);
  s2 ← math_call (math_sin (fdiv dlambda (lit 2)));
  let a := fadd (fpow s1 (lit 2)) (fmul (fmul c1 c2) (fpow s2 (lit 2))) in
  r1 ← math_call (math_sqrt a);
  r2 ← math_call (math_sqrt (fsub (lit 1) a));
  let c := fmul (lit 2) (math_atan2 r1 r2) in
  Ok (fmul R c).

(** app.py, lines 69-73. *)
Definition _bbox_from_point_radius (lat lng radius_m : pyfloat)
  : result (pyfloat * pyfloat * pyfloat * pyfloat) :=
  let dlat := fdiv radius_m (lit 111320) in
  c ← math_call (math_cos (math_radians lat));
  dlng ← py_div radius_m (fmul (lit 111320) c);
  Ok (fsub lat dlat, fsub lng dlng, fadd lat dlat, fadd lng dlng).
End Geometry.

(** ** Data model *)

(** A coordinate pair [(lat, lng)]. *)
Abbreviation coord := (pyfloat * pyfloat)%type.
(** [nodes]: the items of the node dict, in insertion order. *)
Abbreviation node_table := (list (Z * (pyfloat * pyfloat))).
(** [graph]: node id -> list of (neighbour, weight). *)
Abbreviation graph := (gmap Z (list (Z * pyfloat))).
(** [edge_types]: frozenset({u, v}) -> category. *)
Abbreviation edge_types := (gmap (Z * Z) string).

(** The entries of a way dict that the builders read. *)
Record way := Way {
  way_nodes : list Z;
  way_highway : option string;
  way_category : option string;
}.

(** [way.get('category', way.get('highway', 'path'))] *)
Definition category_of (w : way) : string :=
  match way_category w with
  | Some c => c
  | None => match way_highway w with Some h => h | None => "path" end
  end.

(** [frozenset((u, v))] *)
Definition frozenset (u v : Z) : Z * Z := (Z.min u v, Z.max u v).

(** [(node_ids[i-1], node_ids[i]) for i in range(1, len(node_ids))] *)
Fixpoint consecutive (node_ids : list Z) : list (Z * Z) :=
  match node_ids with
  | u :: (v :: _) as rest => (u, v) :: consecutive rest
  | _ => []
  end.

(** [type_rank.get(category, -1)], app.py lines 616-623. *)
Definition type_rank (category : string) : Z :=
  if category == "steps" then 5
  else if category == "sidewalk" then 4
  else if category == "pedestrian_street" then 3
  else if category == "foot_path" then 2
  else if category == "informal_path" then 1
  else if category == "path" then 0
  else -1.

(** ** Way classifier *)

(** [tags.get(key, '')] *)
Definition tag (tags : gmap string string) (key : string) : string :=
  default "" (tags !! key).

(** Truth value of a string. *)
Definition truthy (s : string) : bool := negb (s == "").

(** The classification of one way element in [_fetch_pedestrian_ways],
    app.py lines 460-494: [Some category] when the way is kept. *)
Definition _fetch_pedestrian_ways_category (tags : gmap string string)
  : option string :=
  let hw := tag tags "highway" in
  let footway_subtype := tag tags "footway" in
  let informal := tag tags "informal" in
  let trail_vis := tag tags "trail_visibility" in
  if hw == "steps" then Some "steps"
  else if hw == "pedestrian" then Some "pedestrian_street"
  else if hw == "footway" then
    if footway_subtype == "sidewalk" then Some "sidewalk"
    else if footway_subtype == "crossing" then None
    else Some "foot_path"
  else if hw == "path" then
    if (informal == "yes") || truthy trail_vis then Some "informal_path"
    else Some "path"
  else None.

(** [crossing in ('marked', 'zebra', ...)], app.py line 391. *)
Definition marked_crossing (crossing : string) : bool :=
  bool_decide (crossing ∈ ["marked"; "zebra"; "traffic_signals"; "uncontrolled";
                           "pelican"; "toucan"; "puffin"]).

(** The classification of one way element in [_fetch_pedestrian_catalog]
    (the map-display sibling), app.py lines 385-398. *)
Definition _fetch_pedestrian_catalog_category (tags : gmap string string)
  : option string :=
  let highway := tag tags "highway" in
  let footway := tag tags "footway" in
  let crossing := tag tags "crossing" in
  let informal := tag tags "informal" in
  let trail_vis := tag tags "trail_visibility" in
  if highway == "steps" then Some "steps"
  else if highway == "pedestrian" then Some "pedestrian_street"
  else if (highway == "footway") && (footway == "sidewalk") then Some "sidewalk"
  else if (highway == "footway") && (footway == "crossing") && marked_crossing crossing
    then Some "marked_crossing"
  else if (highway == "path") && ((informal == "yes") || truthy trail_vis)
    then Some "informal_path"
  else if highway == "footway" then Some "foot_path"
  else if highway == "path" then Some "path"
  else None.

Section Engine.
Context {FM : PyFloat}.

(** [nodes.get(u)] on the item list: the first item with that key. *)
Fixpoint nodes_get (nodes : node_table) (u : Z) : option coord :=
  match nodes with
  | [] => None
  | (k, c) :: rest => if (k =? u)%Z then Some c else nodes_get rest u
  end.

(** [u in nodes] *)
Definition in_nodes (nodes : node_table) (u : Z) : bool :=
  match nodes_get nodes u with Some _ => true | None => false end.

(** [nodes[u]] *)
Definition nodes_item (nodes : node_table) (u : Z) : result coord :=
  match nodes_get nodes u with Some c => Ok c | None => Raise KeyError end.

(** One way element of the pedestrian fetch, app.py lines 448-500: the
    node list is filtered to the fetched nodes, a way left with fewer than
    two nodes is dropped, and so is a way the classifier excludes. *)
Definition _fetch_pedestrian_ways_way
    (nodes : node_table) (tags : gmap string string) (node_ids : list Z)
  : option way :=
  let filtered := List.filter (in_nodes nodes) node_ids in
  if (length filtered <? 2)%nat then None
  else match _fetch_pedestrian_ways_category tags with
       | Some category =>
           Some (Way filtered (Some (tag tags "highway")) (Some category))
       | None => None
       end.

(** The adjacency list of [u]: [graph.get(u, [])]. *)
Definition adj (g : graph) (u : Z) : list (Z * pyfloat) := default [] (g !! u).

(** [graph[u].append(e)] on a [defaultdict(list)]. *)
Definition graph_append (g : graph) (u : Z) (e : Z * pyfloat) : graph :=
  <[u := adj g u ++ [e]]> g.

(** [graph[u].append((v, w)); graph[v].append((u, w))] *)
Definition add_edge (g : graph) (u v : Z) (w : pyfloat) : graph :=
  graph_append (graph_append g u (v, w)) v (u, w).

(** The loop of [_polyline_length], with the running [total]. *)
Fixpoint _polyline_length_from (total : pyfloat) (coords : list coord)
  : result pyfloat :=
  match coords with
  | a :: (b :: _) as rest =>
      d ← _haversine_m a.1 a.2 b.1 b.2;
      _polyline_length_from (fadd total d) rest
  | _ => Ok total
  end.

(** app.py, lines 602-607. *)
Definition _polyline_length (coords : list coord) : result pyfloat :=
  _polyline_length_from (lit 0) coords.

(** The rank rule of [_build_graph], app.py lines 635-642. *)
Definition set_edge_type (et : edge_types) (ekey : Z * Z) (category : string)
  : edge_types :=
  match et !! ekey with
  | Some prev =>
      if (type_rank prev <? type_rank category)%Z then <[ekey := category]> et else et
  | None => <[ekey := category]> et
  end.

(** The body of the inner loop of [_build_graph], app.py lines 629-642. *)
Definition _build_graph_edge (nodes : node_table) (category : string)
    (st : graph * edge_types) (uv : Z * Z) : result (graph * edge_types) :=
  let '(u, v) := uv in
  '(lat1, lon1) ← nodes_item nodes u;
  '(lat2, lon2) ← nodes_item nodes v;
  w ← _haversine_m lat1 lon1 lat2 lon2;
  Ok (add_edge st.1 u v w, set_edge_type st.2 (frozenset u v) category).

Definition _build_graph_way (nodes : node_table)
    (st : graph * edge_types) (w : way) : result (graph * edge_types) :=
  for_each (_build_graph_edge nodes (category_of w)) (consecutive (way_nodes w)) st.

(** app.py, lines 609-643. *)
Definition _build_graph (nodes : node_table) (ways : list way)
  : result (graph * edge_types) :=
  for_each (_build_graph_way nodes) ways (∅, ∅).

(** The body of the pedestrian loop of [_build_hybrid_graph], app.py lines
    572-581. *)
Definition _hybrid_pedestrian_edge (nodes : node_table) (pedestrian_weight : pyfloat)
    (category : string) (st : graph * edge_types) (uv : Z * Z)
  : result (graph * edge_types) :=
  let '(u, v) := uv in
  if negb (in_nodes nodes u) || negb (in_nodes nodes v) then Ok st
  else
    '(lat1, lon1) ← nodes_item nodes u;
    '(lat2, lon2) ← nodes_item nodes v;
    h ← _haversine_m lat1 lon1 lat2 lon2;
    let w := fmul h pedestrian_weight in
    Ok (add_edge st.1 u v w, <[frozenset u v := category]> st.2).

(** The body of the highway loop of [_build_hybrid_graph], app.py lines
    587-598. *)
Definition _hybrid_highway_edge (nodes : node_table) (highway_weight : pyfloat)
    (st : graph * edge_types) (uv : Z * Z) : result (graph * edge_types) :=
  let '(u, v) := uv in
  if negb (in_nodes nodes u) || negb (in_nodes nodes v) then Ok st
  else
    '(lat1, lon1) ← nodes_item nodes u;
    '(lat2, lon2) ← nodes_item nodes v;
    h ← _haversine_m lat1 lon1 lat2 lon2;
    let w := fmul h highway_weight in
    let ekey := frozenset u v in
    Ok (add_edge st.1 u v w,
        match st.2 !! ekey with
           | None => <[ekey := "highway"]> st.2
           | Some _ => st.2
           end).

(** app.py, lines 553-600. *)
Definition _build_hybrid_graph (nodes : node_table)
    (pedestrian_ways highway_ways : list way)
    (pedestrian_weight highway_weight : pyfloat)
  : result (graph * edge_types) :=
  st ← for_each (fun st w =>
          for_each (_hybrid_pedestrian_edge nodes pedestrian_weight (category_of w))
                   (consecutive (way_nodes w)) st)
        pedestrian_ways (∅, ∅);
  for_each (fun st w =>
      for_each (_hybrid_highway_edge nodes highway_weight)
               (consecutive (way_nodes w)) st)
    highway_ways st.

(** The loop body of [_nearest_node], app.py lines 661-667; the state is
    [(best_id, best_d)]. *)
Definition _nearest_node_step (plat plng : pyfloat) (g : graph)
    (max_distance_m : pyfloat) (st : option Z * pyfloat) (item : Z * coord)
  : result (option Z * pyfloat) :=
  let '(nid, (lat, lng)) := item in
  match g !! nid with
  | None => Ok st
  | Some _ =>
      d ← _haversine_m plat plng lat lng;
      if fltb d st.2 && fleb d max_distance_m then Ok (Some nid, d) else Ok st
  end.

(** app.py, lines 645-668. *)
Definition _nearest_node (point : coord) (nodes : node_table) (g : graph)
    (max_distance_m : pyfloat) : result (option Z) :=
  let '(plat, plng) := point in
  st ← for_each (_nearest_node_step plat plng g max_distance_m) nodes (None, inf);
  Ok st.1.
End Engine.

(** ** Shortest-path search *)

(** The heap holds [(distance, node)] tuples.  [heapq] is modelled by what it
    guarantees: [heappop] removes a least tuple of the list.  Tuples compare
    as Python compares them, so under a total order on the distances the
    least tuple is unique up to duplicates and the model pops what [heapq]
    pops. *)
Abbreviation heap_t := (list (pyfloat * Z)).

Section Search.
Context {FM : PyFloat}.


(** [a < b] on [(float, int)] tuples: the first components decide unless
    they are equal. *)
Definition tuple_ltb (a b : pyfloat * Z) : bool :=
  if feqb a.1 b.1 then (a.2 <? b.2)%Z else fltb a.1 b.1.

(** A least element of [x :: h] and the other elements. *)
Fixpoint heap_extract (x : pyfloat * Z) (h : heap_t) : (pyfloat * Z) * heap_t :=
  match h with
  | [] => (x, [])
  | y :: h' =>
      let '(m, r) := heap_extract y h' in
      if tuple_ltb m x then (m, x :: r) else (x, h)
  end.

Definition heappush (h : heap_t) (x : pyfloat * Z) : heap_t := x :: h.

Definition heappop (h : heap_t) : option ((pyfloat * Z) * heap_t) :=
  match h with
  | [] => None
  | x :: h' => Some (heap_extract x h')
  end.

(** The local variables of [_shortest_path]. *)
Record state := State {
  dist : gmap Z pyfloat;
  prev : gmap Z (option Z);
  heap : heap_t;
  visited : gset Z;
}.

(** The body of [for v, w in graph.get(u, [])], app.py lines 685-689. *)
Definition relax (u : Z) (d : pyfloat) (st : state) (e : Z * pyfloat) : state :=
  let '(v, w) := e in
  let nd := fadd d w in
  if fltb nd (default inf (dist st !! v)) then
    State (<[v := nd]> (dist st)) (<[v := Some u]> (prev st))
          (heappush (heap st) (nd, v)) (visited st)
  else st.

(** The state after [heappop]: the heap lost its least tuple. *)
Definition popped (st : state) (h' : heap_t) : state :=
  State (dist st) (prev st) h' (visited st).

(** The state after [heappop] and [visited.add(u)]. *)
Definition visit (st : state) (h' : heap_t) (u : Z) : state :=
  State (dist st) (prev st) h' ({[u]} ∪ visited st).

(** [while heap: ...], app.py lines 677-689.  [None]: the iterations
    allowed by [fuel] did not finish the loop. *)
Fixpoint search_loop (fuel : nat) (g : graph) (goal : Z) (st : state)
  : option state :=
  match fuel with
  | O => None
  | S fuel' =>
      match heappop (heap st) with
      | None => Some st
      | Some ((d, u), h') =>
          if bool_decide (u ∈ visited st) then search_loop fuel' g goal (popped st h')
          else if (u =? goal)%Z then Some (visit st h' u)
          else search_loop fuel' g goal (fold_left (relax u d) (adj g u) (visit st h' u))
      end
  end.

(** The first state of the search, app.py lines 672-675. *)
Definition initial (start : Z) : state :=
  State {[start := lit 0]} {[start := None]} [(lit 0, start)] ∅.

(** The number of adjacency entries of the graph. *)
Definition graph_entries (g : graph) : nat :=
  sum_list_with (fun kv => length kv.2) (map_to_list g).

(** The loop pops one tuple per iteration, and tuples are only pushed
    while the adjacency list of a node that was not visited before is
    read: [graph_entries g + 2] iterations always finish it
    ([search_terminates]). *)
Definition search (g : graph) (start goal : Z) : option state :=
  search_loop (graph_entries g + 2) g goal (initial start).

(** [while cur in prev and prev[cur] is not None], app.py lines 698-700.
    [None]: the iterations allowed by [fuel] did not finish the loop. *)
Fixpoint reconstruct (fuel : nat) (prev : gmap Z (option Z)) (cur : Z)
    (path : list Z) : option (list Z) :=
  match fuel with
  | O => None
  | S fuel' =>
      match prev !! cur with
      | Some (Some p) => reconstruct fuel' prev p (path ++ [p])
      | _ => Some path
      end
  end.

(** app.py, lines 670-705.  The result is [None] when the call does not
    return: the reconstruction loop follows [prev] for ever.  A walk
    through [prev] that ends visits no key twice, so [size prev + 1]
    iterations finish every loop that ends at all
    ([reconstruct_fuel_enough]). *)
Definition _shortest_path (g : graph) (start goal : Z) : option (list Z) :=
  st ← search g start goal;
  if bool_decide (prev st !! goal = None) && negb (goal =? start)%Z then Some []
  else
    path ← reconstruct (size (prev st) + 1) (prev st) goal [goal];
    if negb (default goal (last path) =? start)%Z then Some []
    else Some (reverse path).

(** The tentative distance of [goal] when the search loop ends: [dist[goal]]. *)
Definition search_distance (g : graph) (start goal : Z) : option pyfloat :=
  st ← search g start goal;
  dist st !! goal.
End Search.

(** ** A concrete float structure

    Decimal fixed-point numbers with 18 fractional digits, extended by the
    two infinities; the [math] functions are their power series cut after a
    few terms, accurate on the small angles of a station precinct.  It is the
    structure the definitions above are run on in the examples below. *)

Module Fixed.
Inductive num := NInf | Fin (z : Z) | PInf.

(** [Fin z] stands for [z / one]. *)
Definition one : Z := 10 ^ 18.
Definition pi : Z := 3141592653589793238.

(** A number of millionths: [micro 1500000] is 1.5. *)
Definition micro (n : Z) : num := Fin (n * 10 ^ 12).

Definition neg (x : num) : num :=
  match x with NInf => PInf | Fin z => Fin (- z) | PInf => NInf end.

Definition add (x y : num) : num :=
  match x, y with
  | Fin a, Fin b => Fin (a + b)
  | PInf, _ | _, PInf => PInf
  | _, _ => NInf
  end.

Definition sub (x y : num) : num := add x (neg y).

Definition signed (positive : bool) : num := if positive then PInf else NInf.

Definition mul (x y : num) : num :=
  match x, y with
  | Fin a, Fin b => Fin (a * b / one)
  | Fin a, PInf | PInf, Fin a => if a =? 0 then Fin 0 else signed (0 <? a)
  | Fin a, NInf | NInf, Fin a => if a =? 0 then Fin 0 else signed (a <? 0)
  | PInf, PInf | NInf, NInf => PInf
  | _, _ => NInf
  end.

Definition div (x y : num) : num :=
  match x, y with
  | Fin a, Fin b => Fin (a * one / b)
  | Fin _, _ => Fin 0
  | PInf, Fin b => signed (0 <=? b)
  | NInf, Fin b => signed (b <? 0)
  | _, _ => Fin 0
  end.

(** [x ** n] for a natural exponent [n]. *)
Definition pow (x y : num) : num :=
  match x, y with
  | Fin a, Fin b => Fin (a ^ (b / one) / one ^ (b / one - 1))
  | _, _ => PInf
  end.

Definition ltb (x y : num) : bool :=
  match x, y with
  | Fin a, Fin b => a <? b
  | NInf, (Fin _ | PInf) | Fin _, PInf => true
  | _, _ => false
  end.

Definition leb (x y : num) : bool := negb (ltb y x).

Definition eqb (x y : num) : bool :=
  match x, y with
  | Fin a, Fin b => a =? b
  | NInf, NInf | PInf, PInf => true
  | _, _ => false
  end.

Definition radians (x : num) : num := div (mul x (Fin pi)) (Fin (180 * one)).

(** [x - x^3/6 + x^5/120]; an infinite argument is a domain error. *)
Definition sin (x : num) : option num :=
  match x with
  | Fin a =>
      let a3 := a * a / one * a / one in
      let a5 := a3 * a / one * a / one in
      Some (Fin (a - a3 / 6 + a5 / 120))
  | _ => None
  end.

(** [1 - x^2/2 + x^4/24]; an infinite argument is a domain error. *)
Definition cos (x : num) : option num :=
  match x with
  | Fin a =>
      let a2 := a * a / one in
      let a4 := a2 * a2 / one in
      Some (Fin (one - a2 / 2 + a4 / 24))
  | _ => None
  end.

(** A negative argument is a domain error. *)
Definition sqrt (x : num) : option num :=
  match x with
  | Fin a => if a <? 0 then None else Some (Fin (Z.sqrt (a * one)))
  | PInf => Some PInf
  | NInf => None
  end.

(** [atan(y / x)] as [t - t^3/3 + t^5/5] for [x > 0], a quarter turn on
    the axis [x = 0]. *)
Definition atan2 (y x : num) : num :=
  match y, x with
  | Fin b, Fin a =>
      if a =? 0 then
        if 0 <? b then Fin (pi / 2) else if b <? 0 then Fin (- (pi / 2)) else Fin 0
      else
        let t := b * one / a in
        let t3 := t * t / one * t / one in
        let t5 := t3 * t / one * t / one in
        Fin (t - t3 / 3 + t5 / 5)
  | _, _ => Fin 0
  end.

Definition float : PyFloat := {|
  pyfloat := num;
  lit := fun n => Fin (n * one);
  inf := PInf;
  fadd := add; fsub := sub; fmul := mul; fdiv := div; fpow := pow;
  fltb := ltb; fleb := leb; feqb := eqb;
  math_radians := radians;
  math_sin := sin; math_cos := cos; math_sqrt := sqrt; math_atan2 := atan2;
|}.
End Fixed.

(** ** Vocabulary of the properties *)

Section Vocabulary.
Context {FM : PyFloat}.

(** [distance(a, b)] of the design document. *)
Definition distance (a b : coord) : result pyfloat :=
  _haversine_m a.1 a.2 b.1 b.2.

(** [u -> v] is an edge of the graph: [v] is listed in the adjacency list
    of [u], with some weight. *)
Definition edge (g : graph) (u v : Z) : Prop := exists w, (v, w) ∈ adj g u.

(** The consecutive node pairs of all ways, each with the category of its
    way, in the order in which the builders meet them. *)
Definition way_edges (w : way) : list ((Z * Z) * string) :=
  map (fun uv => (uv, category_of w)) (consecutive (way_nodes w)).

Definition all_edges (ways : list way) : list ((Z * Z) * string) :=
  flat_map way_edges ways.

(** The builders' loop bodies on a pair tagged with its category. *)
Definition build_step (nodes : node_table) (st : graph * edge_types)
    (e : (Z * Z) * string) : result (graph * edge_types) :=
  _build_graph_edge nodes e.2 st e.1.

Definition hybrid_pedestrian_step (nodes : node_table) (weight : pyfloat)
    (st : graph * edge_types) (e : (Z * Z) * string) : result (graph * edge_types) :=
  _hybrid_pedestrian_edge nodes weight e.2 st e.1.

Definition hybrid_highway_step (nodes : node_table) (weight : pyfloat)
    (st : graph * edge_types) (e : (Z * Z) * string) : result (graph * edge_types) :=
  _hybrid_highway_edge nodes weight st e.1.

(** [(v, w)] is what a list of tagged pairs puts into the adjacency list
    of [u]: the pair is listed in one direction or the other, and [w] is the
    distance between the two coordinates, computed in that direction. *)
Definition edge_from (nodes : node_table) (xs : list ((Z * Z) * string))
    (u v : Z) (w : pyfloat) : Prop :=
  exists c cu cv,
    nodes_get nodes u = Some cu /\ nodes_get nodes v = Some cv
    /\ ((((u, v), c) ∈ xs /\ distance cu cv = Ok w)
        \/ (((v, u), c) ∈ xs /\ distance cv cu = Ok w)).

(** The rank rule as a property of a category map [et] built from the
    tagged pairs [xs]: a key is mapped exactly when some pair has it as its
    frozenset, and then to a category of one of these pairs that no other
    of them outranks. *)
Definition highest_rank_wins (xs : list ((Z * Z) * string)) (et : edge_types)
  : Prop :=
  forall k,
    match et !! k with
    | Some c =>
        (exists u v, ((u, v), c) ∈ xs /\ frozenset u v = k)
        /\ (forall u v c', ((u, v), c') ∈ xs -> frozenset u v = k ->
              type_rank c' <= type_rank c)
    | None => forall u v c', ((u, v), c') ∈ xs -> frozenset u v <> k
    end.

(** [t] can be reached from [s] along adjacency entries. *)
Definition reachable (g : graph) (s t : Z) : Prop := rtc (edge g) s t.

(** The nodes that following [prev] from [cur] visits after [cur], up to
    the first node whose entry is missing or [None]. *)
Inductive chain (prev : gmap Z (option Z)) : Z -> list Z -> Prop :=
| chain_end cur :
    (forall p, prev !! cur <> Some (Some p)) -> chain prev cur []
| chain_step cur p l :
    prev !! cur = Some (Some p) -> chain prev p l -> chain prev cur (p :: l).

(** What the scan of [_nearest_node] knows after the items [seen]. *)
Definition nearest_invariant (point : coord) (g : graph) (max_distance_m : pyfloat)
    (seen : node_table) (st : option Z * pyfloat) : Prop :=
  match st.1 with
  | Some n =>
      (exists c, (n, c) ∈ seen /\ is_Some (g !! n) /\ distance point c = Ok st.2)
      /\ fleb st.2 max_distance_m = true
  | None => st.2 = inf
  end
  /\ forall n' c' d', (n', c') ∈ seen -> is_Some (g !! n') ->
       distance point c' = Ok d' -> fleb d' max_distance_m = true ->
       fleb st.2 d' = true.

(** Every [prev] entry is an edge of the graph. *)
Definition prev_edges (g : graph) (st : state) : Prop :=
  forall v u, prev st !! v = Some (Some u) -> edge g u v.

(** Both ends of the pair are in the node table. *)
Definition present (nodes : node_table) (uv : Z * Z) : Prop :=
  in_nodes nodes uv.1 = true /\ in_nodes nodes uv.2 = true.

(** The six categories of the rank table. *)
Definition ranked (category : string) : Prop := 0 <= type_rank category.
End Vocabulary.

(** ** Vocabulary of the search proofs *)

Section SearchVocabulary.
Context {FM : PyFloat}.

(** The weights the builders produce: distances, neither negative nor
    infinite. *)
Definition nonneg_finite_weights (g : graph) : Prop :=
  forall u v w, (v, w) ∈ adj g u -> fleb (lit 0) w = true /\ fltb w inf = true.

(** No weight is negative. *)
Definition nonneg_weights (g : graph) : Prop :=
  forall u v w, (v, w) ∈ adj g u -> fleb (lit 0) w = true.

(** The cost is below [inf]. *)
Definition finite_cost (c : pyfloat) : Prop := fltb c inf = true.

(** [nonneg_finite_weights], as a check that can be run on a graph. *)
Definition check_weights (g : graph) : bool :=
  forallb (fun kv => forallb (fun e => fleb (lit 0) e.2 && fltb e.2 inf) kv.2)
          (map_to_list g).

(** [walk g s v c]: some walk from [s] to [v] along adjacency entries has
    the cost [c], summed from the start as the search sums it. *)
Inductive walk (g : graph) (s : Z) : Z -> pyfloat -> Prop :=
| walk_here : walk g s s (lit 0)
| walk_step u v w c :
    walk g s u c -> (v, w) ∈ adj g u -> walk g s v (fadd c w).

(** Following [prev] from the node leads to [start] through visited nodes
    only. *)
Inductive rooted (start : Z) (prev : gmap Z (option Z)) (vis : gset Z)
  : Z -> Prop :=
| rooted_start :
    start ∈ vis -> prev !! start = Some None -> rooted start prev vis start
| rooted_step v u :
    v ∈ vis -> prev !! v = Some (Some u) -> rooted start prev vis u ->
    rooted start prev vis v.

(** What holds of the state of the search between two relaxations.
    [closed u e] says for which adjacency entries [e] of a visited node [u]
    the relaxation has been done. *)
Record search_inv (g : graph) (start goal : Z)
    (closed : Z -> Z * pyfloat -> Prop) (st : state) : Prop := {
  inv_dom : forall v, is_Some (prev st !! v) <-> is_Some (dist st !! v);
  inv_start : dist st !! start = Some (lit 0) /\ prev st !! start = Some None;
  inv_prev : forall v u, prev st !! v = Some (Some u) -> u ∈ visited st /\ v <> start;
  inv_prev_none : forall v, prev st !! v = Some None -> v = start;
  inv_rooted : forall v, v ∈ visited st -> rooted start (prev st) (visited st) v;
  inv_visited : forall v, v ∈ visited st -> is_Some (dist st !! v);
  inv_heap : forall d x, (d, x) ∈ heap st ->
    exists dx, dist st !! x = Some dx /\ fleb dx d = true;
  inv_frontier : forall x dx,
    dist st !! x = Some dx -> x ∉ visited st -> (dx, x) ∈ heap st;
  inv_settled : forall v dv d x,
    v ∈ visited st -> dist st !! v = Some dv -> (d, x) ∈ heap st ->
    fleb dv d = true;
  inv_closed : forall u du v w,
    u ∈ visited st -> closed u (v, w) -> dist st !! u = Some du ->
    finite_cost (fadd du w) ->
    exists dv, dist st !! v = Some dv /\ fleb dv (fadd du w) = true;
  inv_walk : forall v dv, dist st !! v = Some dv -> walk g start v dv;
  inv_finite : forall v dv, dist st !! v = Some dv -> finite_cost dv;
  inv_goal : goal ∉ visited st;
}.

(** At the head of the loop every visited node has been relaxed. *)
Definition loop_inv (g : graph) (start goal : Z) (st : state) : Prop :=
  search_inv g start goal (fun u e => e ∈ adj g u) st.

(** While the adjacency list of [u], popped with the distance [d], is
    read: the entries [done] have been relaxed. *)
Record relax_inv (g : graph) (start goal u : Z) (d : pyfloat)
    (done : list (Z * pyfloat)) (st : state) : Prop := {
  rel_inv : search_inv g start goal
              (fun u' e => (u' <> u /\ e ∈ adj g u') \/ (u' = u /\ e ∈ done)) st;
  rel_visited : u ∈ visited st;
  rel_dist : dist st !! u = Some d;
  rel_low : forall v dv, v ∈ visited st -> dist st !! v = Some dv -> fleb dv d = true;
}.

(** What holds of the state in which the loop is left. *)
Record search_post (g : graph) (start goal : Z) (st : state) : Prop := {
  post_optimal : forall c, walk g start goal c -> finite_cost c ->
    exists dg, dist st !! goal = Some dg /\ fleb dg c = true;
  post_walk : forall dg, dist st !! goal = Some dg -> walk g start goal dg;
  post_finite : forall dg, dist st !! goal = Some dg -> finite_cost dg;
  post_dom : is_Some (prev st !! goal) <-> is_Some (dist st !! goal);
  post_start : dist st !! start = Some (lit 0);
  post_rooted : is_Some (dist st !! goal) ->
    rooted start (prev st) (visited st) goal;
}.
End SearchVocabulary.

(** ** Concrete inputs *)

(** An unmarked crossing: [highway=footway], [footway=crossing],
    [crossing=unmarked]. *)
Definition unmarked_crossing_tags : gmap string string :=
  {[ "highway" := "footway"; "footway" := "crossing"; "crossing" := "unmarked" ]}.


(** Three nodes near 19.0 N, 72.8 E: nodes 1 and 2 are about 105 m apart
    on one parallel, node 3 lies about 1.1 km north of them. *)
Module Sample.
Import Fixed.

Definition nodes : list (Z * (num * num)) :=
  [ (1, (micro 19000000, micro 72800000));
    (2, (micro 19000000, micro 72801000));
    (3, (micro 19010000, micro 72800500)) ].

(** A footway from 1 over 3 to 2, and a residential road from 1 to 2. *)
Definition footway_1_3_2 : way := Way [1; 3; 2] (Some "footway") (Some "foot_path").
Definition road_1_2 : way := Way [1; 2] (Some "residential") (Some "highway").

(** Two ways over the same node pair: steps, and a generic path. *)
Definition steps_1_2 : way := Way [1; 2] (Some "steps") (Some "steps").
Definition path_1_2 : way := Way [1; 2] (Some "path") (Some "path").

(** A way that lists a node the table does not have. *)
Definition way_1_99 : way := Way [1; 99] (Some "footway") (Some "foot_path").

(** A query point next to node 1. *)
Definition origin : num * num := (micro 19000010, micro 72800010).

(** Two nodes joined by an edge of infinite weight. *)
Definition far_graph : gmap Z (list (Z * num)) :=
  {[ 1 := [(2, PInf)]; 2 := [(1, PInf)] ]}.

(** The pedestrian graph of the footway, and the hybrid graph of the
    footway and the road. *)
Definition built : result (gmap Z (list (Z * num)) * gmap (Z * Z) string) :=
  @_build_graph float nodes [footway_1_3_2].
Definition built_hybrid : result (gmap Z (list (Z * num)) * gmap (Z * Z) string) :=
  @_build_hybrid_graph float nodes [footway_1_3_2] [road_1_2] (Fin one) (Fin (3 * one)).

Definition graph_of (r : result (gmap Z (list (Z * num)) * gmap (Z * Z) string))
  : gmap Z (list (Z * num)) :=
  match r with Ok (g, _) => g | Raise _ => ∅ end.
Definition types_of (r : result (gmap Z (list (Z * num)) * gmap (Z * Z) string))
  : gmap (Z * Z) string :=
  match r with Ok (_, et) => et | Raise _ => ∅ end.

Definition pedestrian_graph : gmap Z (list (Z * num)) := graph_of built.
Definition hybrid_graph : gmap Z (list (Z * num)) := graph_of built_hybrid.

(** The coordinates of a node path: [[nodes[nid] for nid in node_path]]. *)
Definition route (node_path : list Z) : list (num * num) :=
  omap (@nodes_get float nodes) node_path.
End Sample.

(** ** Overpass answers and the fetchers *)

Section Overpass.
Context {FM : PyFloat}.

(** An element of the [elements] array of an Overpass answer, with the
    entries the backend reads; [None] is a key the element does not have.
    [el_center] is the [center] object of [out center], with its own two
    optional entries. *)
Record element := Element {
  el_type : option string;
  el_id : option Z;
  el_lat : option pyfloat;
  el_lon : option pyfloat;
  el_center : option (option pyfloat * option pyfloat);
  el_tags : option (gmap string string);
  el_nodes : option (list Z);
}.

(** [el[key]] *)
Definition el_item {A : Type} (entry : option A) : result A :=
  match entry with Some a => Ok a | None => Raise KeyError end.

(** [el.get('type') == t] *)
Definition is_type (el : element) (t : string) : bool :=
  match el_type el with Some s => s == t | None => false end.

(** [el.get('tags', {})] and [el.get('nodes', [])] *)
Definition tags_of (el : element) : gmap string string := default ∅ (el_tags el).
Definition node_ids_of (el : element) : list Z := default [] (el_nodes el).

(** [nodes[k] = c] on the item list: the value of a key that is there is
    replaced where it stands, a new key goes to the end. *)
Fixpoint nodes_set (nodes : node_table) (k : Z) (c : coord) : node_table :=
  match nodes with
  | [] => [(k, c)]
  | (k', c') :: rest =>
      if (k' =? k)%Z then (k', c) :: rest else (k', c') :: nodes_set rest k c
  end.

(** [el] is a node element with the id [id] and the coordinates [c]. *)
Definition node_element (el : element) (id : Z) (c : coord) : Prop :=
  is_type el "node" = true /\ el_id el = Some id
  /\ el_lat el = Some c.1 /\ el_lon el = Some c.2.

(** The body of the node loop of the three fetchers, app.py lines 353-355,
    440-442 and 530-532. *)
Definition _fetch_nodes_step (nodes : node_table) (el : element) : result node_table :=
  if is_type el "node" then
    lat ← el_item (el_lat el);
    lon ← el_item (el_lon el);
    id ← el_item (el_id el);
    Ok (nodes_set nodes id (lat, lon))
  else Ok nodes.

Definition _fetch_nodes (elements : list element) : result node_table :=
  for_each _fetch_nodes_step elements [].

(** [_fetch_pedestrian_ways] from the downloaded [elements] on, app.py
    lines 438-508. *)
Definition _fetch_pedestrian_ways_elements (elements : list element)
  : result (node_table * list way) :=
  nodes ← _fetch_nodes elements;
  Ok (nodes,
      omap (fun el =>
              if is_type el "way"
              then _fetch_pedestrian_ways_way nodes (tags_of el) (node_ids_of el)
              else None)
           elements).

(** [hw in ('residential', 'service', ...)], app.py line 541. *)
Definition highway_connector (hw : string) : bool :=
  bool_decide (hw ∈ ["residential"; "service"; "tertiary"; "secondary"; "primary";
                     "trunk"; "motorway"; "unclassified"]).

(** One way element of the highway fetch, app.py lines 538-549. *)
Definition _fetch_highways_way (nodes : node_table) (tags : gmap string string)
    (node_ids : list Z) : option way :=
  let hw := tag tags "highway" in
  if highway_connector hw then
    let filtered := List.filter (in_nodes nodes) node_ids in
    if (2 <=? length filtered)%nat
    then Some (Way filtered (Some hw) (Some "highway"))
    else None
  else None.

(** [_fetch_highways] from the downloaded [elements] on, app.py lines
    528-551. *)
Definition _fetch_highways_elements (elements : list element)
  : result (node_table * list way) :=
  nodes ← _fetch_nodes elements;
  Ok (nodes,
      omap (fun el =>
              if is_type el "way"
              then _fetch_highways_way nodes (tags_of el) (node_ids_of el)
              else None)
           elements).

(** A feature of the catalog: [{'highway': ..., 'subtype': ..., 'coords': ...}]. *)
Record catalog_feature := CatalogFeature {
  cf_highway : string;
  cf_subtype : string;
  cf_coords : list coord;
}.

(** [footway or crossing or ''] *)
Definition subtype_of (footway crossing : string) : string :=
  if truthy footway then footway else if truthy crossing then crossing else "".

(** [to_coords], app.py lines 367-368. *)
Definition to_coords (node_map : node_table) (ids : list Z) : list coord :=
  omap (nodes_get node_map) ids.

(** One way element of the catalog fetch, app.py lines 373-398: the
    category list the feature is appended to, and the feature. *)
Definition _fetch_pedestrian_catalog_way (node_map : node_table)
    (tags : gmap string string) (ids : list Z) : option (string * catalog_feature) :=
  let node_ids := List.filter (in_nodes node_map) ids in
  if (length node_ids <? 2)%nat then None
  else
    let feature :=
      CatalogFeature (tag tags "highway")
                     (subtype_of (tag tags "footway") (tag tags "crossing"))
                     (to_coords node_map node_ids) in
    match _fetch_pedestrian_catalog_category tags with
    | Some category => Some (category, feature)
    | None => None
    end.

(** [categories[category].append(feature)] *)
Definition categories_append (categories : gmap string (list catalog_feature))
    (category : string) (feature : catalog_feature)
  : gmap string (list catalog_feature) :=
  <[category := default [] (categories !! category) ++ [feature]]> categories.

(** The seven empty lists of app.py lines 357-365. *)
Definition categories_init : gmap string (list catalog_feature) :=
  {[ "foot_path" := []; "sidewalk" := []; "marked_crossing" := [];
     "informal_path" := []; "steps" := []; "pedestrian_street" := [];
     "path" := [] ]}.

(** [_fetch_pedestrian_catalog] from the downloaded [elements] on, app.py
    lines 352-412: the seven category lists of the dict it returns (its
    eighth entry, [pins], is the empty list). *)
Definition _fetch_pedestrian_catalog_elements (elements : list element)
  : result (gmap string (list catalog_feature)) :=
  node_map ← _fetch_nodes elements;
  Ok (fold_left
        (fun categories el =>
           if is_type el "way" then
             match _fetch_pedestrian_catalog_way node_map (tags_of el) (node_ids_of el) with
             | Some (category, feature) => categories_append categories category feature
             | None => categories
             end
           else categories)
        elements categories_init).
End Overpass.

(** ** Vocabulary of the category maps *)

(** [x] is the last element of [xs] with the property [P]. *)
Definition last_such {A : Type} (P : A -> Prop) (xs : list A) (x : A) : Prop :=
  exists before after,
    xs = before ++ x :: after /\ P x /\ forall y, y ∈ after -> ~ P y.

Section HybridVocabulary.
Context {FM : PyFloat}.

(** The tagged pair has both nodes in the node table and the key [k]. *)
Definition keyed (nodes : node_table) (k : Z * Z) (e : (Z * Z) * string) : Prop :=
  present nodes e.1 /\ frozenset e.1.1 e.1.2 = k.
End HybridVocabulary.

(** ** Route segments and network polylines *)

Section Rendering.
Context {FM : PyFloat}.

(** A coloured segment of the route; [from] and [to] are [{'lat', 'lng'}]. *)
Record segment := Segment {
  seg_from : coord;
  seg_to : coord;
  seg_category : string;
  seg_highway : string;
  seg_is_highway : bool;
}.

(** The loop body of [_segments_with_types], app.py lines 710-729. *)
Definition _segments_with_types_step (nodes : node_table) (et : edge_types)
    (segments : list segment) (uv : Z * Z) : result (list segment) :=
  let '(u, v) := uv in
  let category := default "foot_path" (et !! frozenset u v) in
  let highway_type := if category == "highway" then "highway" else category in
  '(lat1, lng1) ← nodes_item nodes u;
  '(lat2, lng2) ← nodes_item nodes v;
  Ok (segments ++ [Segment (lat1, lng1) (lat2, lng2) category highway_type
                           (category == "highway")]).

(** app.py, lines 707-730. *)
Definition _segments_with_types (node_path : list Z) (nodes : node_table)
    (et : edge_types) : result (list segment) :=
  for_each (_segments_with_types_step nodes et) (consecutive node_path) [].

(** What a segment says about the node pair it was made for. *)
Definition segment_of (nodes : node_table) (et : edge_types) (uv : Z * Z)
    (s : segment) : Prop :=
  nodes_get nodes uv.1 = Some (seg_from s) /\ nodes_get nodes uv.2 = Some (seg_to s)
  /\ seg_category s = default "foot_path" (et !! frozenset uv.1 uv.2)
  /\ seg_highway s = seg_category s
  /\ (seg_is_highway s = true <-> seg_category s = "highway").

(** A polyline of the background network. *)
Record network_feature := NetworkFeature {
  nf_category : string;
  nf_highway : string;
  nf_coords : list coord;
}.

(** One way of [_network_geometries], app.py lines 736-743. *)
Definition _network_geometries_way (nodes : node_table) (w : way)
  : option network_feature :=
  let coords := omap (nodes_get nodes) (way_nodes w) in
  if (2 <=? length coords)%nat
  then Some (NetworkFeature (category_of w) (default "path" (way_highway w)) coords)
  else None.

(** app.py, lines 732-744. *)
Definition _network_geometries (nodes : node_table) (ways : list way)
  : list network_feature :=
  omap (_network_geometries_way nodes) ways.
End Rendering.

(** ** The nearest-node search of the navigation handler *)

Section Snapping.
Context {FM : PyFloat}.

(** The states of two scans of the same items by [_nearest_node], the
    first with the radius [m], the second with a radius that is at least
    [m]: they agree as soon as the first scan has a candidate, and before
    that the candidate of the second, if any, lies outside [m]. *)
Definition widened (m : pyfloat) (st st' : option Z * pyfloat) : Prop :=
  (st.1 = None -> st.2 = inf)
  /\ (is_Some st.1 -> fleb st.2 m = true)
  /\ (st = st'
      \/ (st.1 = None /\ is_Some st'.1 /\ fleb st'.2 m = false /\ fltb st'.2 inf = true)).

(** Truth value of [origin_node]: [None] and the id 0 are false. *)
Definition node_truthy (n : option Z) : bool :=
  match n with Some id => negb (id =? 0)%Z | None => false end.

(** [for max_dist in max_search_distances: ...], app.py lines 145-151, with
    the two node variables as the state. *)
Fixpoint navigation_nearest_loop (origin dest : coord) (osm_nodes : node_table)
    (g : graph) (max_search_distances : list pyfloat) (st : option Z * option Z)
  : result (option Z * option Z) :=
  match max_search_distances with
  | [] => Ok st
  | max_dist :: rest =>
      origin_node ← match st.1 with
                    | None => _nearest_node origin osm_nodes g max_dist
                    | Some n => Ok (Some n)
                    end;
      dest_node ← match st.2 with
                  | None => _nearest_node dest osm_nodes g max_dist
                  | Some n => Ok (Some n)
                  end;
      if node_truthy origin_node && node_truthy dest_node
      then Ok (origin_node, dest_node)
      else navigation_nearest_loop origin dest osm_nodes g rest (origin_node, dest_node)
  end.

(** app.py, lines 141-151. *)
Definition navigation_nearest_nodes (origin dest : coord) (osm_nodes : node_table)
    (g : graph) : result (option Z * option Z) :=
  navigation_nearest_loop origin dest osm_nodes g [lit 200; lit 500; lit 1000]
                          (None, None).
End Snapping.

(** ** Downloads *)

Section Download.
Context {FM : PyFloat}.

(** The Overpass queries of the backend, by what they ask for and the
    values that are written into them: the bounding box of the three queries
    of app.py (lines 337-349, 426-435, 516-525), the radius and the centre of
    the query of osm_facilities.py (lines 65-88). *)
Inductive query :=
| PedestrianCatalogQuery (south west north east : pyfloat)
| PedestrianWaysQuery (south west north east : pyfloat)
| HighwaysQuery (south west north east : pyfloat)
| FacilitiesQuery (radius_m : Z) (center_lat center_lng : pyfloat).

(** app.py, lines 19-24. *)
Definition OverpassURLs : list string :=
  [ "https://overpass-api.de/api/interpreter";
    "https://overpass.kumi.systems/api/interpreter";
    "https://z.overpass-api.de/api/interpreter";
    "https://overpass.openstreetmap.ru/api/interpreter" ].

(** The loop of [_fetch_overpass_data], app.py lines 35-54, over the
    endpoints that are left.  [post url q] is the [try] block for one
    endpoint: the answer, or [None] when anything in it raised.  The result
    is the list of the endpoints that were contacted, and the answer of the
    last of them; [None] stands for the exception of line 57. *)
Fixpoint _fetch_overpass_data_from {D : Type} (post : string -> query -> option D)
    (urls : list string) (q : query) : list string * option D :=
  match urls with
  | [] => ([], None)
  | url :: rest =>
      match post url q with
      | Some data => ([url], Some data)
      | None =>
          let '(contacted, r) := _fetch_overpass_data_from post rest q in
          (url :: contacted, r)
      end
  end.

(** app.py, lines 27-57. *)
Definition _fetch_overpass_data {D : Type} (post : string -> query -> option D)
    (q : query) : list string * option D :=
  _fetch_overpass_data_from post OverpassURLs q.
End Download.

(** ** The navigation handler *)

(** What can end a run of the handler's [try] block, besides a [return]:
    an exception -- one of the Python exceptions of the routing core, or
    the [Exception] of [_fetch_overpass_data] when every endpoint failed --
    or a search that does not return. *)
Inductive failure := Python (e : exn) | AllEndpointsFailed.

Inductive run (A : Type) := Returns (a : A) | Raises (f : failure) | Loops.
Arguments Returns {A} a.
Arguments Raises {A} f.
Arguments Loops {A}.

#[global] Instance run_ret : MRet run := fun A a => Returns a.
#[global] Instance run_bind : MBind run :=
  fun A B f r =>
    match r with Returns a => f a | Raises e => Raises e | Loops => Loops end.

Definition of_result {A : Type} (r : result A) : run A :=
  match r with Ok a => Returns a | Raise e => Raises (Python e) end.

Definition of_search {A : Type} (r : option A) : run A :=
  match r with Some a => Returns a | None => Loops end.

Definition of_download {A : Type} (r : list string * option A) : run A :=
  match r.2 with Some a => Returns a | None => Raises AllEndpointsFailed end.

Section Navigation.
Context {FM : PyFloat}.

(** [max(a, b)]: the first of the two unless the second is greater. *)
Definition py_max (a b : pyfloat) : pyfloat := if fltb a b then b else a.

(** [{**osm_nodes, **highway_nodes}] *)
Definition nodes_merge (osm_nodes highway_nodes : node_table) : node_table :=
  fold_left (fun acc item => nodes_set acc item.1 item.2) highway_nodes osm_nodes.

(** [[{'lat': osm_nodes[nid][0], 'lng': osm_nodes[nid][1]} for nid in
    node_path]], app.py line 221. *)
Definition route_coords (nodes : node_table) (node_path : list Z) : result (list coord) :=
  for_each (fun acc nid => c ← nodes_item nodes nid; Ok (acc ++ [c])) node_path [].

(** The [meta] object of a successful answer. *)
Record route_meta := RouteMeta {
  meta_nodes : nat;
  meta_ways : nat;
  meta_distance_m : pyfloat;
  meta_pedestrian_distance_m : pyfloat;
  meta_highway_distance_m : pyfloat;
  meta_uses_highways : bool;
  meta_routing_mode : string;
}.

(** The answers of the handler after its parameters are parsed: the
    successful one with its entries, and each error answer with the values
    its body is written from. *)
Inductive response :=
| Success (route : list coord) (route_colored : list segment)
          (network : list network_feature) (meta : route_meta)
| NoFootpaths (south west north east radius_m : pyfloat)
| NoGraph (ways_count nodes_count : nat)
| NoOriginNode (origin : coord) (ways_found nodes_found : nat)
| NoDestNode (dest : coord) (ways_found nodes_found : nat)
| NoRoute (origin_node dest_node : Z) (graph_size ways_in_area : nat)
| ServerError (cause : failure).

(** [_fetch_pedestrian_ways] and [_fetch_highways] with their downloads. *)
Definition _fetch_pedestrian_ways (post : string -> query -> option (list element))
    (south west north east : pyfloat) : run (node_table * list way) :=
  elements ← of_download (_fetch_overpass_data post (PedestrianWaysQuery south west north east));
  of_result (_fetch_pedestrian_ways_elements elements).

Definition _fetch_highways (post : string -> query -> option (list element))
    (south west north east : pyfloat) : run (node_table * list way) :=
  elements ← of_download (_fetch_overpass_data post (HighwaysQuery south west north east));
  of_result (_fetch_highways_elements elements).

(** The body of the loop over the coloured segments, app.py lines 230-235,
    with [(pedestrian_distance, highway_distance)] as the state. *)
Definition navigation_distance_step (st : pyfloat * pyfloat) (seg : segment)
  : result (pyfloat * pyfloat) :=
  seg_dist ← _haversine_m (seg_from seg).1 (seg_from seg).2 (seg_to seg).1 (seg_to seg).2;
  if (seg_category seg == "highway") || (seg_highway seg == "highway")
  then Ok (st.1, fadd st.2 seg_dist)
  else Ok (fadd st.1 seg_dist, st.2).

(** The hybrid attempt, app.py lines 181-206: the new values of
    [node_path], [use_highways], [edge_types] and [osm_nodes]. *)
Definition navigation_hybrid (post : string -> query -> option (list element))
    (origin dest : coord) (south west north east : pyfloat)
    (osm_nodes : node_table) (ways : list way) (et : edge_types)
  : run (list Z * bool * edge_types * node_table) :=
  '(highway_nodes, highway_ways) ← _fetch_highways post south west north east;
  match highway_ways with
  | [] => Returns ([], false, et, osm_nodes)
  | _ :: _ =>
      let all_nodes := nodes_merge osm_nodes highway_nodes in
      '(hybrid_graph, hybrid_edge_types) ←
        of_result (_build_hybrid_graph all_nodes ways highway_ways (lit 1) (lit 3));
      hybrid_origin_node ← of_result (_nearest_node origin all_nodes hybrid_graph (lit 1000));
      hybrid_dest_node ← of_result (_nearest_node dest all_nodes hybrid_graph (lit 1000));
      if node_truthy hybrid_origin_node && node_truthy hybrid_dest_node then
        node_path ← of_search (_shortest_path hybrid_graph
                                 (default 0 hybrid_origin_node) (default 0 hybrid_dest_node));
        match node_path with
        | [] => Returns ([], false, et, osm_nodes)
        | _ :: _ => Returns (node_path, true, hybrid_edge_types, all_nodes)
        end
      else Returns ([], false, et, osm_nodes)
  end.

(** The bounding box the handler downloads, app.py lines 110-118. *)
Definition navigation_bbox (origin dest : coord) (radius_m : pyfloat)
  : result (pyfloat * pyfloat * pyfloat * pyfloat) :=
  let mid_lat := fdiv (fadd origin.1 dest.1) (lit 2) in
  let mid_lng := fdiv (fadd origin.2 dest.2) (lit 2) in
  dist_origin_dest ← _haversine_m origin.1 origin.2 dest.1 dest.2;
  (* 1.5 is 3.0 / 2.0 *)
  let effective_radius :=
    py_max radius_m (fmul dist_origin_dest (fdiv (lit 3) (lit 2))) in
  _bbox_from_point_radius mid_lat mid_lng effective_radius.

(** The [try] block of the handler, app.py lines 108-251, on the parsed
    parameters [origin], [dest] and [radius_m]. *)
Definition navigation_try (post : string -> query -> option (list element))
    (origin dest : coord) (radius_m : pyfloat) : run response :=
  let mid_lat := fdiv (fadd origin.1 dest.1) (lit 2) in
  let mid_lng := fdiv (fadd origin.2 dest.2) (lit 2) in
  dist_origin_dest ← of_result (_haversine_m origin.1 origin.2 dest.1 dest.2);
  (* 1.5 is 3.0 / 2.0 *)
  let effective_radius :=
    py_max radius_m (fmul dist_origin_dest (fdiv (lit 3) (lit 2))) in
  '(south, west, north, east) ←
    of_result (_bbox_from_point_radius mid_lat mid_lng effective_radius);
  '(osm_nodes, ways) ← _fetch_pedestrian_ways post south west north east;
  match ways with
  | [] => Returns (NoFootpaths south west north east effective_radius)
  | _ :: _ =>
  '(g, et) ← of_result (_build_graph osm_nodes ways);
  if decide (g = ∅) then Returns (NoGraph (length ways) (length osm_nodes)) else
  '(origin_node, dest_node) ← of_result (navigation_nearest_nodes origin dest osm_nodes g);
  match origin_node, dest_node with
  | None, _ => Returns (NoOriginNode origin (length ways) (length osm_nodes))
  | Some _, None => Returns (NoDestNode dest (length ways) (length osm_nodes))
  | Some origin_node, Some dest_node =>
  node_path ← of_search (_shortest_path g origin_node dest_node);
  '(node_path, use_highways, edge_types, nodes) ←
    match node_path with
    | [] => navigation_hybrid post origin dest south west north east osm_nodes ways et
    | _ :: _ => Returns (node_path, false, et, osm_nodes)
    end;
  match node_path with
  | [] => Returns (NoRoute origin_node dest_node (size g) (length ways))
  | _ :: _ =>
  coords ← of_result (route_coords nodes node_path);
  colored_segments ← of_result (_segments_with_types node_path nodes edge_types);
  let network_geoms := _network_geometries nodes ways in
  total_distance ← of_result (_polyline_length coords);
  '(pedestrian_distance, highway_distance) ←
    of_result (for_each navigation_distance_step colored_segments (lit 0, lit 0));
  Returns (Success coords colored_segments network_geoms
             (RouteMeta (length nodes) (length ways) total_distance
                        pedestrian_distance highway_distance use_highways
                        (if use_highways then "hybrid" else "pedestrian_only")))
  end end end.

(** app.py, lines 107-253: what leaves the [try] block as an exception is
    answered with the status 500. *)
Definition navigation (post : string -> query -> option (list element))
    (origin dest : coord) (radius_m : pyfloat) : run response :=
  match navigation_try post origin dest radius_m with
  | Raises cause => Returns (ServerError cause)
  | r => r
  end.
End Navigation.

(** ** Vocabulary of the handler proofs *)

(** How a run ends: a value it returns satisfies [Q], an exception it
    raises satisfies [E]. *)
Definition ends_with {A : Type} (r : run A) (Q : A -> Prop) (E : failure -> Prop)
  : Prop :=
  match r with Returns a => Q a | Raises f => E f | Loops => True end.

Section HandlerVocabulary.
Context {FM : PyFloat}.

(** A downloaded answer holds a node element without [id], [lat] or
    [lon]. *)
Definition malformed (elements : list element) : Prop :=
  exists el, el ∈ elements /\ is_type el "node" = true
    /\ (el_lat el = None \/ el_lon el = None \/ el_id el = None).

(** The segments follow the coordinates: one segment per consecutive pair
    of points, from the first to the second. *)
Inductive segments_along : list coord -> list segment -> Prop :=
| along_nil : segments_along [] []
| along_one c : segments_along [c] []
| along_cons a b l s segs :
    seg_from s = a -> seg_to s = b -> segments_along (b :: l) segs ->
    segments_along (a :: b :: l) (s :: segs).
End HandlerVocabulary.

Section HandlerFacts.
Context {FM : PyFloat}.

(** What the handler knows of [node_path], [use_highways], [edge_types]
    and [osm_nodes] after the hybrid attempt, when the pedestrian graph is
    [g] with the category map [et], and the nodes nearest to the origin and
    to the destination are [o] and [d]: the path is empty, or it is the
    result of the pedestrian search, or that was empty and the path is the
    result of the search in the hybrid graph. *)
Definition route_choice (post : string -> query -> option (list element))
    (origin dest : coord) (south west north east : pyfloat)
    (osm_nodes : node_table) (ways : list way) (g : graph) (et : edge_types)
    (o d : Z) (choice : list Z * bool * edge_types * node_table) : Prop :=
  let '(node_path, use_highways, edge_types, nodes) := choice in
  node_path = []
  \/ (use_highways = false /\ edge_types = et /\ nodes = osm_nodes
      /\ _shortest_path g o d = Some node_path)
  \/ (use_highways = true /\ _shortest_path g o d = Some []
      /\ exists elements highway_nodes highway_ways gh s t,
           (_fetch_overpass_data post (HighwaysQuery south west north east)).2
             = Some elements
           /\ _fetch_highways_elements elements = Ok (highway_nodes, highway_ways)
           /\ nodes = nodes_merge osm_nodes highway_nodes
           /\ _build_hybrid_graph nodes ways highway_ways (lit 1) (lit 3)
                = Ok (gh, edge_types)
           /\ _nearest_node origin nodes gh (lit 1000) = Ok (Some s)
           /\ _nearest_node dest nodes gh (lit 1000) = Ok (Some t)
           /\ _shortest_path gh s t = Some node_path).

(** What the handler has computed when it answers with a route. *)
Definition route_answer (post : string -> query -> option (list element))
    (origin dest : coord) (radius_m : pyfloat) (route : list coord)
    (segs : list segment) (network : list network_feature) (meta : route_meta)
  : Prop :=
  exists south west north east elements osm_nodes ways g et o d
         node_path edge_types nodes,
    navigation_bbox origin dest radius_m = Ok (south, west, north, east)
    /\ (_fetch_overpass_data post (PedestrianWaysQuery south west north east)).2
      = Some elements
    /\ _fetch_pedestrian_ways_elements elements = Ok (osm_nodes, ways)
    /\ _build_graph osm_nodes ways = Ok (g, et)
    /\ navigation_nearest_nodes origin dest osm_nodes g = Ok (Some o, Some d)
    /\ node_path <> []
    /\ route_choice post origin dest south west north east osm_nodes ways g et o d
         (node_path, meta_uses_highways meta, edge_types, nodes)
    /\ route_coords nodes node_path = Ok route
    /\ _segments_with_types node_path nodes edge_types = Ok segs
    /\ network = _network_geometries nodes ways
    /\ _polyline_length route = Ok (meta_distance_m meta)
    /\ for_each navigation_distance_step segs (lit 0, lit 0)
         = Ok (meta_pedestrian_distance_m meta, meta_highway_distance_m meta)
    /\ meta_nodes meta = length nodes /\ meta_ways meta = length ways
    /\ meta_routing_mode meta
         = if meta_uses_highways meta then "hybrid" else "pedestrian_only".

(** One of the two downloads of the handler -- the pedestrian ways or the
    highways of its bounding box -- answered with a node element that lacks
    [id], [lat] or [lon]. *)
Definition malformed_download (post : string -> query -> option (list element))
    (origin dest : coord) (radius_m : pyfloat) : Prop :=
  exists south west north east q elements,
    navigation_bbox origin dest radius_m = Ok (south, west, north, east)
    /\ (q = PedestrianWaysQuery south west north east
        \/ q = HighwaysQuery south west north east)
    /\ (_fetch_overpass_data post q).2 = Some elements
    /\ malformed elements.
End HandlerFacts.

(** ** Station facilities (osm_facilities.py) *)

Section Facilities.
Context {FM : PyFloat}.
(** [str.title] *)
Variable title : string -> string.

(** osm_facilities.py, lines 28-52: the readable type and the [key=value]
    patterns of each entry, in the order of the dict. *)
Definition TAG_MAPPINGS : list (string * (string * list (string * string))) :=
  [ ("toilets", ("Toilet", [("amenity", "toilets")]));
    ("atm", ("ATM", [("amenity", "atm")]));
    ("bank", ("Bank", [("amenity", "bank")]));
    ("drinking_water", ("Drinking_Water", [("amenity", "drinking_water")]));
    ("fast_food", ("Food", [("amenity", "fast_food")]));
    ("restaurant", ("Food", [("amenity", "restaurant")]));
    ("cafe", ("Food", [("amenity", "cafe")]));
    ("food_court", ("Food", [("amenity", "food_court")]));
    ("waiting_room", ("Waiting_Area", [("amenity", "waiting_room")]));
    ("bench", ("Seating", [("amenity", "bench")]));
    ("bicycle_parking", ("Bicycle_Parking", [("amenity", "bicycle_parking")]));
    ("parking", ("Parking", [("amenity", "parking")]));
    ("police", ("Police", [("amenity", "police")]));
    ("clinic", ("Medical", [("amenity", "clinic")]));
    ("hospital", ("Medical", [("amenity", "hospital")]));
    ("pharmacy", ("Medical", [("amenity", "pharmacy")]));
    ("first_aid", ("Medical", [("emergency", "first_aid_kit")]));
    ("elevator", ("Elevator", [("highway", "elevator")]));
    ("information", ("Information", [("tourism", "information");
                                     ("amenity", "information")]));
    ("ticket_counter", ("Ticket_Counter", [("railway", "ticket_validator");
                                           ("amenity", "ticket_validator");
                                           ("amenity", "ticket_office")]));
    ("entrance", ("Entrance", [("entrance", "yes");
                               ("railway", "station_entrance")])) ].

(** [s.replace(' ', '_')] *)
Fixpoint replace_space (s : string) : string :=
  match s with
  | EmptyString => EmptyString
  | String c s' =>
      String (if Ascii.eqb c " "%char then "_"%char else c) (replace_space s')
  end.

(** A facility of the answer. *)
Record facility := Facility {
  fac_id : option Z;
  fac_name : string;
  fac_type : string;
  fac_lat : pyfloat;
  fac_lng : pyfloat;
  fac_raw_name : option string;
  fac_tags : gmap string string;
}.

(** [a or b] on an optional float: [None] and zero are false. *)
Definition float_or (a b : option pyfloat) : option pyfloat :=
  match a with
  | Some x => if feqb x (lit 0) then b else Some x
  | None => b
  end.

(** [el.get('lat') or el.get('center', {}).get('lat')], and the same for
    [lon]: osm_facilities.py, lines 127-130. *)
Definition feature_coords (el : element) : option coord :=
  let center := default (None, None) (el_center el) in
  lat ← float_or (el_lat el) center.1;
  lon ← float_or (el_lon el) center.2;
  Some (lat, lon).

(** The mapping loop, osm_facilities.py lines 135-142: the readable type of
    the first entry one of whose patterns the tags match. *)
Definition mapped_type (tags : gmap string string) : option string :=
  fst <$> head (List.filter
                  (fun entry : string * list (string * string) =>
                     existsb (fun pat : string * string =>
                                bool_decide (tags !! pat.1 = Some pat.2))
                             entry.2)
                  (snd <$> TAG_MAPPINGS)).

(** osm_facilities.py, lines 132-153. *)
Definition classified_type (tags : gmap string string) : string :=
  match mapped_type tags with
  | Some readable => readable
  | None =>
      match tags !! "amenity", tags !! "railway", tags !! "tourism" with
      | Some a, _, _ => replace_space (title a)
      | None, Some r, _ => replace_space (title r)
      | None, None, Some t => replace_space (title t)
      | None, None, None => "Facility"
      end
  end.

(** [f"{station_prefix}_{classified_type}_{idx}"] *)
Definition human_name (station_prefix type : string) (idx : nat) : string :=
  station_prefix +:+ "_" +:+ type +:+ "_" +:+ pretty idx.

(** The loop body of [_classify_and_name], osm_facilities.py lines 125-167,
    with [(counters, results)] as the state. *)
Definition _classify_and_name_step (station_prefix : string)
    (st : gmap string nat * list facility) (el : element)
  : gmap string nat * list facility :=
  let tags := default ∅ (el_tags el) in
  match feature_coords el with
  | None => st
  | Some (lat, lon) =>
      let type := classified_type tags in
      let idx := S (default O (st.1 !! type)) in
      (<[type := idx]> st.1,
       st.2 ++ [Facility (el_id el) (human_name station_prefix type idx) type
                         lat lon (tags !! "name") tags])
  end.

(** osm_facilities.py, lines 117-169. *)
Definition _classify_and_name (features : list element) (station_prefix : string)
  : list facility :=
  (fold_left (_classify_and_name_step station_prefix) features (∅, [])).2.
End Facilities.

(** The string holds no underscore. *)
Fixpoint no_underscore (s : string) : Prop :=
  match s with
  | EmptyString => True
  | String c s' => c <> "_"%char /\ no_underscore s'
  end.

(** ** The facilities cache (osm_facilities.py) *)

Section Cache.
Context {FM : PyFloat}.
(** [str.title] *)
Variable title : string -> string.

(** An entry of [STATIONS]. *)
Record station := Station {
  station_center : coord;
  station_radius_m : Z;
  station_prefix : string;
}.

(** osm_facilities.py, lines 12-24.  The centre coordinates are decimal
    literals with four fractional digits; each is written as the quotient
    that rounds to the same float ([19.0186] is [190186 / 10000.0]). *)
Definition STATIONS : gmap string station :=
  {[ "dadar" := Station (fdiv (lit 190186) (lit 10000), fdiv (lit 728446) (lit 10000))
                        700 "Dadar";
     "kurla" := Station (fdiv (lit 190657) (lit 10000), fdiv (lit 728796) (lit 10000))
                        800 "Kurla" ]}.

(** osm_facilities.py, lines 56-61. *)
Definition _OVERPASS_URLS : list string :=
  [ "https://overpass-api.de/api/interpreter";
    "https://overpass.kumi.systems/api/interpreter";
    "https://z.overpass-api.de/api/interpreter";
    "https://overpass.openstreetmap.ru/api/interpreter" ].

(** osm_facilities.py, lines 63-114: the same loop over the endpoints as
    in [_fetch_overpass_data]. *)
Definition _overpass_query {D : Type} (post : string -> query -> option D)
    (center_lat center_lng : pyfloat) (radius_m : Z) : list string * option D :=
  _fetch_overpass_data_from post _OVERPASS_URLS
    (FacilitiesQuery radius_m center_lat center_lng).

(** The name of the cache file of a station in [DATA_DIR],
    osm_facilities.py lines 172-173. *)
Definition _cache_path (station_key : string) : string :=
  station_key +:+ "_facilities.json".

(** The dict that is cached and returned. *)
Record payload := Payload {
  payload_station : string;
  payload_updated_at : string;
  payload_count : nat;
  payload_facilities : list facility;
}.

(** osm_facilities.py, lines 176-201.  [files] are the JSON files of
    [DATA_DIR] by name, each with the dict it holds; [now] is
    [datetime.utcnow().isoformat()].  The result is what the call returns or
    raises, and the files after it. *)
Definition get_or_refresh_facilities
    (post : string -> query -> option (list element)) (now : string)
    (station_key : string) (force_refresh : bool) (files : gmap string payload)
  : run payload * gmap string payload :=
  match STATIONS !! station_key with
  | None => (Raises (Python ValueError), files)
  | Some cfg =>
      let cache_file := _cache_path station_key in
      match (if force_refresh then None else files !! cache_file) with
      | Some cached => (Returns cached, files)
      | None =>
          match (_overpass_query post (station_center cfg).1 (station_center cfg).2
                                 (station_radius_m cfg)).2 with
          | None => (Raises AllEndpointsFailed, files)
          | Some elements =>
              let facilities := _classify_and_name title elements (station_prefix cfg) in
              let payload := Payload station_key (now +:+ "Z")
                                     (length facilities) facilities in
              (Returns payload, <[cache_file := payload]> files)
          end
      end
  end.
End Cache.

(** ** A sample download *)

(** The precinct of [Sample] as an Overpass answer: its three nodes, the
    footway from 1 over 3 to 2 (with a node 99 that the answer does not
    hold), and the residential road from 1 to 2. *)
Module Precinct.
Import Fixed.

Definition node (id lat lon : Z) : @element float :=
  @Element float (Some "node") (Some id) (Some (micro lat)) (Some (micro lon)) None None None.

Definition way_element (tags : gmap string string) (ids : list Z) : @element float :=
  @Element float (Some "way") (Some 1000) None None None (Some tags) (Some ids).

Definition footway : @element float :=
  way_element {[ "highway" := "footway" ]} [1; 99; 3; 2].

Definition road : @element float :=
  way_element {[ "highway" := "residential" ]} [1; 2].

Definition elements : list (@element float) :=
  [ node 1 19000000 72800000; node 2 19000000 72801000; node 3 19010000 72800500;
    footway; road ].

(** A node element without coordinates. *)
Definition broken_node : @element float :=
  @Element float (Some "node") (Some 7) None None None None None.

(** Endpoints that all answer with [elements]; that all answer with a
    broken node; that all fail. *)
Definition post (url : string) (q : @query float) : option (list (@element float)) :=
  Some elements.
Definition post_broken (url : string) (q : @query float)
  : option (list (@element float)) :=
  Some [broken_node].
Definition post_down (url : string) (q : @query float)
  : option (list (@element float)) :=
  None.

(** Query points next to node 1 and next to node 2. *)
Definition origin : num * num := (micro 19000010, micro 72800010).
Definition dest : num * num := (micro 19000010, micro 72801010).

(** The answer of the handler for these two points. *)
Definition answer : run (@response float) :=
  @navigation float post origin dest (Fin (2000 * one)).

(** A node table with a node at an infinite latitude. *)
Definition nodes_inf : list (Z * (num * num)) :=
  [ (1, (PInf, micro 72800000)); (2, (micro 19000000, micro 72801000)) ].

(** A drinking fountain on the equator, and two benches. *)
Definition fountain : @element float :=
  @Element float (Some "node") (Some 11) (Some (Fin 0)) (Some (micro 72800000)) None
          (Some {[ "amenity" := "drinking_water" ]}) None.
Definition bench (id : Z) : @element float :=
  @Element float (Some "node") (Some id) (Some (micro 19000000)) (Some (micro 72800000)) None
          (Some {[ "amenity" := "bench" ]}) None.

(** [str.title] on the strings of the examples, which need none. *)
Definition title (s : string) : string := s.

(** The coloured segments of the route 1, 3, 2. *)
Definition segments : list (@segment float) :=
  match @_segments_with_types float [1; 3; 2] Sample.nodes (Sample.types_of Sample.built)
  with Ok segs => segs | Raise _ => [] end.

(** The first call for the station "dadar", with no cache file yet. *)
Definition first_call : run (@payload float) * gmap string (@payload float) :=
  @get_or_refresh_facilities float title post "2026-11-03T10:00:00" "dadar" false ∅.

Definition served : @payload float :=
  match first_call.1 with
  | Returns p => p
  | _ => Payload "" "" 0 []
  end.

(** The catalog of the download, and the feature of its footway. *)
Definition catalog : gmap string (list (@catalog_feature float)) :=
  match @_fetch_pedestrian_catalog_elements float elements with
  | Ok categories => categories
  | Raise _ => ∅
  end.

Definition footway_feature : @catalog_feature float :=
  @CatalogFeature float "footway" ""
    [ (micro 19000000, micro 72800000); (micro 19010000, micro 72800500);
      (micro 19000000, micro 72801000) ].
End Precinct.
(** * Properties *)

(** ** The concrete structure satisfies the laws *)

Lemma Fixed_one_pos : 0 < Fixed.one.
Proof. reflexivity. Qed.

#[global] Instance Fixed_laws : FloatLaws Fixed.float.
Proof.
  split; cbn.
  - intros [| a |]; cbn; auto. apply Z.ltb_irrefl.
  - intros [| a |] [| b |] [| c |]; cbn; try congruence. rewrite !Z.ltb_lt. lia.
  - intros [| a |] [| b |]; cbn; try congruence. rewrite !Z.ltb_ge. intros. f_equal. lia.
  - reflexivity.
  - intros [| a |] [| b |]; cbn; split; try congruence.
    + rewrite Z.eqb_eq. congruence.
    + intros [= ->]. apply Z.eqb_refl.
  - unfold Fixed.leb. intros [| a |] [| b |] [| w |]; cbn; try congruence.
    rewrite !negb_true_iff, !Z.ltb_ge. lia.
  - unfold Fixed.leb. intros [| d |] [| w |]; cbn; try congruence.
    rewrite !negb_true_iff, !Z.ltb_ge. lia.
  - reflexivity.
  - intros [| a |]; cbn; try reflexivity.
    f_equal. change (1 * Fixed.one) with Fixed.one.
    apply Z.div_mul. pose proof Fixed_one_pos. lia.
Qed.


(** ** Way classifier *)

(** In the map-display classifier a footway crossing is set apart only
    when its crossing subtype is a marked or controlled one; without such a
    subtype it is a plain foot path. *)
Lemma catalog_crossing_by_subtype (tags : gmap string string) :
  tag tags "highway" = "footway" -> tag tags "footway" = "crossing" ->
  _fetch_pedestrian_catalog_category tags =
    if marked_crossing (tag tags "crossing") then Some "marked_crossing"
    else Some "foot_path".
Proof.
  intros Hh Hf. unfold _fetch_pedestrian_catalog_category.
  rewrite Hh, Hf. cbn. reflexivity.
Qed.

(** C7, as the code has it: the navigation classifier excludes every
    [highway=footway] way whose [footway] subtype is [crossing], whatever its
    [crossing] tag says; a sidewalk is a sidewalk, and only the footways with
    any other subtype are foot paths. *)
Theorem footway_crossing_always_excluded (tags : gmap string string) :
  tag tags "highway" = "footway" ->
  (tag tags "footway" = "crossing" -> _fetch_pedestrian_ways_category tags = None)
  /\ (tag tags "footway" = "sidewalk" ->
      _fetch_pedestrian_ways_category tags = Some "sidewalk")
  /\ (tag tags "footway" <> "sidewalk" -> tag tags "footway" <> "crossing" ->
      _fetch_pedestrian_ways_category tags = Some "foot_path").
Proof.
  intros Hh. unfold _fetch_pedestrian_ways_category. rewrite Hh. cbn.
  repeat split.
  - intros ->. reflexivity.
  - intros ->. reflexivity.
  - intros Hs Hc.
    destruct (String.eqb_spec (tag tags "footway") "sidewalk"); [done|].
    destruct (String.eqb_spec (tag tags "footway") "crossing"); done.
Qed.

Lemma footway_crossing_always_excluded_witness :
  _fetch_pedestrian_ways_category unmarked_crossing_tags = None.
Proof.
  apply (footway_crossing_always_excluded unmarked_crossing_tags); reflexivity.
Defined.

(** C7, as the claim has it, fails: a footway crossing without a marked or
    controlled crossing subtype is excluded from navigation, it is not
    classified as a foot path. *)
Lemma unmarked_crossing_not_routable :
  tag unmarked_crossing_tags "highway" = "footway"
  /\ tag unmarked_crossing_tags "footway" = "crossing"
  /\ marked_crossing (tag unmarked_crossing_tags "crossing") = false
  /\ _fetch_pedestrian_ways_category unmarked_crossing_tags = None
  /\ _fetch_pedestrian_catalog_category unmarked_crossing_tags = Some "foot_path".
Proof. repeat split; vm_compute; reflexivity. Qed.

(** ** Geometry *)

Section GeometryFacts.
Context {FM : PyFloat} {FL : FloatLaws FM}.

End GeometryFacts.


(** ** Loops that may raise *)

Section ForEach.
Context {A S : Type}.
Implicit Types (body : S -> A -> result S) (xs : list A) (st : S).

Lemma for_each_app body xs ys st :
  for_each body (xs ++ ys) st = (st' ← for_each body xs st; for_each body ys st').
Proof.
  revert st. induction xs as [|x xs IH]; intros st; cbn; [done|].
  destruct (body st x) as [st1|e]; cbn; [apply IH|done].
Qed.

Lemma for_each_cons_Ok body x xs st st' :
  for_each body (x :: xs) st = Ok st' <->
  exists st1, body st x = Ok st1 /\ for_each body xs st1 = Ok st'.
Proof.
  cbn. destruct (body st x) as [st1|e]; cbn.
  - split; [eauto|]. by intros (? & [= <-] & H).
  - split; [discriminate|]. intros (? & [=] & _).
Qed.

Lemma for_each_snoc_Ok body xs x st st' :
  for_each body (xs ++ [x]) st = Ok st' <->
  exists st1, for_each body xs st = Ok st1 /\ body st1 x = Ok st'.
Proof.
  rewrite for_each_app. destruct (for_each body xs st) as [st1|e]; cbn.
  - destruct (body st1 x) as [st2|e] eqn:Hb; cbn.
    + split; [intros [= <-]; eauto|]. intros (? & [= <-] & H). congruence.
    + split; [discriminate|]. intros (? & [= <-] & H). congruence.
  - split; [discriminate|]. intros (? & [=] & _).
Qed.

(** An invariant of the body is an invariant of the loop. *)
Lemma for_each_invariant (P : S -> Prop) body xs st st' :
  (forall s x s', x ∈ xs -> P s -> body s x = Ok s' -> P s') ->
  P st -> for_each body xs st = Ok st' -> P st'.
Proof.
  revert st. induction xs as [|x xs IH]; intros st Hbody HP; cbn.
  - intros [= <-]. exact HP.
  - destruct (body st x) as [st1|e] eqn:Hb; cbn; [|discriminate].
    apply IH.
    + intros s y s' Hy. apply Hbody. by apply list_elem_of_further.
    + eapply Hbody; [apply list_elem_of_here|exact HP|exact Hb].
Qed.

(** A loop that finished ran its body on every element. *)
Lemma for_each_Ok_body body xs st st' :
  for_each body xs st = Ok st' ->
  forall x, x ∈ xs -> exists s s', body s x = Ok s'.
Proof.
  revert st. induction xs as [|x xs IH]; intros st; cbn.
  - intros _ y Hy. by apply elem_of_nil in Hy.
  - destruct (body st x) as [st1|e] eqn:Hb; cbn; [|discriminate].
    intros Hrest y [->|Hy]%elem_of_cons; [eauto|]. eapply IH; eauto.
Qed.
(** A loop that raises does so in its body. *)
Lemma for_each_Raise body xs st e :
  for_each body xs st = Raise e -> exists x s, x ∈ xs /\ body s x = Raise e.
Proof.
  revert st. induction xs as [|x xs IH]; intros st; cbn; [discriminate|].
  destruct (body st x) as [st1|e'] eqn:Hb; cbn.
  - intros (y & s & Hy & Hr)%IH. exists y, s. split; [|done].
    by apply list_elem_of_further.
  - intros [= ->]. exists x, st. split; [apply list_elem_of_here|done].
Qed.

(** A loop whose body never raises does not raise. *)
Lemma for_each_is_Ok body xs st :
  (forall x s, x ∈ xs -> is_Ok (body s x)) -> is_Ok (for_each body xs st).
Proof.
  revert st. induction xs as [|x xs IH]; intros st Hbody; cbn; [by eexists|].
  destruct (Hbody x st (list_elem_of_here _ _)) as [st1 ->]; cbn.
  apply IH. intros y s Hy. apply Hbody. by apply list_elem_of_further.
Qed.
End ForEach.

Lemma for_each_map {A B S : Type} (f : A -> B) (body : S -> B -> result S) xs st :
  for_each body (map f xs) st = for_each (fun s x => body s (f x)) xs st.
Proof.
  revert st. induction xs as [|x xs IH]; intros st; cbn; [done|].
  destruct (body st (f x)); cbn; [apply IH|done].
Qed.

Lemma for_each_flat_map {A B S : Type} (f : A -> list B) (body : S -> B -> result S)
    xs st :
  for_each body (flat_map f xs) st = for_each (fun s x => for_each body (f x) s) xs st.
Proof.
  revert st. induction xs as [|x xs IH]; intros st; cbn; [done|].
  rewrite for_each_app. destruct (for_each body (f x) st); cbn; [apply IH|done].
Qed.

(** ** Node pairs and categories *)

Lemma consecutive_cons_cons (u v : Z) (l : list Z) :
  consecutive (u :: v :: l) = (u, v) :: consecutive (v :: l).
Proof. reflexivity. Qed.

Lemma consecutive_elem_of (l : list Z) (u v : Z) :
  (u, v) ∈ consecutive l -> u ∈ l /\ v ∈ l.
Proof.
  induction l as [|a [|b l] IH]; cbn.
  - intros H. by apply elem_of_nil in H.
  - intros H. by apply elem_of_nil in H.
  - intros [[= -> ->]|H]%elem_of_cons.
    + split; [apply list_elem_of_here|].
      apply list_elem_of_further, list_elem_of_here.
    + destruct (IH H). split; by apply list_elem_of_further.
Qed.

Lemma frozenset_comm (u v : Z) : frozenset u v = frozenset v u.
Proof. unfold frozenset. f_equal; lia. Qed.

Lemma type_rank_cases (c : string) :
  (c = "steps" /\ type_rank c = 5) \/ (c = "sidewalk" /\ type_rank c = 4)
  \/ (c = "pedestrian_street" /\ type_rank c = 3) \/ (c = "foot_path" /\ type_rank c = 2)
  \/ (c = "informal_path" /\ type_rank c = 1) \/ (c = "path" /\ type_rank c = 0)
  \/ type_rank c = -1.
Proof.
  unfold type_rank.
  repeat (match goal with
          | |- context [String.eqb c ?s] => destruct (String.eqb_spec c s) as [->|]
          end; [cbn; tauto|]).
  tauto.
Qed.

(** The rank tells the ranked categories apart. *)
Lemma type_rank_inj (a b : string) :
  ranked a -> type_rank a = type_rank b -> a = b.
Proof.
  unfold ranked. intros Ha Hab.
  destruct (type_rank_cases a) as [[-> ?]|[[-> ?]|[[-> ?]|[[-> ?]|[[-> ?]|[[-> ?]|?]]]]]];
  destruct (type_rank_cases b) as [[-> ?]|[[-> ?]|[[-> ?]|[[-> ?]|[[-> ?]|[[-> ?]|?]]]]]];
  try reflexivity; lia.
Qed.

Lemma for_each_ext {A S : Type} (body1 body2 : S -> A -> result S) xs st :
  (forall s x, body1 s x = body2 s x) -> for_each body1 xs st = for_each body2 xs st.
Proof.
  intros Hext. revert st. induction xs as [|x xs IH]; intros st; cbn; [done|].
  rewrite Hext. destruct (body2 st x); cbn; [apply IH|done].
Qed.

(** ** Graph builders *)

Section Builders.
Context {FM : PyFloat}.
Implicit Types (nodes : node_table) (g : graph) (et : edge_types).

Lemma in_nodes_true nodes u : in_nodes nodes u = true <-> is_Some (nodes_get nodes u).
Proof.
  unfold in_nodes. destruct (nodes_get nodes u); split; try done; eauto.
Qed.

Lemma adj_empty u : adj (∅ : graph) u = [].
Proof. unfold adj. by rewrite lookup_empty. Qed.

Lemma adj_graph_append g u e x :
  adj (graph_append g u e) x = if decide (x = u) then adj g u ++ [e] else adj g x.
Proof.
  unfold graph_append. unfold adj at 1.
  destruct (decide (x = u)) as [->|Hne].
  - by rewrite lookup_insert_eq.
  - by rewrite lookup_insert_ne.
Qed.

Lemma elem_of_adj_add_edge g u v w x w' y :
  (x, w') ∈ adj (add_edge g u v w) y <->
  (x, w') ∈ adj g y \/ (y = u /\ x = v /\ w' = w) \/ (y = v /\ x = u /\ w' = w).
Proof.
  unfold add_edge. rewrite !adj_graph_append.
  destruct (decide (y = v)) as [->|Hyv]; destruct (decide (v = u)) as [->|Hvu];
    try destruct (decide (y = u)) as [->|Hyu];
    rewrite ?elem_of_app, ?list_elem_of_singleton; naive_solver.
Qed.

Lemma build_graph_edge_Ok nodes cat st u v st' :
  _build_graph_edge nodes cat st (u, v) = Ok st' <->
  exists cu cv w,
    nodes_get nodes u = Some cu /\ nodes_get nodes v = Some cv
    /\ distance cu cv = Ok w
    /\ st' = (add_edge st.1 u v w, set_edge_type st.2 (frozenset u v) cat).
Proof.
  unfold _build_graph_edge, nodes_item, distance.
  destruct (nodes_get nodes u) as [[lat1 lon1]|]; cbn;
    [|split; [discriminate|intros (?&?&?&[=]&_)]].
  destruct (nodes_get nodes v) as [[lat2 lon2]|]; cbn;
    [|split; [discriminate|intros (?&?&?&_&[=]&_)]].
  destruct (_haversine_m lat1 lon1 lat2 lon2) as [w|e] eqn:Hw; cbn.
  - split.
    + intros [= <-]. by exists (lat1, lon1), (lat2, lon2), w.
    + intros (cu & cv & w' & [= <-] & [= <-] & Hd & ->). cbn in Hd.
      rewrite Hw in Hd. by injection Hd as ->.
  - split; [discriminate|].
    intros (cu & cv & w' & [= <-] & [= <-] & Hd & _). cbn in Hd. congruence.
Qed.

Lemma build_graph_flat nodes ways :
  _build_graph nodes ways = for_each (build_step nodes) (all_edges ways) (∅, ∅).
Proof.
  unfold _build_graph, all_edges. rewrite for_each_flat_map.
  apply for_each_ext. intros st w.
  unfold _build_graph_way, way_edges. by rewrite for_each_map.
Qed.

Lemma elem_of_all_edges ways uv c :
  (uv, c) ∈ all_edges ways <->
  exists wy, wy ∈ ways /\ uv ∈ consecutive (way_nodes wy) /\ c = category_of wy.
Proof.
  unfold all_edges, way_edges. rewrite list_elem_of_In, in_flat_map. split.
  - intros (wy & Hwy & Hin). apply in_map_iff in Hin as ([u v] & [= <- <-] & Hin).
    exists wy. by rewrite !list_elem_of_In.
  - intros (wy & Hwy & Hin & ->). exists wy. rewrite <- list_elem_of_In. split; [done|].
    apply in_map_iff. exists uv. by rewrite <- list_elem_of_In.
Qed.

(** The adjacency lists after the pairs [xs] hold what the pairs put
    there, and nothing else. *)
Lemma build_steps_adj nodes xs g et :
  for_each (build_step nodes) xs (∅, ∅) = Ok (g, et) ->
  forall u v w, (v, w) ∈ adj g u <-> edge_from nodes xs u v w.
Proof.
  revert g et. induction xs as [|[[a b] c] xs IH] using rev_ind; intros g et.
  - cbn. intros [= <- <-] u v w. rewrite adj_empty. split.
    + by intros ?%elem_of_nil.
    + intros (c & cu & cv & _ & _ & [[H _]|[H _]]); by apply elem_of_nil in H.
  - intros ([g0 et0] & Hxs & Hstep)%for_each_snoc_Ok.
    apply build_graph_edge_Ok in Hstep as (ca & cb & wab & Ha & Hb & Hd & [= -> ->]).
    intros u v w. cbn. rewrite elem_of_adj_add_edge, (IH g0 et0 Hxs).
    unfold edge_from. setoid_rewrite elem_of_app. setoid_rewrite list_elem_of_singleton.
    split.
    + intros [(c' & cu & cv & Hu & Hv & H)|[(-> & -> & ->)|(-> & -> & ->)]].
      * exists c', cu, cv. naive_solver.
      * exists c, ca, cb. naive_solver.
      * exists c, cb, ca. naive_solver.
    + intros (c' & cu & cv & Hu & Hv & [[[H|[= -> -> ->]] Hw]|[[H|[= -> -> ->]] Hw]]).
      * left. exists c', cu, cv. naive_solver.
      * right. left. repeat split; congruence.
      * left. exists c', cu, cv. naive_solver.
      * right. right. repeat split; congruence.
Qed.

Lemma edge_from_sym nodes xs u v w : edge_from nodes xs u v w -> edge_from nodes xs v u w.
Proof. intros (c & cu & cv & Hu & Hv & H). exists c, cv, cu. tauto. Qed.

(** C1: in a graph that [_build_graph] returns, every adjacency entry
    [(v, w)] of [u] joins two nodes of the table, its weight [w] is the
    haversine distance between their two coordinates (computed with the pair
    in the direction in which a way lists it), and the entry is mirrored:
    [(v, w)] is in the list of [u] exactly when [(u, w)] is in the list of
    [v]. *)
Theorem build_graph_weights_symmetric nodes ways g et :
  _build_graph nodes ways = Ok (g, et) ->
  forall u v w,
    ((v, w) ∈ adj g u <-> (u, w) ∈ adj g v)
    /\ ((v, w) ∈ adj g u ->
        exists cu cv,
          nodes_get nodes u = Some cu /\ nodes_get nodes v = Some cv
          /\ (distance cu cv = Ok w \/ distance cv cu = Ok w)).
Proof.
  rewrite build_graph_flat. intros Hb u v w.
  rewrite !(build_steps_adj _ _ _ _ Hb). split.
  - split; apply edge_from_sym.
  - intros (c & cu & cv & Hu & Hv & H). exists cu, cv. tauto.
Qed.
Lemma haversine_raises_ValueError (lat1 lon1 lat2 lon2 : pyfloat) e :
  _haversine_m lat1 lon1 lat2 lon2 = Raise e -> e = ValueError.
Proof.
  unfold _haversine_m, math_call.
  repeat (match goal with
          | |- context [match ?o with Some _ => _ | None => _ end] =>
              destruct o; cbn; [|congruence]
          end).
  discriminate.
Qed.

Lemma all_nodes_present nodes ways :
  (forall wy u, wy ∈ ways -> u ∈ way_nodes wy -> in_nodes nodes u = true) ->
  forall uv c, (uv, c) ∈ all_edges ways -> present nodes uv.
Proof.
  intros Hall [u v] c (wy & Hwy & Huv & _)%elem_of_all_edges.
  apply consecutive_elem_of in Huv as [Hu Hv]. split; cbn; eauto.
Qed.

Lemma build_step_Raise nodes st uv c e :
  present nodes uv -> build_step nodes st (uv, c) = Raise e -> e = ValueError.
Proof.
  destruct uv as [u v]. intros [Hu Hv]. cbn in Hu, Hv.
  apply in_nodes_true in Hu as [[lat1 lon1] Hu], Hv as [[lat2 lon2] Hv].
  unfold build_step, _build_graph_edge, nodes_item. cbn. rewrite Hu, Hv. cbn.
  destruct (_haversine_m lat1 lon1 lat2 lon2) eqn:Hh; cbn; [discriminate|].
  intros [= <-]. by apply haversine_raises_ValueError in Hh.
Qed.

Lemma build_step_is_Ok nodes st u v c cu cv :
  nodes_get nodes u = Some cu -> nodes_get nodes v = Some cv ->
  is_Ok (distance cu cv) -> is_Ok (build_step nodes st ((u, v), c)).
Proof.
  intros Hu Hv [w Hw]. eexists. apply build_graph_edge_Ok. eauto 10.
Qed.

(** The pedestrian fetch hands on ways of at least two nodes, all of them
    in the node table. *)
Lemma fetched_way_nodes_present nodes tags node_ids wy :
  _fetch_pedestrian_ways_way nodes tags node_ids = Some wy ->
  (2 <= length (way_nodes wy))%nat
  /\ forall u, u ∈ way_nodes wy -> in_nodes nodes u = true.
Proof.
  unfold _fetch_pedestrian_ways_way.
  destruct (Nat.ltb_spec (length (List.filter (in_nodes nodes) node_ids)) 2);
    [discriminate|].
  destruct (_fetch_pedestrian_ways_category tags); [|discriminate].
  intros [= <-]. cbn. split; [done|].
  intros u Hu%list_elem_of_In. by apply filter_In in Hu as [_ Hu].
Qed.

(** What [_build_graph] does on the ways the pedestrian fetch hands on,
    whose nodes are all in the node table: it raises no [KeyError] -- only
    a distance computation can fail --, it returns a graph when the
    distances of the listed pairs are defined, and the edges of the graph
    it returns are exactly the consecutive pairs of the ways, in both
    directions. *)
Theorem build_graph_on_present_nodes nodes ways :
  (forall wy u, wy ∈ ways -> u ∈ way_nodes wy -> in_nodes nodes u = true) ->
  (forall e, _build_graph nodes ways = Raise e -> e = ValueError)
  /\ ((forall wy u v cu cv,
         wy ∈ ways -> (u, v) ∈ consecutive (way_nodes wy) ->
         nodes_get nodes u = Some cu -> nodes_get nodes v = Some cv ->
         is_Ok (distance cu cv)) ->
      is_Ok (_build_graph nodes ways))
  /\ (forall g et, _build_graph nodes ways = Ok (g, et) ->
      forall u v,
        edge g u v <->
        exists wy, wy ∈ ways /\ ((u, v) ∈ consecutive (way_nodes wy)
                                 \/ (v, u) ∈ consecutive (way_nodes wy))).
Proof.
  intros Hall. pose proof (all_nodes_present _ _ Hall) as Hpres.
  rewrite build_graph_flat. repeat split.
  - intros e ([uv c] & st & Hin & Hr)%for_each_Raise.
    eapply build_step_Raise; eauto.
  - intros Hdist. apply for_each_is_Ok. intros [[u v] c] st Hin.
    destruct (Hpres _ _ Hin) as [Hu Hv]. cbn in Hu, Hv.
    apply in_nodes_true in Hu as [cu Hu], Hv as [cv Hv].
    apply elem_of_all_edges in Hin as (wy & Hwy & Huv & _).
    eapply build_step_is_Ok; eauto.
  - intros [w Hw]. apply (build_steps_adj _ _ _ _ H) in Hw
      as (c & cu & cv & _ & _ & [[Hin _]|[Hin _]]);
      apply elem_of_all_edges in Hin as (wy & Hwy & Huv & _); eauto.
  - intros (wy & Hwy & Huv).
    assert (exists c, ((u, v), c) ∈ all_edges ways \/ ((v, u), c) ∈ all_edges ways)
      as [c Hin].
    { exists (category_of wy). destruct Huv as [Huv|Huv]; [left|right];
        apply elem_of_all_edges; eauto. }
    assert (forall a b, ((a, b), c) ∈ all_edges ways ->
              exists ca cb w, nodes_get nodes a = Some ca /\ nodes_get nodes b = Some cb
                /\ distance ca cb = Ok w) as Hdef.
    { intros a b Hab.
      destruct (for_each_Ok_body _ _ _ _ H _ Hab) as (s & s' & Hs).
      unfold build_step in Hs. cbn in Hs.
      apply build_graph_edge_Ok in Hs as (ca & cb & w & ? & ? & ? & _). eauto 10. }
    destruct Hin as [Hin|Hin]; destruct (Hdef _ _ Hin) as (ca & cb & w & Ha & Hb & Hw);
      exists w; apply (build_steps_adj _ _ _ _ H); exists c.
    + exists ca, cb. eauto.
    + exists cb, ca. eauto 6.
Qed.
Lemma lookup_set_edge_type et k c k' :
  set_edge_type et k c !! k' =
    if decide (k = k') then
      match et !! k with
      | Some p => if (type_rank p <? type_rank c)%Z then Some c else Some p
      | None => Some c
      end
    else et !! k'.
Proof.
  unfold set_edge_type.
  destruct (decide (k = k')) as [<-|Hne].
  - destruct (et !! k) as [p|] eqn:Hk.
    + destruct (type_rank p <? type_rank c)%Z; [by rewrite lookup_insert_eq|done].
    + by rewrite lookup_insert_eq.
  - destruct (et !! k) as [p|].
    + destruct (type_rank p <? type_rank c)%Z; [by rewrite lookup_insert_ne|done].
    + by rewrite lookup_insert_ne.
Qed.

(** The category map of [_build_graph] obeys the rank rule. *)
Lemma build_steps_rank_rule nodes xs g et :
  for_each (build_step nodes) xs (∅, ∅) = Ok (g, et) -> highest_rank_wins xs et.
Proof.
  revert g et. induction xs as [|[[a b] c] xs IH] using rev_ind; intros g et.
  - cbn. intros [= <- <-] k. rewrite lookup_empty. intros u v c' H.
    by apply elem_of_nil in H.
  - intros ([g0 et0] & Hxs & Hstep)%for_each_snoc_Ok.
    apply build_graph_edge_Ok in Hstep as (ca & cb & wab & _ & _ & _ & [= -> ->]).
    specialize (IH g0 et0 Hxs). intros k. specialize (IH k). cbn.
    rewrite lookup_set_edge_type.
    destruct (decide (frozenset a b = k)) as [<-|Hne].
    + destruct (et0 !! frozenset a b) as [p|] eqn:Hp.
      * destruct IH as [(u & v & Hin & Hk) Hmax].
        destruct (Z.ltb_spec (type_rank p) (type_rank c));
          setoid_rewrite elem_of_app; setoid_rewrite list_elem_of_singleton.
        -- split; [exists a, b; auto|].
           intros u' v' c' [Hin'|[= -> -> ->]] Hk'; [|lia].
           specialize (Hmax _ _ _ Hin' Hk'). lia.
        -- split; [exists u, v; auto|].
           intros u' v' c' [Hin'|[= -> -> ->]] Hk'; [eauto|lia].
      * setoid_rewrite elem_of_app. setoid_rewrite list_elem_of_singleton.
        split; [exists a, b; auto|].
        intros u' v' c' [Hin'|[= -> -> ->]] Hk'; [|lia].
        by destruct (IH _ _ _ Hin').
    + destruct (et0 !! k) as [p|] eqn:Hp;
        setoid_rewrite elem_of_app; setoid_rewrite list_elem_of_singleton.
      * destruct IH as [(u & v & Hin & Hk) Hmax]. split; [exists u, v; auto|].
        intros u' v' c' [Hin'|[= -> -> ->]] Hk'; [eauto|done].
      * intros u' v' c' [Hin'|[= -> -> ->]]; [eauto|done].
Qed.

(** Two category maps that obey the rank rule for the same pairs, in
    whatever order, are equal when the categories are ranked ones. *)
Lemma highest_rank_wins_unique xs ys et1 et2 :
  xs ≡ₚ ys -> (forall uv c, (uv, c) ∈ xs -> ranked c) ->
  highest_rank_wins xs et1 -> highest_rank_wins ys et2 -> et1 = et2.
Proof.
  intros Hperm Hranked H1 H2. apply map_eq. intros k.
  specialize (H1 k). specialize (H2 k).
  destruct (et1 !! k) as [c1|], (et2 !! k) as [c2|]; [|exfalso..|done].
  - destruct H1 as [(u1 & v1 & Hin1 & Hk1) Hmax1].
    destruct H2 as [(u2 & v2 & Hin2 & Hk2) Hmax2].
    f_equal. apply type_rank_inj; [eauto|].
    rewrite Hperm in Hin1. rewrite <- Hperm in Hin2.
    specialize (Hmax1 _ _ _ Hin2 Hk2). specialize (Hmax2 _ _ _ Hin1 Hk1). lia.
  - destruct H1 as [(u1 & v1 & Hin1 & Hk1) _]. rewrite Hperm in Hin1.
    by apply (H2 _ _ _ Hin1).
  - destruct H2 as [(u2 & v2 & Hin2 & Hk2) _]. rewrite <- Hperm in Hin2.
    by apply (H1 _ _ _ Hin2).
Qed.

(** C4: the category map of [_build_graph] does not depend on the order
    of the ways.  For ways with categories of the rank table, the call on a
    permutation of the list returns a graph too, with the same category map:
    every node pair is mapped to the highest-ranked category among the ways
    that list it. *)
Theorem edge_types_order_independent nodes ways1 ways2 g1 et1 :
  ways1 ≡ₚ ways2 ->
  (forall wy, wy ∈ ways1 -> ranked (category_of wy)) ->
  _build_graph nodes ways1 = Ok (g1, et1) ->
  highest_rank_wins (all_edges ways1) et1
  /\ exists g2, _build_graph nodes ways2 = Ok (g2, et1).
Proof.
  rewrite !build_graph_flat. intros Hperm Hranked H1.
  assert (all_edges ways1 ≡ₚ all_edges ways2) as Hedges.
  { unfold all_edges. by apply Permutation_flat_map. }
  pose proof (build_steps_rank_rule _ _ _ _ H1) as Hrule1.
  split; [done|].
  assert (is_Ok (for_each (build_step nodes) (all_edges ways2) (∅, ∅)))
    as [[g2 et2] H2].
  { apply for_each_is_Ok. intros [[u v] c] st Hin. rewrite <- Hedges in Hin.
    destruct (for_each_Ok_body _ _ _ _ H1 _ Hin) as (s & s' & Hs).
    unfold build_step in Hs. cbn in Hs.
    apply build_graph_edge_Ok in Hs as (cu & cv & w & Hu & Hv & Hw & _).
    eapply build_step_is_Ok; eauto. by exists w. }
  exists g2. rewrite H2. do 2 f_equal. symmetry.
  eapply highest_rank_wins_unique; [exact Hedges| |exact Hrule1|].
  - intros uv c (wy & Hwy & _ & ->)%elem_of_all_edges. auto.
  - eapply build_steps_rank_rule; eauto.
Qed.
Lemma build_hybrid_graph_flat nodes pedestrian_ways highway_ways pw hw :
  _build_hybrid_graph nodes pedestrian_ways highway_ways pw hw =
    (st ← for_each (hybrid_pedestrian_step nodes pw) (all_edges pedestrian_ways) (∅, ∅);
     for_each (hybrid_highway_step nodes hw) (all_edges highway_ways) st).
Proof.
  unfold _build_hybrid_graph, all_edges. rewrite !for_each_flat_map.
  rewrite (for_each_ext _
    (fun s x => for_each (hybrid_pedestrian_step nodes pw) (way_edges x) s)).
  2: { intros st w. unfold way_edges. by rewrite for_each_map. }
  destruct (for_each _ pedestrian_ways (∅, ∅)) as [st|e]; cbn; [|done].
  rewrite ?for_each_flat_map. apply for_each_ext. intros st' w. unfold way_edges. by rewrite for_each_map.
Qed.

(** The highway loop only adds adjacency entries. *)
Lemma hybrid_highway_steps_keep nodes hw xs st st' :
  for_each (hybrid_highway_step nodes hw) xs st = Ok st' ->
  forall u x, x ∈ adj st.1 u -> x ∈ adj st'.1 u.
Proof.
  apply (for_each_invariant (fun s => forall u x, x ∈ adj st.1 u -> x ∈ adj s.1 u));
    [|done].
  intros s [[a b] c] s' _ Hs. unfold hybrid_highway_step, _hybrid_highway_edge. cbn.
  destruct (negb (in_nodes nodes a) || negb (in_nodes nodes b)); [by intros [= <-]|].
  destruct (nodes_item nodes a) as [[lat1 lon1]|]; cbn; [|discriminate].
  destruct (nodes_item nodes b) as [[lat2 lon2]|]; cbn; [|discriminate].
  destruct (_haversine_m lat1 lon1 lat2 lon2) as [h|]; cbn; [|discriminate].
  intros [= <-] u [x w] Hx. cbn. apply elem_of_adj_add_edge. auto.
Qed.

Section WithLaws.
Context {FL : FloatLaws FM}.

(** With the pedestrian weight 1.0 the pedestrian loop of the hybrid
    builder puts the same entries into the graph as [_build_graph]. *)
Lemma hybrid_pedestrian_steps_graph nodes xs st st' et :
  for_each (build_step nodes) xs st = Ok st' ->
  exists et',
    for_each (hybrid_pedestrian_step nodes (lit 1)) xs (st.1, et) = Ok (st'.1, et').
Proof.
  revert st et. induction xs as [|[[a b] c] xs IH]; intros st et.
  - cbn. intros [= <-]. eauto.
  - intros (st1 & Hstep & Hrest)%for_each_cons_Ok.
    apply build_graph_edge_Ok in Hstep
      as ([lat1 lon1] & [lat2 lon2] & w & Ha & Hb & Hw & ->).
    destruct (IH _ (<[frozenset a b := c]> et) Hrest) as [et' IH'].
    exists et'. apply for_each_cons_Ok. eexists. split; [|exact IH'].
    unfold hybrid_pedestrian_step, _hybrid_pedestrian_edge, nodes_item, in_nodes.
    cbn. rewrite Ha, Hb. cbn. unfold distance in Hw. cbn in Hw. rewrite Hw. cbn.
    by rewrite fmul_one.
Qed.

(** The graph half of C5: on ways that [_build_graph] accepts, the
    hybrid builder with no highway ways and the pedestrian weight 1.0
    returns the same graph. *)
Lemma hybrid_graph_eq_build_graph nodes ways hw g et :
  _build_graph nodes ways = Ok (g, et) ->
  exists et', _build_hybrid_graph nodes ways [] (lit 1) hw = Ok (g, et').
Proof.
  rewrite build_graph_flat, build_hybrid_graph_flat. intros Hb.
  destruct (hybrid_pedestrian_steps_graph _ _ _ _ ∅ Hb) as [et' Hp].
  cbn in Hp. rewrite Hp. cbn. eauto.
Qed.

(** Every adjacency entry of the pedestrian graph is an entry of the
    hybrid graph built from the same pedestrian ways with weight 1.0. *)
Lemma hybrid_graph_contains_pedestrian nodes ways highway_ways hw g et gh eth :
  _build_graph nodes ways = Ok (g, et) ->
  _build_hybrid_graph nodes ways highway_ways (lit 1) hw = Ok (gh, eth) ->
  forall u x, x ∈ adj g u -> x ∈ adj gh u.
Proof.
  rewrite build_graph_flat, build_hybrid_graph_flat. intros Hb.
  destruct (hybrid_pedestrian_steps_graph _ _ _ _ ∅ Hb) as [et' Hp].
  cbn in Hp. rewrite Hp. cbn.
  intros Hh. apply (hybrid_highway_steps_keep _ _ _ _ _ Hh).
Qed.
End WithLaws.
End Builders.

(** C5, where the code departs from it: two pedestrian ways over the same
    node pair, steps first and a generic path second.  Both builders return
    the same graph, but [_build_graph] keeps the higher-ranked "steps" for the
    pair while [_build_hybrid_graph] overwrites it with the category of the
    way it met last. *)
Theorem hybrid_builder_ignores_rank_rule :
  match @_build_graph Fixed.float Sample.nodes [Sample.steps_1_2; Sample.path_1_2],
        @_build_hybrid_graph Fixed.float Sample.nodes
          [Sample.steps_1_2; Sample.path_1_2] [] (lit 1) (lit 3)
  with
  | Ok (g, et), Ok (gh, eth) =>
      g = gh /\ et !! frozenset 1 2 = Some "steps" /\ eth !! frozenset 1 2 = Some "path"
  | _, _ => False
  end.
Proof. vm_compute. repeat split; reflexivity. Qed.

(** C9, as the claim has it, fails: a way that lists a node absent from
    the table makes [_build_graph] raise a [KeyError]; the pair is not
    skipped.  The hybrid builder, on the same input, does skip it. *)
Theorem build_graph_raises_on_absent_node :
  @_build_graph Fixed.float Sample.nodes [Sample.way_1_99] = Raise KeyError
  /\ @_build_hybrid_graph Fixed.float Sample.nodes [Sample.way_1_99] [] (lit 1) (lit 3)
     = Ok (∅, ∅).
Proof. split; vm_compute; reflexivity. Qed.


(** ** The order of the floats *)

Section Order.
Context {FM : PyFloat} {FL : FloatLaws FM}.
Implicit Types x y z : pyfloat.

Lemma fleb_true x y : fleb x y = true <-> fltb y x = false.
Proof. rewrite fleb_fltb. apply negb_true_iff. Qed.

Lemma fleb_false x y : fleb x y = false <-> fltb y x = true.
Proof. rewrite fleb_fltb. apply negb_false_iff. Qed.

Lemma fltb_asym x y : fltb x y = true -> fltb y x = false.
Proof.
  intros Hxy. destruct (fltb y x) eqn:Hyx; [|done].
  by rewrite <- (fltb_irrefl x), (fltb_trans x y x).
Qed.

Lemma fleb_refl x : fleb x x = true.
Proof. apply fleb_true, fltb_irrefl. Qed.

Lemma fltb_fleb x y : fltb x y = true -> fleb x y = true.
Proof. intros H. by apply fleb_true, fltb_asym. Qed.

Lemma fleb_cases x y : fleb x y = true -> fltb x y = true \/ x = y.
Proof.
  intros H%fleb_true. destruct (fltb x y) eqn:Hxy; [by left|right].
  by apply fltb_total.
Qed.

Lemma fleb_fltb_trans x y z : fleb x y = true -> fltb y z = true -> fltb x z = true.
Proof. intros [H| ->]%fleb_cases; eauto using fltb_trans. Qed.

Lemma fltb_fleb_trans x y z : fltb x y = true -> fleb y z = true -> fltb x z = true.
Proof. intros Hxy [H| <-]%fleb_cases; eauto using fltb_trans. Qed.

Lemma fleb_trans x y z : fleb x y = true -> fleb y z = true -> fleb x z = true.
Proof.
  intros [Hxy| ->]%fleb_cases Hyz; [|done].
  eauto using fltb_fleb, fltb_fleb_trans.
Qed.

Lemma fleb_total x y : fleb x y = true \/ fltb y x = true.
Proof. rewrite fleb_fltb. destruct (fltb y x); auto. Qed.

Lemma fleb_antisym x y : fleb x y = true -> fleb y x = true -> x = y.
Proof. intros H1%fleb_true H2%fleb_true. by apply fltb_total. Qed.

Lemma feqb_refl x : feqb x x = true.
Proof. by apply feqb_eq. Qed.

Lemma feqb_false x y : feqb x y = false <-> x <> y.
Proof.
  destruct (feqb x y) eqn:H.
  - apply feqb_eq in H. split; [discriminate|done].
  - split; [|done]. intros _ Heq%feqb_eq. congruence.
Qed.
End Order.

(** ** Nearest node *)

Section Nearest.
Context {FM : PyFloat} {FL : FloatLaws FM}.
Implicit Types (nodes : node_table) (g : graph).

Lemma nearest_node_step_Ok plat plng g max_distance_m st nid c st' :
  _nearest_node_step plat plng g max_distance_m st (nid, c) = Ok st' <->
  (g !! nid = None /\ st' = st)
  \/ (is_Some (g !! nid) /\ exists d,
        distance (plat, plng) c = Ok d
        /\ st' = if fltb d st.2 && fleb d max_distance_m then (Some nid, d) else st).
Proof.
  unfold _nearest_node_step, distance. destruct c as [lat lng]. cbn.
  destruct (g !! nid) as [l|].
  - destruct (_haversine_m plat plng lat lng) as [d|e]; cbn.
    + split.
      * intros H. right. split; [eauto|]. exists d. split; [done|].
        destruct (fltb d st.2 && fleb d max_distance_m); congruence.
      * intros [[[=] _]|(_ & d' & [= <-] & ->)].
        by destruct (fltb d st.2 && fleb d max_distance_m).
    + split; [discriminate|]. intros [[[=] _]|(_ & d' & [=] & _)].
  - split.
    + intros [= <-]. by left.
    + intros [[_ ->]|([? [=]] & _)]. done.
Qed.

Lemma nearest_scan_invariant point g max_distance_m nodes st :
  for_each (_nearest_node_step point.1 point.2 g max_distance_m) nodes (None, inf)
    = Ok st ->
  nearest_invariant point g max_distance_m nodes st.
Proof.
  revert st. induction nodes as [|[nid c] nodes IH] using rev_ind; intros st.
  - cbn. intros [= <-]. split; [done|]. intros n' c' d' H. by apply elem_of_nil in H.
  - intros (st0 & Hscan & Hstep)%for_each_snoc_Ok.
    destruct (IH _ Hscan) as [Hbest Hmin]. clear IH Hscan.
    unfold nearest_invariant.
    setoid_rewrite elem_of_app. setoid_rewrite list_elem_of_singleton.
    apply nearest_node_step_Ok in Hstep as [[Hg ->]|(Hg & d & Hd & ->)].
    + split.
      * destruct st0.1; [|done].
        destruct Hbest as [(c0 & ? & ? & ?) ?]. split; [|done]. exists c0. rewrite elem_of_app. auto.
      * intros n' c' d' [Hin|[= -> ->]] Hg'; [eauto|].
        rewrite Hg in Hg'. by destruct Hg'.
    + rewrite <- surjective_pairing in Hd.
      destruct (fltb d st0.2) eqn:Hlt; cbn [andb].
      * destruct (fleb d max_distance_m) eqn:Hle; cbn [fst snd].
        -- split.
           ++ split; [|done]. exists c. rewrite elem_of_app, list_elem_of_singleton. auto.
           ++ intros n' c' d' [Hin|[= -> ->]] Hg' Hd' Hle'.
              ** eapply fleb_trans; [by apply fltb_fleb|]. eauto.
              ** rewrite Hd in Hd'. injection Hd' as <-. apply fleb_refl.
        -- split.
           ++ destruct st0.1; [|done].
              destruct Hbest as [(c0 & ? & ? & ?) ?]. split; [|done]. exists c0. rewrite elem_of_app. auto.
           ++ intros n' c' d' [Hin|[= -> ->]] Hg' Hd' Hle'; [eauto|].
              rewrite Hd in Hd'. injection Hd' as <-. congruence.
      * split.
        -- destruct st0.1; [|done].
           destruct Hbest as [(c0 & ? & ? & ?) ?]. split; [|done]. exists c0. rewrite elem_of_app. auto.
        -- intros n' c' d' [Hin|[= -> ->]] Hg' Hd' Hle'; [eauto|].
           rewrite Hd in Hd'. injection Hd' as <-. by apply fleb_true.
Qed.

(** The scan computes the distance of every node that is a key of the
    graph. *)
Lemma nearest_scan_distances point g max_distance_m nodes st0 st n c :
  for_each (_nearest_node_step point.1 point.2 g max_distance_m) nodes st0 = Ok st ->
  (n, c) ∈ nodes -> is_Some (g !! n) -> is_Ok (distance point c).
Proof.
  intros Hscan Hin Hg.
  destruct (for_each_Ok_body _ _ _ _ Hscan _ Hin) as (s & s' & Hs).
  apply nearest_node_step_Ok in Hs as [[Hn _]|(_ & d & Hd & _)].
  - rewrite Hn in Hg. by destruct Hg.
  - rewrite <- surjective_pairing in Hd. by exists d.
Qed.

(** C8: a node that [_nearest_node] returns is a node of the table that
    is a key of the graph, its distance to the point is at most
    [max_distance_m], and no node of the table that is a key of the graph
    is closer; the function returns none when no such node lies within
    [max_distance_m], and only then, unless the ones within it are not
    below [inf]. *)
Theorem nearest_node_spec point nodes g max_distance_m r :
  _nearest_node point nodes g max_distance_m = Ok r ->
  (forall n, r = Some n ->
     exists c d,
       (n, c) ∈ nodes /\ is_Some (g !! n)
       /\ distance point c = Ok d /\ fleb d max_distance_m = true
       /\ forall n' c', (n', c') ∈ nodes -> is_Some (g !! n') ->
            exists d', distance point c' = Ok d' /\ fleb d d' = true)
  /\ ((forall n' c' d', (n', c') ∈ nodes -> is_Some (g !! n') ->
         distance point c' = Ok d' -> fleb d' max_distance_m = false) ->
      r = None)
  /\ (r = None ->
      forall n' c' d', (n', c') ∈ nodes -> is_Some (g !! n') ->
        distance point c' = Ok d' ->
        fleb d' max_distance_m = false \/ fltb d' inf = false).
Proof.
  unfold _nearest_node. destruct point as [plat plng].
  destruct (for_each _ nodes (None, inf)) as [[best_id best_d]|e] eqn:Hscan; cbn;
    [|discriminate].
  intros [= <-].
  pose proof (nearest_scan_invariant (plat, plng) _ _ _ _ Hscan) as [Hbest Hmin].
  cbn in Hbest, Hmin.
  assert (forall n, best_id = Some n ->
     exists c d,
       (n, c) ∈ nodes /\ is_Some (g !! n)
       /\ distance (plat, plng) c = Ok d /\ fleb d max_distance_m = true
       /\ forall n' c', (n', c') ∈ nodes -> is_Some (g !! n') ->
            exists d', distance (plat, plng) c' = Ok d' /\ fleb d d' = true) as Hsome.
  { intros n ->. destruct Hbest as [(c & Hin & Hg & Hd) Hle].
    exists c, best_d. repeat split; try done.
    intros n' c' Hin' Hg'.
    destruct (nearest_scan_distances (plat, plng) _ _ _ _ _ _ _ Hscan Hin' Hg')
      as [d' Hd'].
    exists d'. split; [done|].
    destruct (fleb d' max_distance_m) eqn:Hle'; [eauto|].
    apply fleb_false in Hle'. apply fltb_fleb. eauto using fleb_fltb_trans. }
  repeat split.
  - exact Hsome.
  - intros Hfar. destruct best_id as [n|]; [|done].
    destruct (Hsome n eq_refl) as (c & d & Hin & Hg & Hd & Hle & _).
    rewrite (Hfar _ _ _ Hin Hg Hd) in Hle. discriminate.
  - intros -> n' c' d' Hin' Hg' Hd'. subst best_d.
    destruct (fleb d' max_distance_m) eqn:Hle'; [right|by left].
    specialize (Hmin _ _ _ Hin' Hg' Hd' Hle'). by apply fleb_true.
Qed.
End Nearest.

(** ** Shortest-path search: the loop *)

Lemma fold_left_invariant {A B : Type} (P : A -> Prop) (f : A -> B -> A) l a :
  (forall a b, b ∈ l -> P a -> P (f a b)) -> P a -> P (fold_left f l a).
Proof.
  revert a. induction l as [|b l IH]; intros a Hf Ha; cbn; [done|].
  apply IH.
  - intros a' b' Hb'. apply Hf. by apply list_elem_of_further.
  - apply Hf; [apply list_elem_of_here|done].
Qed.

(** The same with the part of the list that is done as an index. *)
Lemma fold_left_invariant_prefix {A B : Type} (P : list B -> A -> Prop)
    (f : A -> B -> A) l a :
  (forall done b rest a, l = done ++ b :: rest -> P done a -> P (done ++ [b]) (f a b)) ->
  P [] a -> P l (fold_left f l a).
Proof.
  intros Hf Ha.
  enough (forall rest done a, l = done ++ rest -> P done a ->
            P l (fold_left f rest a)) as H by (by apply (H l [] a)).
  induction rest as [|b rest IH]; intros done a' Hl Hdone; cbn.
  - by rewrite Hl, app_nil_r.
  - apply (IH (done ++ [b])).
    + by rewrite <- app_assoc.
    + by apply (Hf done b rest).
Qed.

Lemma consecutive_snoc (l : list Z) (x a b : Z) :
  (a, b) ∈ consecutive (l ++ [x]) <->
  (a, b) ∈ consecutive l \/ (last l = Some a /\ b = x).
Proof.
  induction l as [|y [|z l] IH].
  - cbn. rewrite elem_of_nil. naive_solver.
  - cbn. rewrite list_elem_of_singleton, elem_of_nil. naive_solver.
  - change ((y :: z :: l) ++ [x]) with (y :: (z :: l) ++ [x]).
    cbn [app]. rewrite !consecutive_cons_cons, !elem_of_cons.
    change (z :: l ++ [x]) with ((z :: l) ++ [x]). rewrite IH.
    rewrite last_cons_cons. tauto.
Qed.

Section SearchLoop.
Context {FM : PyFloat}.
Implicit Types (g : graph) (st : state) (h : heap_t).

Lemma heap_extract_perm x h m r : heap_extract x h = (m, r) -> m :: r ≡ₚ x :: h.
Proof.
  revert x m r. induction h as [|y h IH]; intros x m r; cbn.
  - by intros [= <- <-].
  - destruct (heap_extract y h) as [m' r'] eqn:Hy. specialize (IH _ _ _ Hy).
    destruct (tuple_ltb m' x); intros [= <- <-]; [|done].
    by rewrite Permutation_swap, IH.
Qed.

Lemma heappop_Some h e h' : heappop h = Some (e, h') -> e :: h' ≡ₚ h.
Proof.
  destruct h as [|x h]; cbn; [discriminate|].
  intros [= H]. by apply heap_extract_perm.
Qed.

Lemma heappop_None h : heappop h = None <-> h = [].
Proof. destruct h; cbn; split; congruence. Qed.

Lemma visited_relax u d st e : visited (relax u d st e) = visited st.
Proof. unfold relax. destruct e as [v w]. by destruct (fltb _ _). Qed.

Lemma visited_relax_all u d l st : visited (fold_left (relax u d) l st) = visited st.
Proof.
  revert st. induction l as [|e l IH]; intros st; cbn; [done|].
  by rewrite IH, visited_relax.
Qed.

Lemma heap_relax_all_length u d l st :
  (length (heap (fold_left (relax u d) l st)) <= length (heap st) + length l)%nat.
Proof.
  revert st. induction l as [|[v w] l IH]; intros st; cbn; [lia|].
  etrans; [apply IH|]. unfold relax. destruct (fltb _ _); cbn; lia.
Qed.

(** An invariant of the three ways through the loop body is an invariant
    of the loop; [Q] is what holds where the loop is left. *)
Lemma search_loop_invariant (P Q : state -> Prop) g goal :
  (forall st, P st -> heap st = [] -> Q st) ->
  (forall st d u h', P st -> heappop (heap st) = Some ((d, u), h') ->
     u ∈ visited st -> P (popped st h')) ->
  (forall st d h', P st -> heappop (heap st) = Some ((d, goal), h') ->
     goal ∉ visited st -> Q (visit st h' goal)) ->
  (forall st d u h', P st -> heappop (heap st) = Some ((d, u), h') ->
     u ∉ visited st -> u <> goal ->
     P (fold_left (relax u d) (adj g u) (visit st h' u))) ->
  forall fuel st st', P st -> search_loop fuel g goal st = Some st' -> Q st'.
Proof.
  intros Hempty Hskip Hgoal Hrelax.
  induction fuel as [|fuel IH]; intros st st' HP; cbn; [discriminate|].
  destruct (heappop (heap st)) as [[[d u] h']|] eqn:Hpop.
  - case_bool_decide as Hvis.
    + apply IH. eapply Hskip; eauto.
    + destruct (Z.eqb_spec u goal) as [->|Hne].
      * intros [= <-]. eapply Hgoal; eauto.
      * apply IH. eapply Hrelax; eauto.
  - intros [= <-]. apply Hempty; [done|]. by apply heappop_None.
Qed.

Lemma graph_entries_delete (rem : graph) u :
  (graph_entries (delete u rem) + length (adj rem u))%nat = graph_entries rem.
Proof.
  unfold graph_entries, adj. destruct (rem !! u) as [l|] eqn:Hu; cbn.
  - rewrite <- (map_to_list_delete rem u l Hu). cbn. lia.
  - rewrite delete_id by done. lia.
Qed.

(** The loop ends within [length heap + entries of the nodes not yet
    visited] iterations. *)
Lemma search_loop_terminates g goal fuel st (rem : graph) :
  (forall u, u ∉ visited st -> adj rem u = adj g u) ->
  (length (heap st) + graph_entries rem < fuel)%nat ->
  is_Some (search_loop fuel g goal st).
Proof.
  revert st rem. induction fuel as [|fuel IH]; intros st rem Hrem Hfuel; [lia|].
  cbn. destruct (heappop (heap st)) as [[[d u] h']|] eqn:Hpop; [|eauto].
  apply heappop_Some, Permutation_length in Hpop. cbn in Hpop.
  case_bool_decide as Hvis.
  - apply (IH _ rem); cbn; [done|lia].
  - destruct (u =? goal)%Z; [eauto|].
    apply (IH _ (delete u rem)).
    + rewrite visited_relax_all. cbn. intros x Hx.
      rewrite <- Hrem by set_solver. unfold adj.
      rewrite lookup_delete_ne; [done|set_solver].
    + pose proof (heap_relax_all_length u d (adj g u) (visit st h' u)) as Hlen.
      pose proof (graph_entries_delete rem u) as Hdel.
      rewrite (Hrem u Hvis) in Hdel. cbn in Hlen. lia.
Qed.

(** The search loop of [_shortest_path] always ends. *)
Lemma search_terminates g start goal : is_Some (search g start goal).
Proof. apply (search_loop_terminates g goal _ _ g); [done|cbn; lia]. Qed.

Lemma relax_prev_edges g u d st e :
  e ∈ adj g u -> prev_edges g st -> prev_edges g (relax u d st e).
Proof.
  destruct e as [v w]. intros He Hst. unfold relax.
  destruct (fltb _ _); [|done].
  intros x y. cbn. destruct (decide (x = v)) as [->|Hne].
  - rewrite lookup_insert_eq. intros [= <-]. by exists w.
  - rewrite lookup_insert_ne by done. apply Hst.
Qed.

Lemma search_prev_edges g start goal st :
  search g start goal = Some st -> prev_edges g st.
Proof.
  unfold search.
  apply (search_loop_invariant (prev_edges g) (prev_edges g) g goal); try done.
  - intros st0 d u h' H _ _ _. apply fold_left_invariant; [|done].
    intros a b Hb. by apply relax_prev_edges.
  - intros v u. unfold initial. cbn.
    destruct (decide (v = start)) as [->|Hne].
    + by rewrite lookup_singleton_eq.
    + by rewrite lookup_singleton_ne.
Qed.

(** Whatever the weights are, the search gives a [prev] entry only to
    nodes that can be reached from the start. *)
Lemma search_touches_reachable g start goal st :
  search g start goal = Some st ->
  forall v, is_Some (prev st !! v) -> reachable g start v.
Proof.
  unfold search.
  apply (search_loop_invariant
           (fun st => (forall d x, (d, x) ∈ heap st -> reachable g start x)
                      /\ forall v, is_Some (prev st !! v) -> reachable g start v)
           (fun st => forall v, is_Some (prev st !! v) -> reachable g start v) g goal).
  - by intros st0 [_ H] _.
  - intros st0 d u h' [Hh Hp] Hpop%heappop_Some _. split; [|done]. cbn.
    intros d' x Hx. apply (Hh d'). rewrite <- Hpop. by apply list_elem_of_further.
  - by intros st0 d h' [_ H] _ _.
  - intros st0 d u h' [Hh Hp] Hpop%heappop_Some _ _.
    assert (reachable g start u) as Hu.
    { apply (Hh d). rewrite <- Hpop. apply list_elem_of_here. }
    apply fold_left_invariant.
    + intros st1 [v w] Hvw [Hh1 Hp1]. unfold relax.
      destruct (fltb _ _); [|done].
      assert (reachable g start v) as Hv.
      { eapply rtc_r; [exact Hu|]. by exists w. }
      split; cbn.
      * intros d' x [[= -> ->]|Hx]%elem_of_cons; [done|eauto].
      * intros x. destruct (decide (x = v)) as [->|Hne]; [done|].
        rewrite lookup_insert_ne by done. apply Hp1.
    + split; cbn; [|done].
      intros d' x Hx. apply (Hh d'). rewrite <- Hpop. by apply list_elem_of_further.
  - split; cbn.
    + intros d x [= -> ->]%list_elem_of_singleton. apply rtc_refl.
    + intros v. destruct (decide (v = start)) as [->|Hne]; [intros; apply rtc_refl|].
      rewrite lookup_singleton_ne by done. by intros [? ?].
Qed.
End SearchLoop.

(** ** Shortest-path search: the reconstruction *)

Section Reconstruct.
Implicit Types (prev : gmap Z (option Z)) (l path : list Z).

Lemma reconstruct_chain fuel prev cur path p :
  reconstruct fuel prev cur path = Some p -> exists l, chain prev cur l /\ p = path ++ l.
Proof.
  revert cur path. induction fuel as [|fuel IH]; intros cur path; cbn; [discriminate|].
  destruct (prev !! cur) as [[q|]|] eqn:Hcur.
  - intros (l & Hl & ->)%IH. exists (q :: l). split; [by apply chain_step|].
    by rewrite <- app_assoc.
  - intros [= <-]. exists []. split; [apply chain_end; congruence|by rewrite app_nil_r].
  - intros [= <-]. exists []. split; [apply chain_end; congruence|by rewrite app_nil_r].
Qed.

Lemma chain_reconstruct prev cur l path fuel :
  chain prev cur l -> (length l < fuel)%nat ->
  reconstruct fuel prev cur path = Some (path ++ l).
Proof.
  intros Hc. revert fuel path.
  induction Hc as [cur Hend|cur q l Hcur Hc IH]; intros [|fuel] path Hlen;
    cbn in *; try lia.
  - destruct (prev !! cur) as [[q|]|] eqn:Hcur; [by destruct (Hend q)|..];
      by rewrite app_nil_r.
  - rewrite Hcur, IH by lia. by rewrite <- app_assoc.
Qed.

Lemma chain_det prev cur l1 l2 : chain prev cur l1 -> chain prev cur l2 -> l1 = l2.
Proof.
  intros H1. revert l2. induction H1 as [cur Hend|cur q l Hcur Hc IH]; intros l2 H2.
  - inversion H2; subst; [done|]. exfalso. eapply Hend; eauto.
  - inversion H2; subst.
    + exfalso. match goal with H : forall p, _ <> _ |- _ => eapply H; eauto end.
    + match goal with H : prev !! cur = Some (Some ?p) |- _ =>
        rewrite Hcur in H; injection H as <- end.
      f_equal. by apply IH.
Qed.

Lemma chain_suffix prev cur l1 x l2 : chain prev cur (l1 ++ x :: l2) -> chain prev x l2.
Proof.
  revert cur. induction l1 as [|a l1 IH]; intros cur Hc; inversion Hc; subst; eauto.
Qed.

(** Following [prev] to an end passes no node twice. *)
Lemma chain_NoDup prev cur l : chain prev cur l -> NoDup (cur :: l).
Proof.
  induction 1 as [cur Hend|cur q l Hcur Hc IH].
  - apply NoDup_singleton.
  - apply NoDup_cons. split; [|done].
    intros (l1 & l2 & Hsplit)%list_elem_of_split.
    assert (chain prev cur (q :: l)) as Hfull by (by apply chain_step).
    assert (chain prev cur l2) as Hsuf.
    { apply (chain_suffix prev q (match l1 with [] => [] | _ :: t => t end)).
      destruct l1 as [|a l1]; cbn in Hsplit; injection Hsplit as -> ->; [|done].
      done. }
    pose proof (chain_det _ _ _ _ Hfull Hsuf) as Heq.
    apply (f_equal length) in Hsplit, Heq. rewrite length_app in Hsplit. cbn in *. lia.
Qed.

Lemma chain_links prev cur l a b :
  chain prev cur l -> (a, b) ∈ consecutive (reverse (cur :: l)) ->
  prev !! b = Some (Some a).
Proof.
  induction 1 as [cur Hend|cur q l Hcur Hc IH].
  - rewrite reverse_singleton. cbn. by intros ?%elem_of_nil.
  - rewrite reverse_cons, consecutive_snoc. intros [Hin|[Hlast ->]]; [by apply IH|].
    rewrite last_reverse in Hlast. cbn in Hlast. congruence.
Qed.

Lemma chain_sources prev cur l :
  chain prev cur l ->
  exists srcs, length srcs = length l /\ NoDup srcs
    /\ forall x, x ∈ srcs -> x ∈ cur :: l /\ is_Some (prev !! x).
Proof.
  induction 1 as [cur Hend|cur q l Hcur Hc IH].
  - exists []. split_and!; [done|constructor|]. by intros x ?%elem_of_nil.
  - destruct IH as (srcs & Hlen & Hnd & Hsrcs).
    pose proof (chain_NoDup _ _ _ (chain_step _ _ _ _ Hcur Hc)) as Hnd'.
    apply NoDup_cons in Hnd' as [Hnotin _].
    exists (cur :: srcs). split_and!.
    + cbn. by rewrite Hlen.
    + apply NoDup_cons. split; [|done]. intros Hin. by destruct (Hsrcs _ Hin).
    + intros x [->|Hx]%elem_of_cons.
      * split; [apply list_elem_of_here|]. by rewrite Hcur.
      * destruct (Hsrcs _ Hx). split; [by apply list_elem_of_further|done].
Qed.

Lemma chain_length prev cur l : chain prev cur l -> (length l <= size prev)%nat.
Proof.
  intros (srcs & <- & Hnd & Hsrcs)%chain_sources.
  rewrite <- (size_dom (D := gset Z)), <- (size_list_to_set (C := gset Z) srcs) by done.
  apply subseteq_size. intros x Hx%elem_of_list_to_set.
  apply elem_of_dom. by destruct (Hsrcs _ Hx).
Qed.

(** The reconstruction loop of [_shortest_path] is given enough
    iterations: a loop that ends at all ends within [size prev + 1]. *)
Lemma reconstruct_fuel_enough fuel prev cur path p :
  reconstruct fuel prev cur path = Some p ->
  reconstruct (size prev + 1) prev cur path = Some p.
Proof.
  intros (l & Hc & ->)%reconstruct_chain.
  apply chain_reconstruct; [done|]. pose proof (chain_length _ _ _ Hc). lia.
Qed.
End Reconstruct.

Section Path.
Context {FM : PyFloat}.
Implicit Types (g : graph) (st : state).

(** A non-empty result is the reversed [prev] chain of the goal, and the
    chain ends in [start]. *)
Lemma shortest_path_Some g start goal p :
  _shortest_path g start goal = Some p -> p <> [] ->
  exists st l,
    search g start goal = Some st /\ chain (prev st) goal l
    /\ last (goal :: l) = Some start /\ p = reverse (goal :: l).
Proof.
  unfold _shortest_path. destruct (search g start goal) as [st|]; cbn; [|discriminate].
  destruct (bool_decide _ && negb _); [by intros [= <-]|].
  destruct (reconstruct _ _ _ _) as [path|] eqn:Hrec; cbn; [|discriminate].
  apply reconstruct_chain in Hrec as (l & Hc & ->).
  destruct (Z.eqb_spec (default goal (last ([goal] ++ l))) start) as [Hlast|];
    cbn; [|by intros [= <-]].
  intros [= <-] _. exists st, l. split_and!; try done.
  cbn [app] in Hlast.
  destruct (last (goal :: l)) as [x|] eqn:Hl; [cbn in Hlast; congruence|].
  by rewrite last_cons in Hl; destruct (last l).
Qed.

(** C3: a non-empty sequence that [_shortest_path] returns starts at
    [start], ends at [goal], repeats no node, and each consecutive pair of
    it is an edge of the graph: the second node is listed in the adjacency
    list of the first. *)
Theorem shortest_path_is_simple_path g start goal p :
  _shortest_path g start goal = Some p -> p <> [] ->
  head p = Some start /\ last p = Some goal /\ NoDup p
  /\ forall a b, (a, b) ∈ consecutive p -> edge g a b.
Proof.
  intros Hp Hne.
  destruct (shortest_path_Some _ _ _ _ Hp Hne) as (st & l & Hs & Hc & Hlast & ->).
  split_and!.
  - by rewrite head_reverse.
  - by rewrite last_reverse.
  - rewrite reverse_Permutation. by apply chain_NoDup in Hc.
  - intros a b Hab. apply (search_prev_edges _ _ _ _ Hs).
    by apply (chain_links _ _ _ _ _ Hc).
Qed.

(** The first half of C2, for every graph: the search from a node to
    itself returns that node alone. *)
Lemma shortest_path_start_is_goal g start : _shortest_path g start start = Some [start].
Proof.
  assert (search g start start = Some (visit (initial start) [] start)) as Hs.
  { unfold search.
    replace (graph_entries g + 2)%nat with (S (S (graph_entries g))) by lia.
    cbn [search_loop initial heap heappop heap_extract visited].
    rewrite bool_decide_eq_false_2 by set_solver. by rewrite Z.eqb_refl. }
  unfold _shortest_path. rewrite Hs. cbn [mbind option_bind visit prev initial].
  rewrite Z.eqb_refl, andb_false_r, map_size_singleton.
  cbn [reconstruct Nat.add]. rewrite lookup_singleton_eq.
  cbn. by rewrite Z.eqb_refl.
Qed.
End Path.

(** ** Shortest-path search: the invariant *)

Section Heap.
Context {FM : PyFloat} {FL : FloatLaws FM}.
Implicit Types (h : heap_t) (a b c : pyfloat * Z).

Lemma fltb_trichotomy (x y : pyfloat) : fltb x y = true \/ x = y \/ fltb y x = true.
Proof.
  destruct (fltb x y) eqn:Hxy; [by left|]. destruct (fltb y x) eqn:Hyx; [by auto|].
  right. left. by apply fltb_total.
Qed.

Lemma tuple_ltb_spec a b :
  tuple_ltb a b = true <-> fltb a.1 b.1 = true \/ (a.1 = b.1 /\ (a.2 < b.2)%Z).
Proof.
  unfold tuple_ltb. destruct (feqb a.1 b.1) eqn:Heq.
  - apply feqb_eq in Heq. rewrite Heq, fltb_irrefl, Z.ltb_lt. naive_solver.
  - apply feqb_false in Heq. naive_solver.
Qed.

Lemma tuple_ltb_irrefl a : tuple_ltb a a = false.
Proof.
  apply not_true_is_false. rewrite tuple_ltb_spec, fltb_irrefl. intros [?|[_ ?]]; [done|lia].
Qed.

Lemma tuple_ltb_asym a b : tuple_ltb a b = true -> tuple_ltb b a = false.
Proof.
  intros Hab. apply not_true_is_false. revert Hab. rewrite !tuple_ltb_spec.
  intros [H1|[H1 ?]] [H2|[H2 ?]].
  - apply fltb_asym in H1. congruence.
  - rewrite H2, fltb_irrefl in H1. done.
  - rewrite H1, fltb_irrefl in H2. done.
  - lia.
Qed.

(** Whatever is not below something that is not below [c] is not below
    [c]. *)
Lemma tuple_ltb_neg_trans a b c :
  tuple_ltb a b = false -> tuple_ltb b c = false -> tuple_ltb a c = false.
Proof.
  intros Hab Hbc. apply not_true_is_false. intros Hac.
  apply not_true_iff_false in Hab, Hbc. rewrite tuple_ltb_spec in Hab, Hbc, Hac.
  destruct (fltb_trichotomy b.1 a.1) as [Hlt|[Heq|Hlt]].
  - destruct Hac as [Hac|[Hac _]].
    + apply Hbc. left. eauto using fltb_trans.
    + apply Hbc. left. by rewrite <- Hac.
  - destruct Hac as [Hac|[Hac ?]].
    + apply Hbc. left. by rewrite Heq.
    + destruct (Z.lt_ge_cases a.2 b.2).
      * apply Hab. right. split; [done|lia].
      * apply Hbc. right. split; [congruence|lia].
  - apply Hab. by left.
Qed.

Lemma heap_extract_min x h m r :
  heap_extract x h = (m, r) -> forall y, y ∈ x :: h -> tuple_ltb y m = false.
Proof.
  revert x m r. induction h as [|y0 h IH]; intros x m r; cbn.
  - intros [= <- <-] y ->%list_elem_of_singleton. apply tuple_ltb_irrefl.
  - destruct (heap_extract y0 h) as [m' r'] eqn:Hy. specialize (IH _ _ _ Hy).
    destruct (tuple_ltb m' x) eqn:Hlt; intros [= <- <-] y [->|Hin]%elem_of_cons.
    + by apply tuple_ltb_asym.
    + by apply IH.
    + apply tuple_ltb_irrefl.
    + eapply tuple_ltb_neg_trans; [by apply IH|done].
Qed.

(** [heappop] returns a tuple with a least distance. *)
Lemma heappop_min h d u h' :
  heappop h = Some ((d, u), h') -> forall d' x, (d', x) ∈ h -> fleb d d' = true.
Proof.
  destruct h as [|x0 h]; cbn; [discriminate|]. intros [= Hex] d' x Hin.
  pose proof (heap_extract_min _ _ _ _ Hex _ Hin) as Hmin.
  apply fleb_true. apply not_true_is_false. intros Hlt.
  apply not_true_iff_false in Hmin. apply Hmin, tuple_ltb_spec. by left.
Qed.
End Heap.

Section Rooted.
Implicit Types (prev : gmap Z (option Z)) (vis : gset Z).

Lemma rooted_start_visited start prev vis v : rooted start prev vis v -> start ∈ vis.
Proof. induction 1; auto. Qed.

Lemma rooted_visited start prev vis v : rooted start prev vis v -> v ∈ vis.
Proof. by destruct 1. Qed.

Lemma rooted_mono start prev vis vis' v :
  vis ⊆ vis' -> rooted start prev vis v -> rooted start prev vis' v.
Proof.
  intros Hsub. induction 1 as [|v u Hv Hp Hu IH].
  - apply rooted_start; auto.
  - eapply rooted_step; eauto.
Qed.

(** An entry written for a node that is not visited leaves the visited
    nodes rooted. *)
Lemma rooted_insert start prev vis x y v :
  x ∉ vis -> rooted start prev vis v -> rooted start (<[x := y]> prev) vis v.
Proof.
  intros Hx. induction 1 as [Hs Hp|v u Hv Hp Hu IH].
  - apply rooted_start; [done|]. rewrite lookup_insert_ne; [done|set_solver].
  - eapply rooted_step; [done| |done]. rewrite lookup_insert_ne; [done|set_solver].
Qed.

Lemma rooted_chain start prev vis v :
  rooted start prev vis v -> exists l, chain prev v l /\ last (v :: l) = Some start.
Proof.
  induction 1 as [Hs Hp|v u Hv Hp Hu (l & Hl & Hlast)].
  - exists []. split; [|done]. apply chain_end. congruence.
  - exists (u :: l). split; [by apply chain_step|]. by rewrite last_cons_cons.
Qed.
End Rooted.

Section Walks.
Context {FM : PyFloat}.
Implicit Types (g : graph).

Lemma walk_reachable g s v c : walk g s v c -> reachable g s v.
Proof.
  induction 1 as [|u v w c Hu IH Hv]; [apply rtc_refl|].
  eapply rtc_r; [exact IH|]. by exists w.
Qed.

Lemma reachable_walk g s v : reachable g s v -> exists c, walk g s v c.
Proof.
  unfold reachable. revert v. apply rtc_ind_r.
  - exists (lit 0). constructor.
  - intros u v _ [w Hw] [c IH]. exists (fadd c w). by eapply walk_step.
Qed.

(** A walk of one graph is a walk of every graph that has its entries. *)
Lemma walk_mono g g' s v c :
  (forall u x, x ∈ adj g u -> x ∈ adj g' u) -> walk g s v c -> walk g' s v c.
Proof.
  intros Hsub. induction 1 as [|u v w c Hu IH Hv]; [constructor|].
  eapply walk_step; eauto.
Qed.
End Walks.

Section Dijkstra.
Context {FM : PyFloat} {FL : FloatLaws FM}.
Variables (g : graph) (start goal : Z).
Hypothesis weights : nonneg_weights g.
Implicit Types (st : state) (h : heap_t).

(** The cost of a walk is not negative, and a walk that does not sum to
    infinity has not done so on its way. *)
Lemma walk_nonneg s v c : walk g s v c -> fleb (lit 0) c = true.
Proof.
  induction 1 as [|u v w c Hwalk IH Hadj]; [apply fleb_refl|].
  eapply fleb_trans; [exact IH|]. apply fadd_nonneg; [done|]. by eapply weights.
Qed.

Lemma walk_step_finite s u v w c :
  walk g s u c -> (v, w) ∈ adj g u -> finite_cost (fadd c w) -> finite_cost c.
Proof.
  intros Hwalk Hadj Hf. eapply fleb_fltb_trans; [|exact Hf].
  apply fadd_nonneg; [by eapply walk_nonneg|by eapply weights].
Qed.

Lemma heappop_elem h e h' :
  heappop h = Some (e, h') -> forall x, x ∈ h <-> x = e \/ x ∈ h'.
Proof. intros Hp%heappop_Some x. rewrite <- Hp. apply elem_of_cons. Qed.

Lemma loop_inv_initial : loop_inv g start goal (initial start).
Proof.
  split; cbn.
  - intros v. destruct (decide (v = start)) as [->|Hne].
    + by rewrite !lookup_singleton_eq.
    + by rewrite !lookup_singleton_ne.
  - by rewrite !lookup_singleton_eq.
  - intros v u. destruct (decide (v = start)) as [->|Hne].
    + by rewrite lookup_singleton_eq.
    + by rewrite lookup_singleton_ne.
  - intros v. destruct (decide (v = start)) as [->|Hne]; [done|].
    by rewrite lookup_singleton_ne.
  - set_solver.
  - set_solver.
  - intros d x [= -> ->]%list_elem_of_singleton. exists (lit 0).
    rewrite lookup_singleton_eq. split; [done|apply fleb_refl].
  - intros x dx. destruct (decide (x = start)) as [->|Hne].
    + rewrite lookup_singleton_eq. intros [= <-] _. apply list_elem_of_here.
    + by rewrite lookup_singleton_ne.
  - set_solver.
  - set_solver.
  - intros v dv. destruct (decide (v = start)) as [->|Hne].
    + rewrite lookup_singleton_eq. intros [= <-]. constructor.
    + by rewrite lookup_singleton_ne.
  - intros v dv. destruct (decide (v = start)) as [->|Hne].
    + rewrite lookup_singleton_eq. intros [= <-]. apply zero_finite.
    + by rewrite lookup_singleton_ne.
  - set_solver.
Qed.

(** A node popped for the first time is popped with its tentative
    distance. *)
Lemma popped_dist st d u h' :
  loop_inv g start goal st -> heappop (heap st) = Some ((d, u), h') ->
  u ∉ visited st -> dist st !! u = Some d.
Proof.
  intros Hinv Hpop Hu.
  assert ((d, u) ∈ heap st) as Hin by (apply (heappop_elem _ _ _ Hpop); auto).
  destruct (inv_heap _ _ _ _ _ Hinv _ _ Hin) as (du & Hdu & Hle).
  pose proof (inv_frontier _ _ _ _ _ Hinv _ _ Hdu Hu) as Hfront.
  pose proof (heappop_min _ _ _ _ Hpop _ _ Hfront) as Hmin.
  by rewrite Hdu, (fleb_antisym _ _ Hle Hmin).
Qed.

Lemma loop_inv_skip st d u h' :
  loop_inv g start goal st -> heappop (heap st) = Some ((d, u), h') ->
  u ∈ visited st -> loop_inv g start goal (popped st h').
Proof.
  intros [Hdom Hstart Hprev Hpn Hroot Hvis Hheap Hfront Hset Hclosed Hwalk Hfin Hgoal]
    Hpop Hu.
  pose proof (heappop_elem _ _ _ Hpop) as Hel.
  split; cbn; try done.
  - intros d' x Hin. apply Hheap, Hel. auto.
  - intros x dx Hx Hnv. destruct (proj1 (Hel _) (Hfront _ _ Hx Hnv)) as [[= -> ->]|];
      [set_solver|done].
  - intros v dv d' x Hv Hdv Hin. eapply Hset; eauto. apply Hel. eauto.
Qed.

Lemma relax_inv_visit st d u h' :
  loop_inv g start goal st -> heappop (heap st) = Some ((d, u), h') ->
  u ∉ visited st -> u <> goal ->
  relax_inv g start goal u d [] (visit st h' u).
Proof.
  intros Hinv Hpop Hu Hne.
  pose proof (popped_dist _ _ _ _ Hinv Hpop Hu) as Hdu.
  destruct Hinv
    as [Hdom Hstart Hprev Hpn Hroot Hvis Hheap Hfront Hset Hclosed Hwalk Hfin Hgoal].
  pose proof (heappop_elem _ _ _ Hpop) as Hel.
  assert ((d, u) ∈ heap st) as Hin by (apply Hel; auto).
  split; [split|..]; cbn; try done.
  - intros v y Hv. destruct (Hprev _ _ Hv). split; [set_solver|done].
  - intros v [->%elem_of_singleton|Hv]%elem_of_union.
    + destruct (decide (u = start)) as [->|Hus].
      * apply rooted_start; [set_solver|apply Hstart].
      * assert (is_Some (prev st !! u)) as [[p|] Hp] by (apply Hdom; eauto).
        -- eapply rooted_step; [set_solver|done|].
           eapply rooted_mono; [|apply Hroot, (Hprev _ _ Hp)]. set_solver.
        -- by apply Hpn in Hp.
    + eapply rooted_mono; [|by apply Hroot]. set_solver.
  - intros v [->%elem_of_singleton|Hv]%elem_of_union; eauto.
  - intros d' x Hin'. apply Hheap, Hel. auto.
  - intros x dx Hx Hnv. destruct (proj1 (Hel _) (Hfront x dx Hx ltac:(set_solver)))
      as [[= -> ->]|]; [set_solver|done].
  - intros v dv d' x [->%elem_of_singleton|Hv]%elem_of_union Hdv Hin'.
    + rewrite Hdu in Hdv. injection Hdv as <-.
      eapply heappop_min; [exact Hpop|]. apply Hel. eauto.
    + eapply Hset; eauto. apply Hel. eauto.
  - intros u' du v w [->%elem_of_singleton|Hu']%elem_of_union
      [[Hneq Hadj]|[_ Hnil]] Hdu'; try done; try (by apply elem_of_nil in Hnil); eauto.
  - set_solver.
  - set_solver.
  - intros v dv [->%elem_of_singleton|Hv]%elem_of_union Hdv.
    + rewrite Hdu in Hdv. injection Hdv as <-. apply fleb_refl.
    + eapply Hset; eauto.
Qed.
Lemma relax_inv_step st u d done v w :
  relax_inv g start goal u d done st -> (v, w) ∈ adj g u ->
  relax_inv g start goal u d (done ++ [(v, w)]) (relax u d st (v, w)).
Proof.
  intros [[Hdom Hstart Hprev Hpn Hroot Hvis Hheap Hfront Hset Hclosed Hwalk Hfin Hgoal]
          Hu Hdu Hlow] Hadj.
  pose proof (weights _ _ _ Hadj) as Hw0.
  assert (fleb d (fadd d w) = true) as Hd_nd.
  { apply fadd_nonneg; [|done]. eapply walk_nonneg, Hwalk, Hdu. }
  unfold relax. destruct (fltb (fadd d w) (default inf (dist st !! v))) eqn:Hlt.
  2: { split; [split|..]; try done.
       intros u' du' v' w' Hu' [[Hneq Hin]|[-> Hin]] Hdu' Hf.
       - apply (Hclosed u'); auto.
       - apply elem_of_app in Hin as [Hin|[= -> ->]%list_elem_of_singleton].
         + apply (Hclosed u); auto.
         + rewrite Hdu in Hdu'. injection Hdu' as <-.
           destruct (dist st !! v) as [dv|] eqn:Hdv; cbn in Hlt;
             [|unfold finite_cost in Hf; congruence].
           exists dv. split; [done|]. by apply fleb_true. }
  assert (finite_cost (fadd d w)) as Hnd_fin.
  { destruct (dist st !! v) as [dv|] eqn:Hdv; cbn in Hlt; [|done].
    eapply fltb_trans; [exact Hlt|]. by eapply Hfin. }
  assert (v ∉ visited st) as Hv_unvis.
  { intros Hv. destruct (Hvis _ Hv) as [dv Hdv]. rewrite Hdv in Hlt. cbn in Hlt.
    pose proof (fleb_trans _ _ _ (Hlow _ _ Hv Hdv) Hd_nd) as Hle.
    apply fleb_true in Hle. congruence. }
  assert (start ∈ visited st) as Hstart_vis
    by (eapply rooted_start_visited, Hroot, Hu).
  assert (v <> start) as Hvs by (by intros ->).
  assert (v <> u) as Hvu by (by intros ->).
  assert (forall dv, dist st !! v = Some dv -> fltb (fadd d w) dv = true) as Hold.
  { intros dv Hdv. by rewrite Hdv in Hlt. }
  assert (forall v' dv c, dist st !! v' = Some dv -> fleb dv c = true ->
            exists dv', <[v := fadd d w]> (dist st) !! v' = Some dv'
                        /\ fleb dv' c = true) as Hkeep.
  { intros v' dv c Hdv Hle. destruct (decide (v' = v)) as [->|Hne].
    - exists (fadd d w). rewrite lookup_insert_eq. split; [done|].
      apply fltb_fleb. eapply fltb_fleb_trans; [by apply Hold|done].
    - exists dv. by rewrite lookup_insert_ne. }
  split; [split|..]; cbn.
  - intros x. destruct (decide (x = v)) as [->|Hne].
    + rewrite !lookup_insert_eq. split; eauto.
    + rewrite !lookup_insert_ne by done. apply Hdom.
  - by rewrite !lookup_insert_ne.
  - intros x y. destruct (decide (x = v)) as [->|Hne].
    + rewrite lookup_insert_eq. by intros [= <-].
    + rewrite lookup_insert_ne by done. apply Hprev.
  - intros x. destruct (decide (x = v)) as [->|Hne].
    + by rewrite lookup_insert_eq.
    + rewrite lookup_insert_ne by done. apply Hpn.
  - intros x Hx. apply rooted_insert; auto.
  - intros x Hx. destruct (decide (x = v)) as [->|Hne]; [done|].
    rewrite lookup_insert_ne by done. auto.
  - intros d' x [[= -> ->]|Hin]%elem_of_cons.
    + exists (fadd d w). rewrite lookup_insert_eq. split; [done|apply fleb_refl].
    + destruct (Hheap _ _ Hin) as (dx & Hdx & Hle). eauto.
  - intros x dx. destruct (decide (x = v)) as [->|Hne].
    + rewrite lookup_insert_eq. intros [= <-] _. apply list_elem_of_here.
    + rewrite lookup_insert_ne by done. intros. apply list_elem_of_further. eauto.
  - intros x dx d' y Hx. rewrite lookup_insert_ne by (by intros ->).
    intros Hdx [[= -> ->]|Hin]%elem_of_cons; [|eauto].
    eapply fleb_trans; [|exact Hd_nd]. eauto.
  - intros u' du' v' w' Hu'. rewrite (lookup_insert_ne _ v u') by (by intros ->).
    intros [[Hneq Hin]|[-> Hin]] Hdu' Hf.
    + destruct (Hclosed u' du' v' w' Hu' (or_introl (conj Hneq Hin)) Hdu' Hf)
        as (dv & Hdv & Hle). eauto.
    + apply elem_of_app in Hin as [Hin|[= -> ->]%list_elem_of_singleton].
      * destruct (Hclosed u du' v' w' Hu (or_intror (conj eq_refl Hin)) Hdu' Hf)
          as (dv & Hdv & Hle). eauto.
      * rewrite Hdu in Hdu'. injection Hdu' as <-. exists (fadd d w).
        rewrite lookup_insert_eq. split; [done|apply fleb_refl].
  - intros x dx. destruct (decide (x = v)) as [->|Hne].
    + rewrite lookup_insert_eq. intros [= <-]. eapply walk_step; eauto.
    + rewrite lookup_insert_ne by done. apply Hwalk.
  - intros x dx. destruct (decide (x = v)) as [->|Hne].
    + rewrite lookup_insert_eq. by intros [= <-].
    + rewrite lookup_insert_ne by done. apply Hfin.
  - done.
  - done.
  - by rewrite lookup_insert_ne.
  - intros x dx Hx. rewrite lookup_insert_ne by (by intros ->). eauto.
Qed.

Lemma loop_inv_relaxed st u d :
  relax_inv g start goal u d (adj g u) st -> loop_inv g start goal st.
Proof.
  intros [[Hdom Hstart Hprev Hpn Hroot Hvis Hheap Hfront Hset Hclosed Hwalk Hfin Hgoal]
          Hu Hdu Hlow].
  split; try done.
  intros u' du' v w Hu' Hadj. apply Hclosed; [done|].
  destruct (decide (u' = u)) as [->|Hne]; auto.
Qed.

Lemma loop_inv_relax st d u h' :
  loop_inv g start goal st -> heappop (heap st) = Some ((d, u), h') ->
  u ∉ visited st -> u <> goal ->
  loop_inv g start goal (fold_left (relax u d) (adj g u) (visit st h' u)).
Proof.
  intros Hinv Hpop Hu Hne. apply (loop_inv_relaxed _ u d).
  apply (fold_left_invariant_prefix (relax_inv g start goal u d)).
  - intros done [v w] rest s Hadj Hs. apply relax_inv_step; [done|].
    rewrite Hadj, elem_of_app, elem_of_cons. auto.
  - by eapply relax_inv_visit.
Qed.
(** Dijkstra's argument: at the head of the loop the tentative distance
    of a visited node is at most the cost of every walk to it, and the
    least distance on the heap is at most the cost of every walk to a
    node that is not visited. *)
Lemma lower_bound st d u h' :
  loop_inv g start goal st -> heappop (heap st) = Some ((d, u), h') ->
  forall v c, walk g start v c -> finite_cost c ->
    (v ∈ visited st -> exists dv, dist st !! v = Some dv /\ fleb dv c = true)
    /\ (v ∉ visited st -> fleb d c = true).
Proof.
  intros Hinv Hpop.
  assert ((d, u) ∈ heap st) as Hin by (apply (heappop_elem _ _ _ Hpop); auto).
  induction 1 as [|u' v w c' Hwalk IH Hadj]; intros Hfin.
  - split.
    + intros _. exists (lit 0). split; [apply Hinv|apply fleb_refl].
    + intros Hnv. eapply heappop_min; [exact Hpop|].
      eapply inv_frontier; [exact Hinv| |done]. apply Hinv.
  - pose proof (weights _ _ _ Hadj) as Hw0.
    pose proof (walk_nonneg _ _ _ Hwalk) as Hc0.
    destruct (IH (walk_step_finite _ _ _ _ _ Hwalk Hadj Hfin)) as [IHv IHn].
    assert ((exists dv, dist st !! v = Some dv /\ fleb dv (fadd c' w) = true)
            \/ fleb d (fadd c' w) = true) as Hcase.
    { destruct (decide (u' ∈ visited st)) as [Hu'|Hu'].
      - left. destruct (IHv Hu') as (du' & Hdu' & Hle).
        assert (fleb (fadd du' w) (fadd c' w) = true) as Hmono.
        { apply fadd_mono; [|done..].
          eapply walk_nonneg, (inv_walk _ _ _ _ _ Hinv), Hdu'. }
        destruct (inv_closed _ _ _ _ _ Hinv u' du' v w Hu' Hadj Hdu')
          as (dv & Hdv & Hle'); [by eapply fleb_fltb_trans|].
        exists dv. split; [done|]. by eapply fleb_trans.
      - right. eapply fleb_trans; [by apply IHn|]. by apply fadd_nonneg. }
    split.
    + intros Hv. destruct Hcase as [?|Hle]; [done|].
      destruct (inv_visited _ _ _ _ _ Hinv v Hv) as [dv Hdv].
      exists dv. split; [done|]. eapply fleb_trans; [|exact Hle].
      eapply inv_settled; eauto.
    + intros Hnv. destruct Hcase as [(dv & Hdv & Hle)|Hle]; [|done].
      eapply fleb_trans; [|exact Hle]. eapply heappop_min; [exact Hpop|].
      eapply inv_frontier; eauto.
Qed.

(** When the heap runs empty, every node a walk leads to is visited. *)
Lemma all_visited_when_empty st :
  loop_inv g start goal st -> heap st = [] ->
  forall v c, walk g start v c -> finite_cost c ->
    v ∈ visited st /\ exists dv, dist st !! v = Some dv /\ fleb dv c = true.
Proof.
  intros Hinv Hempty.
  assert (forall x dx, dist st !! x = Some dx -> x ∈ visited st) as Hall.
  { intros x dx Hdx. destruct (decide (x ∈ visited st)) as [|Hnv]; [done|].
    pose proof (inv_frontier _ _ _ _ _ Hinv _ _ Hdx Hnv) as Hin.
    rewrite Hempty in Hin. by apply elem_of_nil in Hin. }
  induction 1 as [|u' v w c' Hwalk IH Hadj]; intros Hfin.
  - destruct (inv_start _ _ _ _ _ Hinv) as [Hs _]. split; [eauto|].
    exists (lit 0). split; [done|apply fleb_refl].
  - destruct (IH (walk_step_finite _ _ _ _ _ Hwalk Hadj Hfin))
      as [Hu' (du' & Hdu' & Hle)].
    assert (fleb (fadd du' w) (fadd c' w) = true) as Hmono.
    { apply fadd_mono; [|by eapply weights|done].
      eapply walk_nonneg, (inv_walk _ _ _ _ _ Hinv), Hdu'. }
    destruct (inv_closed _ _ _ _ _ Hinv u' du' v w Hu' Hadj Hdu')
      as (dv & Hdv & Hle'); [by eapply fleb_fltb_trans|].
    split; [eauto|]. exists dv. split; [done|]. by eapply fleb_trans.
Qed.

Lemma search_post_empty st :
  loop_inv g start goal st -> heap st = [] -> search_post g start goal st.
Proof.
  intros Hinv Hempty. split.
  - intros c Hc Hfin.
    destruct (all_visited_when_empty _ Hinv Hempty _ _ Hc Hfin) as [Hv _].
    by destruct (inv_goal _ _ _ _ _ Hinv).
  - apply Hinv.
  - apply Hinv.
  - apply Hinv.
  - apply Hinv.
  - intros [dg Hdg]. pose proof (inv_frontier _ _ _ _ _ Hinv _ _ Hdg
                                   (inv_goal _ _ _ _ _ Hinv)) as Hin.
    rewrite Hempty in Hin. by apply elem_of_nil in Hin.
Qed.

Lemma search_post_goal st d h' :
  loop_inv g start goal st -> heappop (heap st) = Some ((d, goal), h') ->
  goal ∉ visited st -> search_post g start goal (visit st h' goal).
Proof.
  intros Hinv Hpop Hnv.
  pose proof (popped_dist _ _ _ _ Hinv Hpop Hnv) as Hdg.
  split; cbn.
  - intros c Hc Hfin. exists d. split; [done|].
    by apply (lower_bound _ _ _ _ Hinv Hpop _ _ Hc Hfin).
  - apply Hinv.
  - apply Hinv.
  - apply Hinv.
  - apply Hinv.
  - intros _. destruct (decide (goal = start)) as [Heq|Hne].
    + rewrite Heq. apply rooted_start; [set_solver|apply Hinv].
    + assert (is_Some (prev st !! goal)) as [[p|] Hp]
        by (apply (inv_dom _ _ _ _ _ Hinv); eauto).
      * destruct (inv_prev _ _ _ _ _ Hinv _ _ Hp) as [Hpv _].
        eapply rooted_step; [set_solver|done|].
        eapply rooted_mono; [|by apply (inv_rooted _ _ _ _ _ Hinv)]. set_solver.
      * by apply (inv_prev_none _ _ _ _ _ Hinv) in Hp.
Qed.

Lemma search_establishes_post st :
  search g start goal = Some st -> search_post g start goal st.
Proof.
  unfold search.
  apply (search_loop_invariant (loop_inv g start goal) (search_post g start goal) g goal).
  - apply search_post_empty.
  - apply loop_inv_skip.
  - apply search_post_goal.
  - apply loop_inv_relax.
  - apply loop_inv_initial.
Qed.
End Dijkstra.

(** ** Shortest-path search: results *)

Section SearchResults.
Context {FM : PyFloat} {FL : FloatLaws FM}.
Implicit Types (g : graph) (st : state).

Lemma nonneg_finite_nonneg g : nonneg_finite_weights g -> nonneg_weights g.
Proof. intros H u v w Hin. by destruct (H u v w Hin). Qed.

(** C2, as the code has it.  For every graph, the search from a node to
    itself returns that node alone, and the search for a goal that cannot be
    reached returns the empty sequence.  On every graph without negative
    weights, connected or not, the search between two distinct nodes
    returns, and what it returns is empty exactly when no walk from the
    start to the goal has a cost below infinity, the cost being summed from
    the start as the search sums it.  So a goal that can be reached is
    missed when every walk to it runs over an infinite weight or overflows;
    where no walk to the goal does, the result is empty exactly when the
    goal cannot be reached. *)
Theorem shortest_path_empty_iff_no_finite_walk g start goal :
  _shortest_path g start start = Some [start]
  /\ (start <> goal -> ~ reachable g start goal ->
      _shortest_path g start goal = Some [])
  /\ (nonneg_weights g -> start <> goal ->
      exists p, _shortest_path g start goal = Some p
        /\ (p = [] <-> forall c, walk g start goal c -> ~ finite_cost c)
        /\ ((forall c, walk g start goal c -> finite_cost c) ->
            (p = [] <-> ~ reachable g start goal))).
Proof.
  split_and!; [apply shortest_path_start_is_goal| |].
  - intros Hne Hun. destruct (search_terminates g start goal) as [st Hs].
    unfold _shortest_path. rewrite Hs. cbn [mbind option_bind].
    destruct (prev st !! goal) as [x|] eqn:Hprev.
    + destruct Hun. eapply search_touches_reachable; [exact Hs|]. rewrite Hprev. eauto.
    + rewrite bool_decide_eq_true_2 by done.
      by destruct (Z.eqb_spec goal start) as [->|_].
  - intros Hw Hne.
    destruct (search_terminates g start goal) as [st Hs].
    pose proof (search_establishes_post g start goal Hw st Hs) as Hpost.
    unfold _shortest_path. rewrite Hs. cbn [mbind option_bind].
    destruct (prev st !! goal) as [x|] eqn:Hprev.
    + rewrite bool_decide_eq_false_2 by done. cbn [andb].
      assert (is_Some (dist st !! goal)) as Hdist by (apply Hpost; rewrite Hprev; eauto).
      destruct (rooted_chain _ _ _ _ (post_rooted _ _ _ _ Hpost Hdist)) as (l & Hl & Hlast).
      rewrite (chain_reconstruct _ _ l) by (done || pose proof (chain_length _ _ _ Hl); lia).
      cbn [mbind option_bind app]. rewrite Hlast. cbn [default].
      rewrite Z.eqb_refl. cbn [negb].
      destruct Hdist as [dg Hdg].
      pose proof (post_walk _ _ _ _ Hpost _ Hdg) as Hwalk.
      pose proof (post_finite _ _ _ _ Hpost _ Hdg) as Hfin.
      assert (reverse (goal :: l) <> []) as Hnil.
      { intros Hnil%(f_equal length). by rewrite length_reverse in Hnil. }
      eexists. split; [reflexivity|]. split; (split; [done|]).
      * intros Hno. by destruct (Hno _ Hwalk).
      * intros Hun. destruct Hun. by eapply walk_reachable.
    + rewrite bool_decide_eq_true_2 by done.
      destruct (Z.eqb_spec goal start) as [->|_]; [done|]. cbn [andb negb].
      assert (forall c, walk g start goal c -> ~ finite_cost c) as Hno.
      { intros c Hc Hfin. destruct (post_optimal _ _ _ _ Hpost _ Hc Hfin) as (dg & Hdg & _).
        assert (is_Some (prev st !! goal)) as [? ?] by (apply Hpost; eauto). congruence. }
      exists []. split; [done|]. split; (split; [|done]); intros _; [done|].
      intros [c Hc]%reachable_walk. by destruct (Hno c Hc); auto.
Qed.

(** A search that returned a path found a distance for the goal. *)
Lemma shortest_path_search_distance g start goal p :
  nonneg_weights g ->
  _shortest_path g start goal = Some p -> p <> [] ->
  exists d, search_distance g start goal = Some d /\ walk g start goal d
            /\ finite_cost d.
Proof.
  intros Hw Hp Hne. unfold search_distance.
  unfold _shortest_path in Hp.
  destruct (search g start goal) as [st|] eqn:Hs; [|done]. cbn in *.
  pose proof (search_establishes_post g start goal Hw st Hs) as Hpost.
  assert (is_Some (dist st !! goal)) as [d Hd].
  { destruct (Z.eqb_spec goal start) as [->|Hgs].
    - rewrite (post_start _ _ _ _ Hpost). eauto.
    - apply Hpost. destruct (prev st !! goal); [eauto|].
      rewrite bool_decide_eq_true_2 in Hp by done. cbn in Hp. congruence. }
  exists d. split_and!; [done|by apply (post_walk _ _ _ _ Hpost)
                        |by apply (post_finite _ _ _ _ Hpost)].
Qed.

(** The distance the search finds is at most the cost of every walk to
    the goal. *)
Lemma search_distance_optimal g start goal c :
  nonneg_weights g -> walk g start goal c -> finite_cost c ->
  exists d, search_distance g start goal = Some d /\ fleb d c = true.
Proof.
  intros Hw Hc Hfin. unfold search_distance.
  destruct (search_terminates g start goal) as [st Hs]. rewrite Hs. cbn.
  pose proof (search_establishes_post g start goal Hw st Hs) as Hpost.
  by apply (post_optimal _ _ _ _ Hpost).
Qed.

(** C6, as the code has it: the hybrid graph holds every entry of the
    pedestrian graph (the pedestrian weight is 1.0) and more, so wherever
    the pedestrian search succeeds, the distance found in the hybrid graph
    is at most the distance found in the pedestrian graph -- never
    greater. *)
Theorem hybrid_search_distance_le nodes pedestrian_ways highway_ways
    gp etp gh eth start goal p :
  _build_graph nodes pedestrian_ways = Ok (gp, etp) ->
  _build_hybrid_graph nodes pedestrian_ways highway_ways (lit 1) (lit 3) = Ok (gh, eth) ->
  nonneg_finite_weights gh ->
  _shortest_path gp start goal = Some p -> p <> [] ->
  exists dh dp,
    search_distance gh start goal = Some dh
    /\ search_distance gp start goal = Some dp
    /\ fleb dh dp = true.
Proof.
  intros Hgp Hgh Hwh%nonneg_finite_nonneg Hp Hne.
  pose proof (hybrid_graph_contains_pedestrian _ _ _ _ _ _ _ _ Hgp Hgh) as Hsub.
  assert (nonneg_weights gp) as Hwp.
  { intros u v w Hin. apply (Hwh u v w). by apply Hsub. }
  destruct (shortest_path_search_distance _ _ _ _ Hwp Hp Hne)
    as (dp & Hdp & Hwalk & Hfin).
  apply (walk_mono _ gh) in Hwalk; [|done].
  destruct (search_distance_optimal _ _ _ _ Hwh Hwalk Hfin) as (dh & Hdh & Hle).
  by exists dh, dp.
Qed.
End SearchResults.

(** C2, as the claim has it, fails: node 2 can be reached from node 1
    along an edge, but the weight of the edge is infinite, the tentative
    distance [0.0 + inf] is not below [inf], the goal gets no [prev]
    entry, and the search returns the empty sequence. *)
Lemma shortest_path_misses_infinite_edge :
  reachable (FM := Fixed.float) Sample.far_graph 1 2
  /\ @_shortest_path Fixed.float Sample.far_graph 1 2 = Some [].
Proof.
  split; [|vm_compute; reflexivity].
  apply rtc_once. exists Fixed.PInf. vm_compute. apply list_elem_of_here.
Qed.

(** C6, as the claim has it, fails: with the footway from 1 over 3 to 2
    (about 2226 m) and the road from 1 to 2 (about 105 m, weighted 3.0: about
    315 m) both searches succeed, and the hybrid search finds a distance
    below the one the pedestrian search finds.  The ground length of its
    route (about 105 m) is below that of the pedestrian route as well. *)
Lemma hybrid_search_can_be_shorter :
  match @_build_graph Fixed.float Sample.nodes [Sample.footway_1_3_2],
        @_build_hybrid_graph Fixed.float Sample.nodes
          [Sample.footway_1_3_2] [Sample.road_1_2] (lit 1) (lit 3)
  with
  | Ok (gp, _), Ok (gh, _) =>
      _shortest_path gp 1 2 = Some [1; 3; 2]
      /\ _shortest_path gh 1 2 = Some [1; 2]
      /\ search_distance gp 1 2
         = Some (Fixed.Fin 2226382227655973404000 : @pyfloat Fixed.float)
      /\ search_distance gh 1 2
         = Some (Fixed.Fin 315411217982046192000 : @pyfloat Fixed.float)
      /\ @fleb Fixed.float (Fixed.Fin 2226382227655973404000)
                           (Fixed.Fin 315411217982046192000) = false
      /\ @_polyline_length Fixed.float (Sample.route [1; 3; 2])
         = Ok (Fixed.Fin 2226382227655973404000)
      /\ @_polyline_length Fixed.float (Sample.route [1; 2])
         = Ok (Fixed.Fin 105137072660682064000)
      /\ @fleb Fixed.float (Fixed.Fin 2226382227655973404000)
                           (Fixed.Fin 105137072660682064000) = false
  | _, _ => False
  end.
Proof. vm_compute. split_and!; reflexivity. Qed.

(** ** Further facts about the search *)

Section SearchFacts.
Context {FM : PyFloat} {FL : FloatLaws FM}.

(** The search loop of [_shortest_path] ends on every graph, whatever its
    weights: the iterations granted to [search] are never used up. *)
Theorem search_loop_ends_on_every_graph (g : graph) (start goal : Z) :
  exists st, search g start goal = Some st.
Proof. apply search_terminates. Qed.

(** Dijkstra's guarantee on weights that are not negative.  When the
    loop ends, [dist[goal]] is set exactly when some walk from the start to
    the goal has a cost below infinity, summed from the start as the loop
    sums it; it is then the cost of such a walk, and no walk from the start
    to the goal costs less.  When every walk to the goal sums to infinity
    (an infinite weight, or overflow), [dist[goal]] stays unset. *)
Theorem search_distance_is_least (g : graph) (start goal : Z) :
  nonneg_weights g ->
  match search_distance g start goal with
  | Some d =>
      walk g start goal d /\ finite_cost d
      /\ forall c, walk g start goal c -> fleb d c = true
  | None => forall c, walk g start goal c -> ~ finite_cost c
  end.
Proof.
  intros Hw. unfold search_distance.
  destruct (search_terminates g start goal) as [st Hs]. rewrite Hs. cbn.
  pose proof (search_establishes_post g start goal Hw st Hs) as Hpost.
  destruct (dist st !! goal) as [d|] eqn:Hd.
  - pose proof (post_finite _ _ _ _ Hpost _ Hd) as Hfin.
    split_and!; [by apply (post_walk _ _ _ _ Hpost)|done|].
    intros c Hc. destruct (fltb c inf) eqn:Hcf.
    + destruct (post_optimal _ _ _ _ Hpost _ Hc Hcf) as (d' & Hd' & Hle). congruence.
    + apply fltb_fleb. eapply fltb_fleb_trans; [exact Hfin|]. by apply fleb_true.
  - intros c Hc Hfin. destruct (post_optimal _ _ _ _ Hpost _ Hc Hfin) as (d' & Hd' & _).
    congruence.
Qed.
End SearchFacts.

(** ** The properties on the sample precinct *)

Section CheckWeights.
Context {FM : PyFloat}.

Lemma check_weights_correct (g : graph) :
  check_weights g = true -> nonneg_finite_weights g.
Proof.
  unfold check_weights. rewrite forallb_forall. intros Hall u v w Hin.
  unfold adj in Hin. destruct (g !! u) as [l|] eqn:Hu; cbn in Hin;
    [|by apply elem_of_nil in Hin].
  apply elem_of_map_to_list, list_elem_of_In, Hall in Hu. cbn in Hu.
  rewrite forallb_forall in Hu. apply list_elem_of_In, Hu in Hin. cbn in Hin.
  by apply andb_true_iff in Hin.
Qed.
End CheckWeights.

Section Examples.
#[local] Existing Instance Fixed.float.

Lemma sample_built :
@_build_graph Fixed.float Sample.nodes [Sample.footway_1_3_2]
= Ok (Sample.pedestrian_graph, Sample.types_of Sample.built).
Proof. vm_compute. reflexivity. Qed.

Lemma sample_built_hybrid :
@_build_hybrid_graph Fixed.float Sample.nodes [Sample.footway_1_3_2] [Sample.road_1_2]
  (lit 1) (lit 3)
= Ok (Sample.hybrid_graph, Sample.types_of Sample.built_hybrid).
Proof. vm_compute. reflexivity. Qed.

Lemma build_graph_weights_symmetric_witness :
((3, Fixed.Fin 1113191113827986702000) ∈ adj Sample.pedestrian_graph 1
 <-> (1, Fixed.Fin 1113191113827986702000) ∈ adj Sample.pedestrian_graph 3)
/\ ((3, Fixed.Fin 1113191113827986702000) ∈ adj Sample.pedestrian_graph 1 ->
    exists cu cv,
      nodes_get Sample.nodes 1 = Some cu /\ nodes_get Sample.nodes 3 = Some cv
      /\ (distance cu cv = Ok (Fixed.Fin 1113191113827986702000)
          \/ distance cv cu = Ok (Fixed.Fin 1113191113827986702000))).
Proof.
exact (build_graph_weights_symmetric (FM := Fixed.float) Sample.nodes
         [Sample.footway_1_3_2] _ _ sample_built 1 3
         (Fixed.Fin 1113191113827986702000)).
Defined.


Lemma shortest_path_empty_iff_no_finite_walk_witness :
_shortest_path Sample.pedestrian_graph 1 1 = Some [1]
/\ exists p, _shortest_path Sample.pedestrian_graph 1 2 = Some p
     /\ (p = [] <-> forall c, walk Sample.pedestrian_graph 1 2 c -> ~ finite_cost c)
     /\ ((forall c, walk Sample.pedestrian_graph 1 2 c -> finite_cost c) ->
         (p = [] <-> ~ reachable Sample.pedestrian_graph 1 2)).
Proof.
destruct (shortest_path_empty_iff_no_finite_walk (FM := Fixed.float)
            Sample.pedestrian_graph 1 2) as (Hself & _ & Hother).
split; [exact Hself|]. apply Hother.
- apply nonneg_finite_nonneg, check_weights_correct. vm_compute. reflexivity.
- lia.
Defined.

Lemma shortest_path_is_simple_path_witness :
head [1; 3; 2] = Some 1 /\ last [1; 3; 2] = Some 2 /\ NoDup [1; 3; 2]
/\ forall a b, (a, b) ∈ consecutive [1; 3; 2] -> edge Sample.pedestrian_graph a b.
Proof.
apply (shortest_path_is_simple_path (FM := Fixed.float) Sample.pedestrian_graph 1 2).
- vm_compute. reflexivity.
- discriminate.
Defined.

Lemma edge_types_order_independent_witness :
exists g1 et1,
  @_build_graph Fixed.float Sample.nodes [Sample.steps_1_2; Sample.path_1_2]
    = Ok (g1, et1)
  /\ highest_rank_wins (all_edges [Sample.steps_1_2; Sample.path_1_2]) et1
  /\ exists g2,
       @_build_graph Fixed.float Sample.nodes [Sample.path_1_2; Sample.steps_1_2]
         = Ok (g2, et1).
Proof.
destruct (@_build_graph Fixed.float Sample.nodes [Sample.steps_1_2; Sample.path_1_2])
  as [[g1 et1]|e] eqn:Hb; [|vm_compute in Hb; discriminate].
exists g1, et1. split; [reflexivity|].
apply (edge_types_order_independent (FM := Fixed.float) Sample.nodes
         [Sample.steps_1_2; Sample.path_1_2] [Sample.path_1_2; Sample.steps_1_2] g1).
- apply perm_swap.
- intros wy [->|[->|[]%elem_of_nil]%elem_of_cons]%elem_of_cons; vm_compute; discriminate.
- exact Hb.
Defined.

Lemma hybrid_search_distance_le_witness :
exists dh dp,
  search_distance Sample.hybrid_graph 1 2 = Some dh
  /\ search_distance Sample.pedestrian_graph 1 2 = Some dp
  /\ fleb dh dp = true.
Proof.
apply (hybrid_search_distance_le (FM := Fixed.float) Sample.nodes
         [Sample.footway_1_3_2] [Sample.road_1_2] _ _ _ _ 1 2 [1; 3; 2]
         sample_built sample_built_hybrid).
- apply check_weights_correct. vm_compute. reflexivity.
- vm_compute. reflexivity.
- discriminate.
Defined.

Lemma nearest_node_spec_witness :
exists c d,
  (1, c) ∈ Sample.nodes /\ is_Some (Sample.pedestrian_graph !! 1)
  /\ distance (FM := Fixed.float) Sample.origin c = Ok d /\ fleb d (lit 200) = true
  /\ forall n' c', (n', c') ∈ Sample.nodes -> is_Some (Sample.pedestrian_graph !! n') ->
       exists d', distance (FM := Fixed.float) Sample.origin c' = Ok d'
                  /\ fleb d d' = true.
Proof.
apply (nearest_node_spec (FM := Fixed.float) Sample.origin Sample.nodes
         Sample.pedestrian_graph (lit 200) (Some 1)).
- vm_compute. reflexivity.
- reflexivity.
Defined.

Lemma build_graph_on_present_nodes_witness :
(forall e, @_build_graph Fixed.float Sample.nodes [Sample.footway_1_3_2] = Raise e ->
   e = ValueError)
/\ forall u v,
     edge Sample.pedestrian_graph u v <->
     exists wy, wy ∈ [Sample.footway_1_3_2]
                /\ ((u, v) ∈ consecutive (way_nodes wy)
                    \/ (v, u) ∈ consecutive (way_nodes wy)).
Proof.
destruct (build_graph_on_present_nodes (FM := Fixed.float) Sample.nodes
            [Sample.footway_1_3_2]) as (Hraise & _ & Hedges).
- intros wy u ->%list_elem_of_singleton Hu. cbn in Hu.
  repeat (apply elem_of_cons in Hu as [->|Hu]; [reflexivity|]).
  by apply elem_of_nil in Hu.
- split; [exact Hraise|]. exact (Hedges _ _ sample_built).
Defined.
Lemma hybrid_graph_eq_build_graph_witness :
  exists et',
    _build_hybrid_graph Sample.nodes [Sample.footway_1_3_2] [] (lit 1) (lit 3)
    = Ok (Sample.pedestrian_graph, et').
Proof.
  exact (hybrid_graph_eq_build_graph (FM := Fixed.float) Sample.nodes
           [Sample.footway_1_3_2] (lit 3) _ _ sample_built).
Defined.

Lemma search_distance_is_least_witness :
  match search_distance Sample.pedestrian_graph 1 2 with
  | Some d =>
      walk Sample.pedestrian_graph 1 2 d /\ finite_cost d
      /\ forall c, walk Sample.pedestrian_graph 1 2 c -> fleb d c = true
  | None => forall c, walk Sample.pedestrian_graph 1 2 c -> ~ finite_cost c
  end.
Proof.
  apply (search_distance_is_least (FM := Fixed.float) Sample.pedestrian_graph 1 2).
  apply nonneg_finite_nonneg, check_weights_correct. vm_compute. reflexivity.
Defined.

Lemma fetched_way_nodes_present_witness :
  (2 <= length [1; 2])%nat /\ forall u, u ∈ [1; 2] -> in_nodes Sample.nodes u = true.
Proof.
  apply (fetched_way_nodes_present (FM := Fixed.float) Sample.nodes
           {[ "highway" := "footway" ]} [1; 99; 2]
           (Way [1; 2] (Some "footway") (Some "foot_path"))).
  vm_compute. reflexivity.
Defined.

Lemma catalog_crossing_by_subtype_witness :
  _fetch_pedestrian_catalog_category unmarked_crossing_tags = Some "foot_path".
Proof.
  apply (catalog_crossing_by_subtype unmarked_crossing_tags); reflexivity.
Defined.
End Examples.

(** ** The two classifiers *)

Ltac string_cases :=
  repeat match goal with
         | |- context [String.eqb ?a ?b] =>
             destruct (String.eqb_spec a b); subst; cbn in *; try done
         end.

(** The routing classifier and the catalog classifier agree wherever the
    routing classifier keeps a way: the map shows every routable way under
    the category the router uses for it.  The ways the map shows and the
    router drops are the [footway=crossing] ways, and only they. *)
Theorem routing_category_is_catalog_category (tags : gmap string string) :
  (forall c, _fetch_pedestrian_ways_category tags = Some c ->
             _fetch_pedestrian_catalog_category tags = Some c)
  /\ ((_fetch_pedestrian_ways_category tags = None
       /\ is_Some (_fetch_pedestrian_catalog_category tags))
      <-> (tag tags "highway" = "footway" /\ tag tags "footway" = "crossing")).
Proof.
  unfold _fetch_pedestrian_ways_category, _fetch_pedestrian_catalog_category,
    marked_crossing, truthy.
  generalize (tag tags "highway") (tag tags "footway") (tag tags "crossing")
             (tag tags "informal") (tag tags "trail_visibility").
  intros hw fw cr inf tv. split.
  - intros c. string_cases.
  - split.
    + intros [Hw [c Hc]]. revert Hw Hc. string_cases.
    + intros [-> ->]. cbn. split; [done|]. destruct (bool_decide _); cbn; eauto.
Qed.

(** ** The fetchers *)

Section Fetch.
Context {FM : PyFloat}.
Implicit Types (nodes : node_table) (el : element) (elements : list element).

Lemma nodes_get_set nodes k c k' :
  nodes_get (nodes_set nodes k c) k' =
    if decide (k = k') then Some c else nodes_get nodes k'.
Proof.
  induction nodes as [|[k0 c0] nodes IH]; cbn.
  - destruct (Z.eqb_spec k k'), (decide (k = k')); congruence.
  - destruct (Z.eqb_spec k0 k) as [->|Hne]; cbn.
    + destruct (Z.eqb_spec k k'), (decide (k = k')); congruence.
    + destruct (Z.eqb_spec k0 k') as [->|Hne']; [|exact IH].
      by destruct (decide (k = k')).
Qed.

Lemma nodes_get_elem_of nodes k c : nodes_get nodes k = Some c -> (k, c) ∈ nodes.
Proof.
  induction nodes as [|[k0 c0] nodes IH]; cbn; [done|].
  destruct (Z.eqb_spec k0 k) as [->|Hne].
  - intros [= ->]. apply list_elem_of_here.
  - intros H. by apply list_elem_of_further, IH.
Qed.

Lemma nodes_get_None nodes k : nodes_get nodes k = None <-> k ∉ nodes.*1.
Proof.
  induction nodes as [|[k0 c0] nodes IH]; cbn.
  - split; [intros _ H; by apply elem_of_nil in H|done].
  - rewrite not_elem_of_cons. destruct (Z.eqb_spec k0 k) as [->|Hne].
    + split; [done|]. by intros [? _].
    + rewrite IH. split; [by split|]. by intros [_ ?].
Qed.

Lemma nodes_set_keys nodes k c :
  (nodes_set nodes k c).*1 = if in_nodes nodes k then nodes.*1 else nodes.*1 ++ [k].
Proof.
  unfold in_nodes. induction nodes as [|[k0 c0] nodes IH]; cbn; [done|].
  destruct (Z.eqb_spec k0 k) as [->|Hne]; cbn; [done|].
  rewrite IH. by destruct (nodes_get nodes k).
Qed.

Lemma nodes_set_NoDup nodes k c : NoDup nodes.*1 -> NoDup (nodes_set nodes k c).*1.
Proof.
  intros Hnd. rewrite nodes_set_keys. unfold in_nodes.
  destruct (nodes_get nodes k) eqn:Hk; [done|].
  apply NoDup_app. split_and!; [done| |apply NoDup_singleton].
  intros x Hx ->%list_elem_of_singleton. by apply nodes_get_None in Hk.
Qed.

Lemma fetch_nodes_step_Ok nodes el nodes' :
  _fetch_nodes_step nodes el = Ok nodes' <->
  (is_type el "node" = false /\ nodes' = nodes)
  \/ exists id c, node_element el id c /\ nodes' = nodes_set nodes id c.
Proof.
  unfold _fetch_nodes_step, node_element, el_item.
  destruct (is_type el "node").
  - destruct (el_lat el) as [lat|], (el_lon el) as [lon|], (el_id el) as [id|]; cbn;
      (split; [try discriminate|]).
    + intros [= <-]. right. by exists id, (lat, lon).
    + intros [[[=] _]|(id' & [lat' lon'] & (_ & [= <-] & [= <-] & [= <-]) & ->)]. done.
    + intros [[[=] _]|(? & ? & (_ & [=] & _) & _)].
    + intros [[[=] _]|(? & ? & (_ & _ & _ & [=]) & _)].
    + intros [[[=] _]|(? & ? & (_ & [=] & _) & _)].
    + intros [[[=] _]|(? & ? & (_ & _ & [=] & _) & _)].
    + intros [[[=] _]|(? & ? & (_ & [=] & _) & _)].
    + intros [[[=] _]|(? & ? & (_ & _ & [=] & _) & _)].
    + intros [[[=] _]|(? & ? & (_ & [=] & _) & _)].
  - split.
    + intros [= <-]. by left.
    + intros [[_ ->]|(? & ? & ([=] & _) & _)]. done.
Qed.

Lemma fetch_nodes_step_Raise nodes el e :
  _fetch_nodes_step nodes el = Raise e <->
  e = KeyError /\ is_type el "node" = true
  /\ (el_lat el = None \/ el_lon el = None \/ el_id el = None).
Proof.
  unfold _fetch_nodes_step, el_item.
  destruct (is_type el "node");
    [|split; [discriminate|by intros (_ & [=] & _)]].
  destruct (el_lat el) as [lat|], (el_lon el) as [lon|], (el_id el) as [id|]; cbn;
    (split; [try discriminate; intros [= <-]; tauto|]);
    try (by intros (-> & _)).
  intros (_ & _ & [[=]|[[=]|[=]]]).
Qed.

(** The node table the fetchers build is a dict: no id occurs twice, and
    an id is mapped to the coordinates of the last node element that carries
    it. *)
Theorem fetch_nodes_last_wins elements nodes :
  _fetch_nodes elements = Ok nodes ->
  NoDup nodes.*1
  /\ forall id c,
       nodes_get nodes id = Some c <->
       exists before el after,
         elements = before ++ el :: after /\ node_element el id c
         /\ forall el' c', el' ∈ after -> ~ node_element el' id c'.
Proof.
  unfold _fetch_nodes. revert nodes.
  induction elements as [|el elements IH] using rev_ind; intros nodes.
  - cbn. intros [= <-]. split; [apply NoDup_nil_2|]. intros id c. cbn. split; [done|].
    intros (before & el & after & Heq & _). by destruct before.
  - intros (nodes0 & Hscan & Hstep)%for_each_snoc_Ok.
    destruct (IH _ Hscan) as [Hnd Hget]. clear IH.
    apply fetch_nodes_step_Ok in Hstep as [[Hty ->]|(id0 & c0 & Hel & ->)].
    + split; [done|]. intros id c. rewrite Hget. split.
      * intros (before & el0 & after & -> & Hel0 & Hafter).
        exists before, el0, (after ++ [el]). rewrite <- app_assoc. split_and!; try done.
        intros el' c' [Hin| ->%list_elem_of_singleton]%elem_of_app; [eauto|].
        intros [Hty' _]. congruence.
      * intros (before & el0 & after & Heq & Hel0 & Hafter).
        destruct after as [|a after _] using rev_ind.
        -- apply app_inj_tail in Heq as [_ <-]. destruct Hel0 as [Hty' _]. congruence.
        -- rewrite app_comm_cons, app_assoc in Heq. apply app_inj_tail in Heq as [-> <-].
           exists before, el0, after. split_and!; try done.
           intros el' c' Hin. apply Hafter. rewrite elem_of_app. auto.
    + split; [by apply nodes_set_NoDup|]. intros id c. rewrite nodes_get_set.
      destruct (decide (id0 = id)) as [->|Hne].
      * split.
        -- intros [= ->]. exists elements, el, []. split_and!; try done.
           intros el' c' H. by apply elem_of_nil in H.
        -- intros (before & el0 & after & Heq & Hel0 & Hafter).
           destruct after as [|a after _] using rev_ind.
           ++ apply app_inj_tail in Heq as [_ <-].
              destruct Hel as (_ & _ & Hlat & Hlon), Hel0 as (_ & _ & Hlat0 & Hlon0).
              f_equal. destruct c, c0; cbn in *; congruence.
           ++ rewrite app_comm_cons, app_assoc in Heq.
              apply app_inj_tail in Heq as [_ <-].
              destruct (Hafter el c0); [|done]. rewrite elem_of_app, list_elem_of_singleton. auto.
      * rewrite Hget. split.
        -- intros (before & el0 & after & -> & Hel0 & Hafter).
           exists before, el0, (after ++ [el]). rewrite <- app_assoc. split_and!; try done.
           intros el' c' [Hin| ->%list_elem_of_singleton]%elem_of_app; [eauto|].
           intros (_ & Hid & _). destruct Hel as (_ & Hid' & _). congruence.
        -- intros (before & el0 & after & Heq & Hel0 & Hafter).
           destruct after as [|a after _] using rev_ind.
           ++ apply app_inj_tail in Heq as [_ <-].
              destruct Hel as (_ & Hid' & _), Hel0 as (_ & Hid & _). congruence.
           ++ rewrite app_comm_cons, app_assoc in Heq.
              apply app_inj_tail in Heq as [-> <-].
              exists before, el0, after. split_and!; try done.
              intros el' c' Hin. apply Hafter. rewrite elem_of_app. auto.
Qed.
End Fetch.

Section FetchWays.
Context {FM : PyFloat}.
Implicit Types (nodes : node_table) (el : element) (elements : list element).

(** A loop raises when its body raises on one of the elements whatever the
    state. *)
Lemma for_each_raises {A S : Type} (body : S -> A -> result S) xs st x :
  x ∈ xs -> (forall s, exists e, body s x = Raise e) ->
  exists e, for_each body xs st = Raise e.
Proof.
  revert st. induction xs as [|y xs IH]; intros st Hin Hx.
  - by apply elem_of_nil in Hin.
  - cbn. destruct (body st y) as [st1|e] eqn:Hb; cbn; [|eauto].
    apply elem_of_cons in Hin as [->|Hin]; [|by apply IH].
    destruct (Hx st) as [e He]. congruence.
Qed.

(** The only way the pedestrian fetch fails on a downloaded answer is a
    node element without [id], [lat] or [lon]: then, and only then, it raises,
    and what it raises is a [KeyError].  Way elements never make it raise,
    whatever entries they lack. *)
Theorem fetch_pedestrian_ways_raises elements e :
  _fetch_pedestrian_ways_elements elements = Raise e <->
  e = KeyError
  /\ exists el, el ∈ elements /\ is_type el "node" = true
       /\ (el_lat el = None \/ el_lon el = None \/ el_id el = None).
Proof.
  unfold _fetch_pedestrian_ways_elements, _fetch_nodes. split.
  - destruct (for_each _ elements []) as [nodes|e'] eqn:Hscan; cbn; [discriminate|].
    intros [= ->]. apply for_each_Raise in Hscan as (el & s & Hin & Hr).
    apply fetch_nodes_step_Raise in Hr as (-> & Hty & Hmiss). eauto.
  - intros (-> & el & Hin & Hty & Hmiss).
    destruct (for_each_raises _fetch_nodes_step elements [] el Hin) as [e He].
    { intros s. exists KeyError. by apply fetch_nodes_step_Raise. }
    rewrite He. cbn. f_equal.
    apply for_each_Raise in He as (el' & s & _ & Hr).
    by apply fetch_nodes_step_Raise in Hr as (-> & _).
Qed.

Lemma fetch_pedestrian_way_kept nodes tags node_ids wy :
  _fetch_pedestrian_ways_way nodes tags node_ids = Some wy ->
  way_nodes wy = List.filter (in_nodes nodes) node_ids
  /\ (2 <= length (way_nodes wy))%nat
  /\ way_highway wy = Some (tag tags "highway")
  /\ exists c, way_category wy = Some c /\ _fetch_pedestrian_ways_category tags = Some c.
Proof.
  unfold _fetch_pedestrian_ways_way.
  destruct (Nat.ltb_spec (length (List.filter (in_nodes nodes) node_ids)) 2);
    [discriminate|].
  destruct (_fetch_pedestrian_ways_category tags) as [c|]; [|discriminate].
  intros [= <-]. cbn. split_and!; try done. by exists c.
Qed.

Lemma fetch_pedestrian_category_ranked tags c :
  _fetch_pedestrian_ways_category tags = Some c -> ranked c.
Proof.
  unfold _fetch_pedestrian_ways_category, truthy.
  generalize (tag tags "highway") (tag tags "footway")
             (tag tags "informal") (tag tags "trail_visibility").
  intros hw fw inf tv. unfold ranked.
  string_cases; try (intros [= <-]; by cbn).
Qed.

Lemma filter_in_nodes nodes ids u :
  u ∈ List.filter (in_nodes nodes) ids -> in_nodes nodes u = true.
Proof. intros Hu%list_elem_of_In. by apply filter_In in Hu as [_ Hu]. Qed.

Lemma elem_of_fetched_ways (f : element -> option way) elements wy :
  wy ∈ omap f elements -> exists el, el ∈ elements /\ f el = Some wy.
Proof. intros (el & Hin & Hf)%list_elem_of_omap. eauto. Qed.

(** A graph built from at least one pair has a key. *)
Lemma build_steps_nonempty nodes x xs g et :
  for_each (build_step nodes) (x :: xs) (∅, ∅) = Ok (g, et) -> g <> ∅.
Proof.
  intros Hb. destruct x as [[u v] c].
  destruct (for_each_Ok_body _ _ _ _ Hb ((u, v), c)) as (s & s' & Hs);
    [apply list_elem_of_here|].
  unfold build_step in Hs. cbn in Hs.
  apply build_graph_edge_Ok in Hs as (cu & cv & w & Hu & Hv & Hw & _).
  assert ((v, w) ∈ adj g u) as Hin.
  { apply (build_steps_adj _ _ _ _ Hb). exists c, cu, cv. split_and!; try done.
    left. split; [apply list_elem_of_here|done]. }
  intros ->. rewrite adj_empty in Hin. by apply elem_of_nil in Hin.
Qed.

(** The ways of the pedestrian fetch: categories of the rank table, at
    least two nodes, all of them in the node table of the fetch. *)
Lemma fetched_pedestrian_ways_ok elements nodes ways :
  _fetch_pedestrian_ways_elements elements = Ok (nodes, ways) ->
  forall wy, wy ∈ ways ->
    ranked (category_of wy) /\ (2 <= length (way_nodes wy))%nat
    /\ forall u, u ∈ way_nodes wy -> in_nodes nodes u = true.
Proof.
  unfold _fetch_pedestrian_ways_elements.
  destruct (_fetch_nodes elements) as [nodes0|] eqn:Hn; cbn; [|discriminate].
  intros [= <- <-] wy (el & _ & Hf)%elem_of_fetched_ways.
  destruct (is_type el "way"); [|discriminate].
  apply fetch_pedestrian_way_kept in Hf as (Hnodes & Hlen & _ & c & Hc & Hcat).
  split_and!; [|done|].
  - unfold category_of. rewrite Hc. by eapply fetch_pedestrian_category_ranked.
  - intros u. rewrite Hnodes. apply filter_in_nodes.
Qed.

(** [_build_graph] on ways whose nodes are in the table raises no
    [KeyError]. *)
Lemma build_graph_present_Raise nodes ways e :
  (forall wy u, wy ∈ ways -> u ∈ way_nodes wy -> in_nodes nodes u = true) ->
  _build_graph nodes ways = Raise e -> e = ValueError.
Proof.
  intros Hways. rewrite build_graph_flat.
  intros ([uv c] & st & Hin & Hr)%for_each_Raise.
  eapply build_step_Raise; [|exact Hr]. eapply all_nodes_present; eauto.
Qed.

(** C9, as the code has it.  [_build_graph] does not skip a pair with a
    node that the table lacks: it returns only when both nodes of every
    listed pair are in the table, so a way that lists an absent node makes
    it raise; and a [KeyError] leaves it only when some listed pair has an
    absent node.  The edges of a graph it returns join table nodes that some
    way lists next to each other.  Absent identifiers are dropped earlier,
    by the pedestrian fetch, which keeps of each way the nodes that are in
    the table: on ways that come from there [_build_graph] raises no
    [KeyError]. *)
Theorem build_graph_needs_present_nodes nodes ways :
  (forall g et, _build_graph nodes ways = Ok (g, et) ->
     (forall wy u v, wy ∈ ways -> (u, v) ∈ consecutive (way_nodes wy) ->
        in_nodes nodes u = true /\ in_nodes nodes v = true)
     /\ forall u v, edge g u v ->
          in_nodes nodes u = true /\ in_nodes nodes v = true
          /\ exists wy, wy ∈ ways /\ ((u, v) ∈ consecutive (way_nodes wy)
                                     \/ (v, u) ∈ consecutive (way_nodes wy)))
  /\ ((exists wy u v, wy ∈ ways /\ (u, v) ∈ consecutive (way_nodes wy)
         /\ (in_nodes nodes u = false \/ in_nodes nodes v = false)) ->
      exists e, _build_graph nodes ways = Raise e)
  /\ (_build_graph nodes ways = Raise KeyError ->
      exists wy u v, wy ∈ ways /\ (u, v) ∈ consecutive (way_nodes wy)
        /\ (in_nodes nodes u = false \/ in_nodes nodes v = false))
  /\ ((forall wy, wy ∈ ways ->
         exists tags node_ids,
           _fetch_pedestrian_ways_way nodes tags node_ids = Some wy) ->
      _build_graph nodes ways <> Raise KeyError).
Proof.
  assert (forall g et, _build_graph nodes ways = Ok (g, et) ->
            forall wy u v, wy ∈ ways -> (u, v) ∈ consecutive (way_nodes wy) ->
              in_nodes nodes u = true /\ in_nodes nodes v = true) as Hpresent.
  { intros g et Hb wy u v Hwy Huv. rewrite build_graph_flat in Hb.
    assert (((u, v), category_of wy) ∈ all_edges ways) as Hin
      by (apply elem_of_all_edges; eauto).
    destruct (for_each_Ok_body _ _ _ _ Hb _ Hin) as (s & s' & Hs).
    unfold build_step in Hs. cbn in Hs.
    apply build_graph_edge_Ok in Hs as (cu & cv & w & Hu & Hv & _).
    rewrite !in_nodes_true, Hu, Hv. eauto. }
  split_and!.
  - intros g et Hb. split; [by apply (Hpresent g et)|].
    rewrite build_graph_flat in Hb. intros u v [w Hw].
    apply (build_steps_adj _ _ _ _ Hb) in Hw as (c & cu & cv & Hu & Hv & Hin).
    rewrite !in_nodes_true, Hu, Hv. split_and!; [eauto..|].
    destruct Hin as [[Hin _]|[Hin _]];
      apply elem_of_all_edges in Hin as (wy & Hwy & Huv & _); eauto.
  - intros (wy & u & v & Hwy & Huv & Habs).
    destruct (_build_graph nodes ways) as [[g et]|e] eqn:Hb; [|eauto].
    destruct (Hpresent g et eq_refl wy u v Hwy Huv) as [Hu Hv].
    destruct Habs; congruence.
  - rewrite build_graph_flat. intros ([[u v] c] & st & Hin & Hr)%for_each_Raise.
    apply elem_of_all_edges in Hin as (wy & Hwy & Huv & _).
    exists wy, u, v. split_and!; try done.
    destruct (in_nodes nodes u) eqn:Hu; [|by left].
    destruct (in_nodes nodes v) eqn:Hv; [|by right].
    assert (KeyError = ValueError); [|discriminate].
    eapply build_step_Raise; [|exact Hr]. by split.
  - intros Hfetch Hraise. assert (KeyError = ValueError); [|discriminate].
    eapply build_graph_present_Raise; [|exact Hraise].
    intros wy u Hwy Hu. destruct (Hfetch wy Hwy) as (tags & ids & Hk).
    apply fetch_pedestrian_way_kept in Hk as (Hn & _). rewrite Hn in Hu.
    by eapply filter_in_nodes.
Qed.

(** A graph built from ways of at least two nodes each is empty only when
    there is no way. *)
Lemma built_graph_empty nodes ways g et :
  (forall wy, wy ∈ ways -> (2 <= length (way_nodes wy))%nat) ->
  _build_graph nodes ways = Ok (g, et) -> (g = ∅ <-> ways = []).
Proof.
  intros Hways Hb. split.
  - intros ->. destruct ways as [|wy ways']; [done|]. exfalso.
    pose proof (Hways wy (list_elem_of_here _ _)) as Hlen.
    rewrite build_graph_flat in Hb.
    destruct (way_nodes wy) as [|a [|b l]] eqn:Hwn; cbn in Hlen; [lia..|].
    unfold all_edges in Hb. cbn [flat_map] in Hb. unfold way_edges at 1 in Hb.
    rewrite Hwn in Hb. cbn [consecutive map app] in Hb.
    by eapply build_steps_nonempty.
  - intros Hw. rewrite Hw in Hb. cbn in Hb. by injection Hb as <- _.
Qed.

(** The pedestrian fetch and [_build_graph] fit together: the ways the
    fetch returns carry categories of the rank table and only nodes of the
    node table it returns, so [_build_graph] on its result never raises a
    [KeyError]; and the graph it builds is empty only when there is no way
    at all. *)
Theorem fetched_ways_build_graph elements nodes ways :
  _fetch_pedestrian_ways_elements elements = Ok (nodes, ways) ->
  (forall wy, wy ∈ ways ->
     ranked (category_of wy) /\ (2 <= length (way_nodes wy))%nat
     /\ forall u, u ∈ way_nodes wy -> in_nodes nodes u = true)
  /\ (forall e, _build_graph nodes ways = Raise e -> e = ValueError)
  /\ (forall g et, _build_graph nodes ways = Ok (g, et) -> (g = ∅ <-> ways = [])).
Proof.
  intros Hf. pose proof (fetched_pedestrian_ways_ok _ _ _ Hf) as Hways.
  split_and!; [exact Hways| |].
  - intros e. apply build_graph_present_Raise. intros wy u Hwy. by apply Hways.
  - intros g et. apply built_graph_empty. intros wy Hwy. by apply Hways.
Qed.

(** What the highway fetch keeps of a way element: a way that carries one
    of the eight road values of [highway], with the category [highway], at
    least two nodes, all of them in the node table; and no way that the
    pedestrian fetch keeps. *)
Theorem fetch_highways_way_spec nodes tags node_ids wy :
  _fetch_highways_way nodes tags node_ids = Some wy ->
  category_of wy = "highway"
  /\ highway_connector (tag tags "highway") = true
  /\ (2 <= length (way_nodes wy))%nat
  /\ (forall u, u ∈ way_nodes wy -> in_nodes nodes u = true)
  /\ _fetch_pedestrian_ways_way nodes tags node_ids = None.
Proof.
  unfold _fetch_highways_way.
  destruct (highway_connector (tag tags "highway")) eqn:Hhw; [|discriminate].
  destruct (Nat.leb_spec 2 (length (List.filter (in_nodes nodes) node_ids)));
    [|discriminate].
  intros [= <-]. cbn. split_and!; try done.
  - intros u. apply filter_in_nodes.
  - unfold _fetch_pedestrian_ways_way.
    destruct (_ <? _)%nat; [done|].
    unfold _fetch_pedestrian_ways_category.
    unfold highway_connector in Hhw. apply bool_decide_eq_true in Hhw.
    revert Hhw. generalize (tag tags "highway"). intros hw Hhw.
    repeat (apply elem_of_cons in Hhw as [->|Hhw]; [done|]).
    by apply elem_of_nil in Hhw.
Qed.
End FetchWays.

(** ** Route segments *)

Lemma consecutive_lookup (l : list Z) (i : nat) (u v : Z) :
  consecutive l !! i = Some (u, v) <-> l !! i = Some u /\ l !! S i = Some v.
Proof.
  revert i. induction l as [|a [|b l] IH]; intros i.
  - cbn. split; [done|]. by intros [? _].
  - cbn. split; [done|]. destruct i; by intros [_ ?].
  - rewrite consecutive_cons_cons. destruct i as [|i].
    + cbn. split; [by intros [= -> ->]|]. by intros [[= ->] [= ->]].
    + change ((a :: b :: l) !! S i) with ((b :: l) !! i).
      change ((a :: b :: l) !! S (S i)) with ((b :: l) !! S i).
      change (((a, b) :: consecutive (b :: l)) !! S i) with (consecutive (b :: l) !! i).
      apply IH.
Qed.

Lemma consecutive_length (l : list Z) : length (consecutive l) = (length l - 1)%nat.
Proof.
  induction l as [|a [|b l] IH]; [done..|].
  rewrite consecutive_cons_cons. cbn [length] in *. lia.
Qed.

Section Segments.
Context {FM : PyFloat}.
Implicit Types (nodes : node_table) (et : edge_types) (s : segment).

Lemma segments_step_Ok nodes et segments uv segments' :
  _segments_with_types_step nodes et segments uv = Ok segments' ->
  exists s, segments' = segments ++ [s] /\ segment_of nodes et uv s.
Proof.
  destruct uv as [u v]. unfold _segments_with_types_step, nodes_item, segment_of.
  cbn [fst snd].
  destruct (nodes_get nodes u) as [[lat1 lng1]|]; cbn; [|discriminate].
  destruct (nodes_get nodes v) as [[lat2 lng2]|]; cbn; [|discriminate].
  intros [= <-]. eexists. split; [reflexivity|]. cbn. split_and!; try done.
  - by destruct (String.eqb_spec (default "foot_path" (et !! frozenset u v)) "highway").
  - by rewrite String.eqb_eq.
Qed.

Lemma segments_step_Raise nodes et segments u v e :
  _segments_with_types_step nodes et segments (u, v) = Raise e <->
  e = KeyError /\ (in_nodes nodes u = false \/ in_nodes nodes v = false).
Proof.
  unfold _segments_with_types_step, nodes_item, in_nodes.
  destruct (nodes_get nodes u) as [[lat1 lng1]|]; cbn.
  - destruct (nodes_get nodes v) as [[lat2 lng2]|]; cbn.
    + split; [discriminate|]. by intros [_ [?|?]].
    + split; [intros [= <-]; auto|]. by intros [-> _].
  - split; [intros [= <-]; auto|]. by intros [-> _].
Qed.

Lemma segments_loop nodes et xs acc segments :
  for_each (_segments_with_types_step nodes et) xs acc = Ok segments ->
  exists new, segments = acc ++ new /\ Forall2 (segment_of nodes et) xs new.
Proof.
  revert acc. induction xs as [|uv xs IH]; intros acc.
  - cbn. intros [= <-]. exists []. by rewrite app_nil_r.
  - intros (acc1 & Hstep & Hrest)%for_each_cons_Ok.
    apply segments_step_Ok in Hstep as (s & -> & Hs).
    destruct (IH _ Hrest) as (new & -> & Hnew).
    exists (s :: new). rewrite <- app_assoc. split; [done|]. by constructor.
Qed.

(** The coloured route follows the node path: one segment per consecutive
    pair, from the coordinates of the first node to those of the second, so
    that each segment starts where the one before it ends.  Its category is
    the entry of the pair in the category map, "foot_path" when there is
    none; the [highway] entry of a segment always repeats its category, and
    [is_highway] says whether that is "highway". *)
Theorem segments_follow_route node_path nodes et segments :
  _segments_with_types node_path nodes et = Ok segments ->
  length segments = (length node_path - 1)%nat
  /\ Forall2 (segment_of nodes et) (consecutive node_path) segments
  /\ forall i s s', segments !! i = Some s -> segments !! S i = Some s' ->
       seg_to s = seg_from s'.
Proof.
  unfold _segments_with_types. intros (new & -> & Hnew)%segments_loop. cbn [app].
  split_and!.
  - rewrite <- (Forall2_length _ _ _ Hnew). apply consecutive_length.
  - done.
  - intros i s s' Hs Hs'.
    destruct (Forall2_lookup_r _ _ _ _ _ Hnew Hs) as ([u v] & Huv & Hseg).
    destruct (Forall2_lookup_r _ _ _ _ _ Hnew Hs') as ([u' v'] & Huv' & Hseg').
    apply consecutive_lookup in Huv as [_ Hv], Huv' as [Hu' _].
    rewrite Hv in Hu'. injection Hu' as ->.
    destruct Hseg as (_ & Hto & _), Hseg' as (Hfrom & _). cbn in *. congruence.
Qed.

(** [_segments_with_types] raises exactly when a pair of consecutive nodes
    of the path has a node that the node table lacks, and then a
    [KeyError]; a path of fewer than two nodes never makes it raise. *)
Theorem segments_raise_on_absent_node node_path nodes et e :
  _segments_with_types node_path nodes et = Raise e <->
  e = KeyError
  /\ exists u v, (u, v) ∈ consecutive node_path
       /\ (in_nodes nodes u = false \/ in_nodes nodes v = false).
Proof.
  unfold _segments_with_types. split.
  - intros ([u v] & acc & Hin & Hr)%for_each_Raise.
    apply segments_step_Raise in Hr as [-> Habsent]. eauto.
  - intros (-> & u & v & Hin & Habsent).
    destruct (for_each_raises (_segments_with_types_step nodes et)
                (consecutive node_path) [] (u, v) Hin) as [e He].
    { intros acc. exists KeyError. by apply segments_step_Raise. }
    rewrite He. f_equal.
    apply for_each_Raise in He as ([u' v'] & acc & _ & Hr).
    by apply segments_step_Raise in Hr as [-> _].
Qed.

Lemma segments_loop_Ok nodes et xs acc :
  (forall u v, (u, v) ∈ xs -> in_nodes nodes u = true /\ in_nodes nodes v = true) ->
  is_Ok (for_each (_segments_with_types_step nodes et) xs acc).
Proof.
  intros Hpres. apply for_each_is_Ok. intros [u v] s Hin.
  destruct (_segments_with_types_step nodes et s (u, v)) as [s'|e] eqn:Hs; [by eexists|].
  apply segments_step_Raise in Hs as [_ Habsent].
  destruct (Hpres _ _ Hin) as [Hu Hv]. destruct Habsent; congruence.
Qed.

(** Every pair of consecutive nodes of a search result is an edge. *)
Lemma shortest_path_edges (g : graph) start goal p a b :
  _shortest_path g start goal = Some p -> (a, b) ∈ consecutive p -> edge g a b.
Proof.
  intros Hp Hab. destruct (decide (p = [])) as [->|Hne]; [by apply elem_of_nil in Hab|].
  destruct (shortest_path_Some _ _ _ _ Hp Hne) as (st & l & Hs & Hc & Hlast & ->).
  apply (search_prev_edges _ _ _ _ Hs). by apply (chain_links _ _ _ _ _ Hc).
Qed.

(** An edge of the graph [_build_graph] returns has an entry in the
    category map, the category of a way that lists its two nodes. *)
Lemma built_edge_category nodes ways g et u v :
  _build_graph nodes ways = Ok (g, et) -> edge g u v ->
  in_nodes nodes u = true /\ in_nodes nodes v = true
  /\ exists wy, wy ∈ ways /\ et !! frozenset u v = Some (category_of wy).
Proof.
  rewrite build_graph_flat. intros Hb [w Hw].
  apply (build_steps_adj _ _ _ _ Hb) in Hw as (c & cu & cv & Hu & Hv & Hin).
  split_and!; [apply in_nodes_true; eauto..|].
  pose proof (build_steps_rank_rule _ _ _ _ Hb (frozenset u v)) as Hrule.
  destruct (et !! frozenset u v) as [c'|].
  - destruct Hrule as [(u' & v' & Hin' & _) _].
    apply elem_of_all_edges in Hin' as (wy & Hwy & _ & ->). eauto.
  - destruct Hin as [[Hin _]|[Hin _]]; destruct (Hrule _ _ _ Hin);
      [done|apply frozenset_comm].
Qed.

(** The route of a search on the graph [_build_graph] returns can always
    be coloured: [_segments_with_types] does not raise on it, and no segment
    falls back on the default category -- each one has the category of a way
    of the input. *)
Theorem route_segments_have_way_categories nodes ways g et start goal p :
  _build_graph nodes ways = Ok (g, et) ->
  _shortest_path g start goal = Some p ->
  exists segments,
    _segments_with_types p nodes et = Ok segments
    /\ length segments = (length p - 1)%nat
    /\ forall s, s ∈ segments -> exists wy, wy ∈ ways /\ seg_category s = category_of wy.
Proof.
  intros Hb Hp.
  destruct (segments_loop_Ok nodes et (consecutive p) []) as [segments Hsegs].
  { intros u v Huv. pose proof (shortest_path_edges _ _ _ _ _ _ Hp Huv) as He.
    by destruct (built_edge_category _ _ _ _ _ _ Hb He) as (? & ? & _). }
  exists segments. split; [exact Hsegs|].
  apply segments_loop in Hsegs as (new & -> & Hnew). cbn [app]. split.
  - rewrite <- (Forall2_length _ _ _ Hnew). apply consecutive_length.
  - intros s (i & Hi)%list_elem_of_lookup.
    destruct (Forall2_lookup_r _ _ _ _ _ Hnew Hi) as ([u v] & Huv & Hseg).
    apply list_elem_of_lookup_2 in Huv.
    pose proof (shortest_path_edges _ _ _ _ _ _ Hp Huv) as He.
    destruct (built_edge_category _ _ _ _ _ _ Hb He) as (_ & _ & wy & Hwy & Het).
    exists wy. split; [done|]. destruct Hseg as (_ & _ & -> & _). cbn. by rewrite Het.
Qed.
End Segments.

(** ** Network polylines *)

Section Network.
Context {FM : PyFloat}.
Implicit Types (nodes : node_table).

Lemma omap_all_Some {A B : Type} (f : A -> option B) (l : list A) :
  (forall x, x ∈ l -> is_Some (f x)) -> Forall2 (fun x y => f x = Some y) l (omap f l).
Proof.
  induction l as [|x l IH]; intros Hall; cbn; [constructor|].
  destruct (Hall x (list_elem_of_here _ _)) as [y Hy]. rewrite Hy. cbn.
  constructor; [done|]. apply IH. intros z Hz. apply Hall. by apply list_elem_of_further.
Qed.

(** [_network_geometries] drops what the node table lacks instead of
    raising: every polyline it returns has at least two points.  On ways as
    the fetchers return them (at least two nodes, all in the node table)
    it returns one polyline per way, in the order of the ways, with the
    category of the way and the coordinates of its nodes, one per node. *)
Theorem network_geometries_spec nodes ways :
  (forall f, f ∈ _network_geometries nodes ways -> (2 <= length (nf_coords f))%nat)
  /\ ((forall wy, wy ∈ ways ->
         (2 <= length (way_nodes wy))%nat
         /\ forall u, u ∈ way_nodes wy -> in_nodes nodes u = true) ->
      Forall2 (fun wy f =>
                 nf_category f = category_of wy
                 /\ Forall2 (fun u c => nodes_get nodes u = Some c)
                            (way_nodes wy) (nf_coords f))
              ways (_network_geometries nodes ways)).
Proof.
  unfold _network_geometries. split.
  - intros f (wy & _ & Hf)%list_elem_of_omap. unfold _network_geometries_way in Hf.
    destruct (Nat.leb_spec 2 (length (omap (nodes_get nodes) (way_nodes wy))));
      [|discriminate].
    by injection Hf as <-.
  - induction ways as [|wy ways IH]; intros Hways; cbn; [constructor|].
    destruct (Hways wy (list_elem_of_here _ _)) as [Hlen Hpres].
    pose proof (omap_all_Some (nodes_get nodes) (way_nodes wy)) as Hcoords.
    specialize (Hcoords (fun u Hu => proj1 (in_nodes_true _ _) (Hpres u Hu))).
    unfold _network_geometries_way at 1.
    rewrite <- (Forall2_length _ _ _ Hcoords).
    destruct (Nat.leb_spec 2 (length (way_nodes wy))); [|lia]. cbn.
    constructor; [by split|].
    apply IH. intros wy' Hwy'. apply Hways. by apply list_elem_of_further.
Qed.
End Network.

(** ** Widening the search radius *)

Section Widening.
Context {FM : PyFloat} {FL : FloatLaws FM}.
Implicit Types (nodes : node_table) (g : graph) (st : option Z * pyfloat).

Lemma widened_step m m' d nid st st' :
  fleb m m' = true -> widened m st st' ->
  widened m (if fltb d st.2 && fleb d m then (Some nid, d) else st)
            (if fltb d st'.2 && fleb d m' then (Some nid, d) else st').
Proof.
  intros Hmm (Hnone & Hsome & Hrel).
  assert (forall s', widened m (Some nid, d) s' <->
            fleb d m = true /\ ((Some nid, d) = s'
              \/ False)) as Hhit.
  { intros s'. unfold widened. cbn. split.
    - intros (_ & Hle & [?|([=] & _)]); eauto.
    - intros [Hle [?|[]]]. split_and!; auto. done. }
  destruct (fleb d m) eqn:Hdm.
  - assert (fleb d m' = true) as -> by eauto using fleb_trans.
    rewrite !andb_true_r.
    destruct Hrel as [<-|(Hst & Hst' & Hout & Hfin)].
    + destruct (fltb d st.2); [apply Hhit; auto|].
      unfold widened. auto.
    + rewrite Hnone by done.
      apply fleb_false in Hout.
      assert (fltb d st'.2 = true) as -> by eauto using fleb_fltb_trans.
      assert (fltb d inf = true) as -> by eauto using fleb_fltb_trans, fltb_trans.
      apply Hhit; auto.
  - rewrite andb_false_r.
    destruct Hrel as [<-|(Hst & Hst' & Hout & Hfin)].
    + destruct st as [[n|] bd]; cbn in *.
      * assert (fltb d bd = false) as ->.
        { apply fltb_asym. apply fleb_false in Hdm.
          eapply fleb_fltb_trans; [|exact Hdm]. apply Hsome. eauto. }
        cbn. unfold widened. cbn. auto.
      * rewrite (Hnone eq_refl).
        destruct (fltb d inf && fleb d m') eqn:Hup.
        -- apply andb_true_iff in Hup as [Hfin _].
           unfold widened. cbn. split_and!; [auto|by intros [? [=]]|].
           right. split_and!; eauto.
        -- unfold widened. cbn. split_and!; [auto|by intros [? [=]]|by left].
    + destruct (fltb d st'.2 && fleb d m') eqn:Hup.
      * apply andb_true_iff in Hup as [Hlt _].
        unfold widened. split_and!; [done|done|]. right. cbn.
        split_and!; eauto using fltb_trans.
      * unfold widened. split_and!; [done|done|]. right. split_and!; done.
Qed.

Lemma widened_scan point g m m' nodes st st' :
  fleb m m' = true -> widened m st st' ->
  match for_each (_nearest_node_step point.1 point.2 g m) nodes st,
        for_each (_nearest_node_step point.1 point.2 g m') nodes st' with
  | Ok s, Ok s' => widened m s s'
  | Raise e, Raise e' => e = e'
  | _, _ => False
  end.
Proof.
  intros Hmm. revert st st'. induction nodes as [|[nid [lat lng]] nodes IH];
    intros st st' Hw; cbn; [done|].
  destruct (g !! nid); [|by apply IH].
  destruct (_haversine_m point.1 point.2 lat lng) as [d|e]; cbn; [|done].
  pose proof (widened_step m m' d nid st st' Hmm Hw) as Hw'.
  destruct (fltb d st.2 && fleb d m), (fltb d st'.2 && fleb d m'); cbn; by apply IH.
Qed.

Lemma widened_initial m : widened m (None, inf) (None, inf).
Proof. split_and!; cbn; [done|by intros [? [=]]|by left]. Qed.

(** The calls of [_nearest_node] with two radii, the second at least the
    first: both raise the same exception, or both return, and a node found
    with the first radius is the node found with the second. *)
Lemma nearest_node_widen point nodes g m m' :
  fleb m m' = true ->
  match _nearest_node point nodes g m, _nearest_node point nodes g m' with
  | Ok r, Ok r' => is_Some r -> r' = r
  | Raise e, Raise e' => e = e'
  | _, _ => False
  end.
Proof.
  intros Hmm. unfold _nearest_node. destruct point as [plat plng].
  pose proof (widened_scan (plat, plng) g m m' nodes _ _ Hmm (widened_initial m)) as H.
  cbn [fst snd] in H.
  destruct (for_each _ nodes (None, inf)) as [s|e],
           (for_each (_nearest_node_step plat plng g m') nodes (None, inf)) as [s'|e'];
    cbn; try done.
  destruct H as (_ & _ & [<-|(Hnone & _)]); [done|].
  rewrite Hnone. by intros [? [=]].
Qed.

(** Widening the radius never changes a hit: a node that [_nearest_node]
    finds within one radius is the node it finds within every larger
    radius. *)
Theorem nearest_node_radius_monotone point nodes g m m' n :
  fleb m m' = true ->
  _nearest_node point nodes g m = Ok (Some n) ->
  _nearest_node point nodes g m' = Ok (Some n).
Proof.
  intros Hmm Hn. pose proof (nearest_node_widen point nodes g m m' Hmm) as H.
  rewrite Hn in H. destruct (_nearest_node point nodes g m') as [r'|e]; [|done].
  by rewrite H by eauto.
Qed.

Lemma nearest_rounds origin dest osm_nodes g :
  fleb (lit 200) (lit 500) = true -> fleb (lit 500) (lit 1000) = true ->
  navigation_nearest_nodes origin dest osm_nodes g =
    (origin_node ← _nearest_node origin osm_nodes g (lit 1000);
     dest_node ← _nearest_node dest osm_nodes g (lit 1000);
     Ok (origin_node, dest_node)).
Proof.
  intros H25 H51.
  assert (fleb (lit 200) (lit 1000) = true) as H21 by eauto using fleb_trans.
  pose proof (nearest_node_widen origin osm_nodes g _ _ H25) as Ho25.
  pose proof (nearest_node_widen origin osm_nodes g _ _ H51) as Ho51.
  pose proof (nearest_node_widen origin osm_nodes g _ _ H21) as Ho21.
  pose proof (nearest_node_widen dest osm_nodes g _ _ H25) as Hd25.
  pose proof (nearest_node_widen dest osm_nodes g _ _ H51) as Hd51.
  pose proof (nearest_node_widen dest osm_nodes g _ _ H21) as Hd21.
  unfold navigation_nearest_nodes. cbn [navigation_nearest_loop fst snd].
  destruct (_nearest_node origin osm_nodes g (lit 200)) as [o2|e2],
           (_nearest_node origin osm_nodes g (lit 500)) as [o5|e5],
           (_nearest_node origin osm_nodes g (lit 1000)) as [o1|e1];
    try done; cbn; [|by subst].
  destruct (_nearest_node dest osm_nodes g (lit 200)) as [d2|e2],
           (_nearest_node dest osm_nodes g (lit 500)) as [d5|e5],
           (_nearest_node dest osm_nodes g (lit 1000)) as [d1|e1];
    try done; cbn; [|by subst].
  destruct o2 as [no2|];
    [rewrite (Ho25 ltac:(eauto)) in *; rewrite (Ho21 ltac:(eauto)) in *|];
    (destruct d2 as [nd2|];
       [rewrite (Hd25 ltac:(eauto)) in *; rewrite (Hd21 ltac:(eauto)) in *|]);
    try (destruct o5 as [no5|]; [rewrite (Ho51 ltac:(eauto)) in *|]);
    try (destruct d5 as [nd5|]; [rewrite (Hd51 ltac:(eauto)) in *|]);
    try destruct o1 as [no1|]; try destruct d1 as [nd1|];
    cbn [fst snd node_truthy andb negb mbind result_bind];
    repeat (match goal with
            | |- context [(?n =? 0)%Z] => destruct (n =? 0)%Z
            end; cbn [andb negb]);
    reflexivity.
Qed.

(** The three rounds of the navigation handler, with 200 m, 500 m and
    1000 m, find what one call with 1000 m finds, for the origin and for the
    destination: the same nodes, or the same exception. *)
Theorem nearest_escalation_is_one_search origin dest osm_nodes g :
  fleb (lit 200) (lit 500) = true -> fleb (lit 500) (lit 1000) = true ->
  navigation_nearest_nodes origin dest osm_nodes g =
    (origin_node ← _nearest_node origin osm_nodes g (lit 1000);
     dest_node ← _nearest_node dest osm_nodes g (lit 1000);
     Ok (origin_node, dest_node)).
Proof. apply nearest_rounds. Qed.
End Widening.

(** ** The hybrid builder *)

Lemma last_such_nil {A : Type} (P : A -> Prop) (x : A) : ~ last_such P [] x.
Proof. intros (before & after & Heq & _). by destruct before. Qed.

Lemma last_such_snoc {A : Type} (P : A -> Prop) (xs : list A) (y x : A) :
  last_such P (xs ++ [y]) x <-> (P y /\ x = y) \/ (~ P y /\ last_such P xs x).
Proof.
  split.
  - intros (before & after & Heq & Hx & Hafter).
    destruct after as [|a after _] using rev_ind.
    + apply app_inj_tail in Heq as [_ <-]. by left.
    + rewrite app_comm_cons, app_assoc in Heq. apply app_inj_tail in Heq as [-> <-].
      right. split.
      * apply Hafter. rewrite elem_of_app, list_elem_of_singleton. auto.
      * exists before, after. split_and!; try done.
        intros z Hz. apply Hafter. rewrite elem_of_app. auto.
  - intros [[Hy ->]|[Hy (before & after & -> & Hx & Hafter)]].
    + exists xs, []. split_and!; try done. intros z Hz. by apply elem_of_nil in Hz.
    + exists before, (after ++ [y]). rewrite <- app_assoc. split_and!; try done.
      intros z [Hz| ->%list_elem_of_singleton]%elem_of_app; auto.
Qed.

Lemma last_such_exists {A : Type} (P : A -> Prop) (xs : list A) (e : A) :
  (forall x, P x \/ ~ P x) -> e ∈ xs -> P e -> exists x, last_such P xs x.
Proof.
  intros Hdec. induction xs as [|y xs IH] using rev_ind; intros Hin He.
  - by apply elem_of_nil in Hin.
  - destruct (Hdec y) as [Hy|Hy].
    + exists y. apply last_such_snoc. by left.
    + apply elem_of_app in Hin as [Hin| ->%list_elem_of_singleton]; [|done].
      destruct (IH Hin He) as [x Hx]. exists x. apply last_such_snoc. by right.
Qed.

Section Hybrid.
Context {FM : PyFloat}.
Implicit Types (nodes : node_table) (g : graph) (et : edge_types).

Lemma present_dec nodes uv :
  (negb (in_nodes nodes uv.1) || negb (in_nodes nodes uv.2) = false /\ present nodes uv)
  \/ (negb (in_nodes nodes uv.1) || negb (in_nodes nodes uv.2) = true /\ ~ present nodes uv).
Proof.
  unfold present. destruct (in_nodes nodes uv.1), (in_nodes nodes uv.2); cbn;
    [left|right..]; split; try done; by intros [? ?].
Qed.

Lemma keyed_dec nodes k e : keyed nodes k e \/ ~ keyed nodes k e.
Proof.
  unfold keyed. destruct (present_dec nodes e.1) as [[_ Hp]|[_ Hp]];
    [|right; by intros [? _]].
  destruct (decide (frozenset e.1.1 e.1.2 = k)); [by left|right; by intros [_ ?]].
Qed.

Lemma hybrid_pedestrian_step_Ok nodes wt st e st' :
  hybrid_pedestrian_step nodes wt st e = Ok st' ->
  (present nodes e.1 /\ st'.2 = <[frozenset e.1.1 e.1.2 := e.2]> st.2)
  \/ (~ present nodes e.1 /\ st' = st).
Proof.
  destruct e as [[u v] c]. unfold hybrid_pedestrian_step, _hybrid_pedestrian_edge.
  cbn [fst snd].
  pose proof (present_dec nodes (u, v)) as Hdec. cbn [fst snd] in Hdec.
  destruct Hdec as [[-> Hp]|[-> Hp]].
  - destruct (nodes_item nodes u) as [[lat1 lon1]|]; cbn; [|discriminate].
    destruct (nodes_item nodes v) as [[lat2 lon2]|]; cbn; [|discriminate].
    destruct (_haversine_m lat1 lon1 lat2 lon2); cbn; [|discriminate].
    intros [= <-]. by left.
  - intros [= <-]. by right.
Qed.

Lemma hybrid_highway_step_Ok nodes wt st e st' :
  hybrid_highway_step nodes wt st e = Ok st' ->
  (present nodes e.1
   /\ st'.2 = match st.2 !! frozenset e.1.1 e.1.2 with
              | None => <[frozenset e.1.1 e.1.2 := "highway"]> st.2
              | Some _ => st.2
              end)
  \/ (~ present nodes e.1 /\ st' = st).
Proof.
  destruct e as [[u v] c]. unfold hybrid_highway_step, _hybrid_highway_edge.
  cbn [fst snd].
  pose proof (present_dec nodes (u, v)) as Hdec. cbn [fst snd] in Hdec.
  destruct Hdec as [[-> Hp]|[-> Hp]].
  - destruct (nodes_item nodes u) as [[lat1 lon1]|]; cbn; [|discriminate].
    destruct (nodes_item nodes v) as [[lat2 lon2]|]; cbn; [|discriminate].
    destruct (_haversine_m lat1 lon1 lat2 lon2); cbn; [|discriminate].
    intros [= <-]. by left.
  - intros [= <-]. by right.
Qed.

Lemma hybrid_step_Raise nodes u v e :
  (negb (in_nodes nodes u) || negb (in_nodes nodes v) = false) ->
  forall (k : pyfloat -> result (graph * edge_types)),
  (forall h, k h <> Raise e) ->
  ('(lat1, lon1) ← nodes_item nodes u;
   '(lat2, lon2) ← nodes_item nodes v;
   h ← _haversine_m lat1 lon1 lat2 lon2; k h) = Raise e ->
  e = ValueError.
Proof.
  intros Hguard k Hk. apply orb_false_iff in Hguard as [Hu Hv].
  apply negb_false_iff, in_nodes_true in Hu as [[lat1 lon1] Hu].
  apply negb_false_iff, in_nodes_true in Hv as [[lat2 lon2] Hv].
  unfold nodes_item. rewrite Hu, Hv. cbn.
  destruct (_haversine_m lat1 lon1 lat2 lon2) as [h|e'] eqn:Hh; cbn.
  - intros H. by destruct (Hk h).
  - intros [= ->]. by apply haversine_raises_ValueError in Hh.
Qed.

Lemma hybrid_graph_Raise nodes pedestrian_ways highway_ways pw hw e :
  _build_hybrid_graph nodes pedestrian_ways highway_ways pw hw = Raise e ->
  e = ValueError.
Proof.
  rewrite build_hybrid_graph_flat.
  destruct (for_each _ (all_edges pedestrian_ways) (∅, ∅)) as [st|e'] eqn:Hped; cbn.
  - intros ([[u v] c] & s & _ & Hr)%for_each_Raise.
    unfold hybrid_highway_step, _hybrid_highway_edge in Hr. cbn [fst snd] in Hr.
    destruct (negb (in_nodes nodes u) || negb (in_nodes nodes v)) eqn:Hguard;
      [discriminate|].
    eapply (hybrid_step_Raise _ _ _ _ Hguard); [|exact Hr]. done.
  - intros [= ->]. apply for_each_Raise in Hped as ([[u v] c] & s & _ & Hr).
    unfold hybrid_pedestrian_step, _hybrid_pedestrian_edge in Hr. cbn [fst snd] in Hr.
    destruct (negb (in_nodes nodes u) || negb (in_nodes nodes v)) eqn:Hguard;
      [discriminate|].
    eapply (hybrid_step_Raise _ _ _ _ Hguard); [|exact Hr]. done.
Qed.

(** Unlike [_build_graph], the hybrid builder never raises a [KeyError],
    whatever nodes the ways list: the only exception that leaves it is the
    [ValueError] of a distance computation. *)
Theorem hybrid_graph_raises_only_ValueError nodes pedestrian_ways highway_ways
    pedestrian_weight highway_weight e :
  _build_hybrid_graph nodes pedestrian_ways highway_ways pedestrian_weight highway_weight
    = Raise e ->
  e = ValueError.
Proof. apply hybrid_graph_Raise. Qed.

(** The category map after the pedestrian loop: a key is mapped to the
    category of the last pair with both nodes in the table that has the key. *)
Lemma hybrid_pedestrian_types nodes wt xs st :
  for_each (hybrid_pedestrian_step nodes wt) xs (∅, ∅) = Ok st ->
  forall k c, st.2 !! k = Some c <-> exists uv, last_such (keyed nodes k) xs (uv, c).
Proof.
  revert st. induction xs as [|e xs IH] using rev_ind; intros st.
  - cbn. intros [= <-] k c. cbn. rewrite lookup_empty. split; [done|].
    intros [uv H]. by apply last_such_nil in H.
  - intros (st0 & Hxs & Hstep)%for_each_snoc_Ok. specialize (IH _ Hxs).
    intros k c. setoid_rewrite last_such_snoc.
    apply hybrid_pedestrian_step_Ok in Hstep as [[Hp ->]|[Hp ->]].
    + destruct (decide (frozenset e.1.1 e.1.2 = k)) as [Hk|Hk].
      * rewrite Hk, lookup_insert_eq. split.
        -- intros [= <-]. exists e.1. left. split; [by split|]. by destruct e.
        -- intros [uv [[_ <-]|[Hn _]]]; [done|]. destruct Hn. by split.
      * rewrite lookup_insert_ne by done. rewrite IH. split.
        -- intros [uv H]. exists uv. right. split; [|done]. by intros [_ ?].
        -- intros [uv [[[_ ?] _]|[_ H]]]; [done|eauto].
    + rewrite IH. split.
      * intros [uv H]. exists uv. right. split; [|done]. by intros [? _].
      * intros [uv [[[? _] _]|[_ H]]]; [done|eauto].
Qed.

(** The highway loop leaves the entries it finds and maps the other keys
    of its pairs to "highway". *)
Lemma hybrid_highway_types nodes wt ys st0 st :
  for_each (hybrid_highway_step nodes wt) ys st0 = Ok st ->
  forall k c,
    st.2 !! k = Some c <->
    st0.2 !! k = Some c
    \/ (st0.2 !! k = None /\ c = "highway" /\ exists e, e ∈ ys /\ keyed nodes k e).
Proof.
  revert st. induction ys as [|e ys IH] using rev_ind; intros st.
  - cbn. intros [= <-] k c. split; [auto|].
    intros [?|(_ & _ & e & He & _)]; [done|]. by apply elem_of_nil in He.
  - intros (st1 & Hys & Hstep)%for_each_snoc_Ok. specialize (IH _ Hys).
    intros k c. setoid_rewrite elem_of_app. setoid_rewrite list_elem_of_singleton.
    apply hybrid_highway_step_Ok in Hstep as [[Hp ->]|[Hp ->]].
    + destruct (decide (frozenset e.1.1 e.1.2 = k)) as [Hk|Hk].
      * rewrite Hk. destruct (st1.2 !! k) as [c1|] eqn:H1.
        -- pose proof (proj1 (IH k c1) H1) as H1'. split.
           ++ intros [?|(? & ? & e' & ? & ?)]%IH; [auto|].
              right. split_and!; try done. exists e'. auto.
           ++ intros [H|(Hnone & -> & _)].
              ** apply IH. by left.
              ** destruct H1' as [?|(_ & -> & _)]; congruence.
        -- rewrite lookup_insert_eq.
           assert (st0.2 !! k = None) as H0.
           { destruct (st0.2 !! k) as [c0|] eqn:H0; [|done].
             assert (st1.2 !! k = Some c0) as H by (apply IH; auto). congruence. }
           split.
           ++ intros [= <-]. right. split_and!; try done. exists e. split; [auto|by split].
           ++ intros [?|(_ & -> & _)]; [congruence|done].
      * assert (match st1.2 !! frozenset e.1.1 e.1.2 with
                | Some _ => st1.2
                | None => <[frozenset e.1.1 e.1.2:="highway"]> st1.2
                end !! k = st1.2 !! k) as ->.
        { destruct (st1.2 !! frozenset e.1.1 e.1.2); [done|]. by rewrite lookup_insert_ne. }
        rewrite IH. split.
        -- intros [?|(? & ? & e' & ? & ?)]; [auto|]. right. split_and!; try done.
           exists e'. auto.
        -- intros [?|(? & ? & e' & [?| ->] & Hkey)]; [auto| |by destruct Hkey].
           right. split_and!; try done. by exists e'.
    + rewrite IH. split.
      * intros [?|(? & ? & e' & ? & ?)]; [auto|]. right. split_and!; try done.
        exists e'. auto.
      * intros [?|(? & ? & e' & [?| ->] & Hkey)]; [auto| |by destruct Hkey].
        right. split_and!; try done. by exists e'.
Qed.

(** The category map of the hybrid builder: a node pair that a pedestrian
    way lists (with both nodes in the table) has the category of the last
    pedestrian way that lists it, and is never turned into "highway" by a
    road over the same two nodes; a pair that only highway ways list is
    "highway"; no other pair has an entry. *)
Theorem hybrid_category_map nodes pedestrian_ways highway_ways
    pedestrian_weight highway_weight gh eth :
  _build_hybrid_graph nodes pedestrian_ways highway_ways pedestrian_weight highway_weight
    = Ok (gh, eth) ->
  forall k c,
    eth !! k = Some c <->
    (exists uv, last_such (keyed nodes k) (all_edges pedestrian_ways) (uv, c))
    \/ (c = "highway"
        /\ (forall e, e ∈ all_edges pedestrian_ways -> ~ keyed nodes k e)
        /\ exists e, e ∈ all_edges highway_ways /\ keyed nodes k e).
Proof.
  rewrite build_hybrid_graph_flat.
  destruct (for_each _ (all_edges pedestrian_ways) (∅, ∅)) as [st|] eqn:Hped; cbn;
    [|discriminate].
  intros Hhw k c.
  pose proof (hybrid_pedestrian_types _ _ _ _ Hped k) as Hp.
  rewrite (hybrid_highway_types _ _ _ _ _ Hhw k c). cbn.
  rewrite Hp. split.
  - intros [?|(Hnone & -> & He)]; [by left|]. right. split_and!; try done.
    intros e Hin Hkey.
    destruct (last_such_exists (keyed nodes k) _ e (keyed_dec nodes k) Hin Hkey)
      as [[uv c'] Hl].
    assert (st.2 !! k = Some c') as H by (apply Hp; eauto). congruence.
  - intros [?|(-> & Hno & He)]; [by left|]. right. split_and!; try done.
    destruct (st.2 !! k) as [c'|] eqn:Hk; [|done].
    destruct (proj1 (Hp c') eq_refl) as (uv & before & after & Heq & Hkey & _).
    destruct (Hno (uv, c')); [|done]. rewrite Heq, elem_of_app, elem_of_cons. auto.
Qed.
End Hybrid.

(** ** Downloads *)

Section Downloads.
Context {FM : PyFloat} {D : Type}.

Lemma fetch_overpass_data_from_spec (post : string -> query -> option D) urls q :
  match _fetch_overpass_data_from post urls q with
  | (contacted, Some data) =>
      exists n url,
        urls !! n = Some url /\ post url q = Some data
        /\ contacted = take (S n) urls
        /\ forall u, u ∈ take n urls -> post u q = None
  | (contacted, None) => contacted = urls /\ forall u, u ∈ urls -> post u q = None
  end.
Proof.
  induction urls as [|url urls IH]; cbn.
  - split; [done|]. intros u Hu. by apply elem_of_nil in Hu.
  - destruct (post url q) as [data|] eqn:Hpost.
    + exists 0%nat, url. cbn. split_and!; try done.
      intros u Hu. by apply elem_of_nil in Hu.
    + destruct (_fetch_overpass_data_from post urls q) as [contacted [data|]].
      * destruct IH as (n & url' & Hn & Hpost' & -> & Hfail).
        exists (S n), url'. cbn. split_and!; try done.
        intros u [->|Hu]%elem_of_cons; auto.
      * destruct IH as [-> Hfail]. split; [done|].
        intros u [->|Hu]%elem_of_cons; auto.
Qed.

(** [_fetch_overpass_data] asks the endpoints in the order of the list and
    stops at the first one that answers: it returns that answer, the
    endpoints before it have all failed, and none after it is contacted.  It
    raises only after all four have failed. *)
Theorem fetch_overpass_data_first_answer (post : string -> query -> option D) q :
  match _fetch_overpass_data post q with
  | (contacted, Some data) =>
      exists n url,
        OverpassURLs !! n = Some url /\ post url q = Some data
        /\ contacted = take (S n) OverpassURLs
        /\ forall u, u ∈ take n OverpassURLs -> post u q = None
  | (contacted, None) =>
      contacted = OverpassURLs /\ forall u, u ∈ OverpassURLs -> post u q = None
  end.
Proof. apply fetch_overpass_data_from_spec. Qed.
End Downloads.

(** ** The navigation handler *)

Section Runs.
Context {A B : Type}.

Lemma ends_bind (m : run A) (f : A -> run B) Q E :
  ends_with m (fun a => ends_with (f a) Q E) E -> ends_with (m ≫= f) Q E.
Proof. by destruct m. Qed.

Lemma ends_of_result (r : result A) (Q : A -> Prop) E :
  (forall a, r = Ok a -> Q a) -> (forall e, r = Raise e -> E (Python e)) ->
  ends_with (of_result r) Q E.
Proof. destruct r; cbn; auto. Qed.

Lemma ends_of_search (r : option A) (Q : A -> Prop) E :
  (forall a, r = Some a -> Q a) -> ends_with (of_search r) Q E.
Proof. destruct r; cbn; auto. Qed.

Lemma ends_of_download (r : list string * option A) (Q : A -> Prop) (E : failure -> Prop) :
  (forall a, r.2 = Some a -> Q a) -> (r.2 = None -> E AllEndpointsFailed) ->
  ends_with (of_download r) Q E.
Proof. unfold of_download. destruct r.2; cbn; auto. Qed.

Lemma ends_mono (m : run A) (Q Q' : A -> Prop) (E E' : failure -> Prop) :
  (forall a, Q a -> Q' a) -> (forall f, E f -> E' f) ->
  ends_with m Q E -> ends_with m Q' E'.
Proof. destruct m; cbn; auto. Qed.
End Runs.

Section HandlerLemmas.
Context {FM : PyFloat}.
Implicit Types (nodes : node_table) (g : graph) (et : edge_types).

Lemma elem_of_in_nodes nodes n c : (n, c) ∈ nodes -> in_nodes nodes n = true.
Proof.
  intros Hin. apply in_nodes_true.
  destruct (nodes_get nodes n) eqn:Hn; [eauto|].
  apply nodes_get_None in Hn. destruct Hn. apply list_elem_of_fmap. by exists (n, c).
Qed.

(** A node that [_nearest_node] returns is a key of the table and of the
    graph. *)
Lemma nearest_node_in_table point nodes g m n :
  _nearest_node point nodes g m = Ok (Some n) ->
  in_nodes nodes n = true /\ is_Some (g !! n).
Proof.
  unfold _nearest_node. destruct point as [plat plng].
  destruct (for_each _ nodes (None, inf)) as [st|] eqn:Hscan; cbn; [|discriminate].
  intros [= Hst]. revert n Hst.
  refine (for_each_invariant
            (fun st => forall n, st.1 = Some n -> in_nodes nodes n = true /\ is_Some (g !! n))
            _ nodes (None, inf) st _ _ Hscan);
    [|intros n Hn; cbn in Hn; discriminate].
  intros s [nid [lat lng]] s' Hin Hs. unfold _nearest_node_step.
  destruct (g !! nid) as [l|] eqn:Hg; [|by intros [= <-]].
  destruct (_haversine_m plat plng lat lng) as [d|]; cbn; [|discriminate].
  destruct (fltb d s.2 && fleb d m); intros [= <-]; [|done].
  intros n [= <-]. split; [by eapply elem_of_in_nodes|by rewrite Hg].
Qed.

Lemma path_nodes (l : list Z) (x : Z) :
  x ∈ l -> head l = Some x \/ exists y, (y, x) ∈ consecutive l.
Proof.
  induction l as [|a [|b l] IH].
  - intros H. by apply elem_of_nil in H.
  - intros ->%list_elem_of_singleton. by left.
  - intros [->|Hx]%elem_of_cons; [by left|]. right.
    rewrite consecutive_cons_cons.
    destruct (IH Hx) as [[= ->]|[y Hy]].
    + exists a. apply list_elem_of_here.
    + exists y. by apply list_elem_of_further.
Qed.

Lemma shortest_path_head g start goal p :
  _shortest_path g start goal = Some p -> p <> [] -> head p = Some start.
Proof.
  intros Hp Hne.
  destruct (shortest_path_Some _ _ _ _ Hp Hne) as (st & l & _ & _ & Hlast & ->).
  by rewrite head_reverse.
Qed.

(** Every node of a search result is the start or the end of an edge. *)
Lemma shortest_path_nodes g start goal p x :
  _shortest_path g start goal = Some p -> x ∈ p ->
  x = start \/ exists y, edge g y x.
Proof.
  intros Hp Hx. destruct (path_nodes _ _ Hx) as [Hhead|[y Hy]].
  - left. assert (p <> []) as Hne by (intros ->; by apply elem_of_nil in Hx).
    rewrite (shortest_path_head _ _ _ _ Hp Hne) in Hhead. congruence.
  - right. exists y. by eapply shortest_path_edges.
Qed.

(** The coordinate list of the handler, app.py line 221. *)
Lemma route_coords_Ok nodes node_path acc coords :
  for_each (fun acc nid => c ← nodes_item nodes nid; Ok (acc ++ [c])) node_path acc
    = Ok coords ->
  exists new, coords = acc ++ new
    /\ Forall2 (fun nid c => nodes_get nodes nid = Some c) node_path new.
Proof.
  revert acc. induction node_path as [|nid node_path IH]; intros acc.
  - cbn. intros [= <-]. exists []. by rewrite app_nil_r.
  - intros (acc1 & Hstep & Hrest)%for_each_cons_Ok.
    unfold nodes_item in Hstep.
    destruct (nodes_get nodes nid) as [c|] eqn:Hc; cbn in Hstep; [|discriminate].
    injection Hstep as <-. destruct (IH _ Hrest) as (new & -> & Hnew).
    exists (c :: new). rewrite <- app_assoc. split; [done|]. by constructor.
Qed.

Lemma route_coords_Raise nodes node_path acc e :
  for_each (fun acc nid => c ← nodes_item nodes nid; Ok (acc ++ [c])) node_path acc
    = Raise e ->
  e = KeyError /\ exists nid, nid ∈ node_path /\ in_nodes nodes nid = false.
Proof.
  intros (nid & s & Hin & Hr)%for_each_Raise. unfold nodes_item, in_nodes in *.
  destruct (nodes_get nodes nid) as [c|] eqn:Hc; cbn in Hr; [discriminate|].
  injection Hr as <-. split; [done|]. exists nid. by rewrite Hc.
Qed.

(** The segments of the route lie along its coordinates. *)
Lemma segments_along_route nodes et node_path coords segs :
  Forall2 (fun nid c => nodes_get nodes nid = Some c) node_path coords ->
  Forall2 (segment_of nodes et) (consecutive node_path) segs ->
  segments_along coords segs.
Proof.
  intros Hc. revert segs. induction Hc as [|a ca node_path coords Ha Hc IH]; intros segs.
  - cbn. intros ->%Forall2_nil_inv_l. constructor.
  - destruct Hc as [|b cb node_path coords Hb Hc].
    + cbn. intros ->%Forall2_nil_inv_l. constructor.
    + rewrite consecutive_cons_cons.
      intros (s & segs' & Hs & Hsegs & ->)%Forall2_cons_inv_l.
      destruct Hs as (Hfrom & Hto & _). cbn in Hfrom, Hto.
      constructor; [congruence|congruence|]. apply IH. exact Hsegs.
Qed.

(** Summing the segment lengths of segments that are not highway segments
    is what [_polyline_length] does on the coordinates: the same distances
    are added in the same order. *)
Lemma pedestrian_distance_is_polyline coords segs total hd :
  segments_along coords segs ->
  (forall s, s ∈ segs -> seg_category s <> "highway" /\ seg_highway s <> "highway") ->
  for_each navigation_distance_step segs (total, hd) =
    (t ← _polyline_length_from total coords; Ok (t, hd)).
Proof.
  intros Halong. revert total.
  induction Halong as [|c|a b l s segs Hfrom Hto Halong IH]; intros total Hno; [done..|].
  change (_polyline_length_from total (a :: b :: l))
    with (d ← _haversine_m a.1 a.2 b.1 b.2; _polyline_length_from (fadd total d) (b :: l)).
  change (for_each navigation_distance_step (s :: segs) (total, hd))
    with (st' ← navigation_distance_step (total, hd) s;
          for_each navigation_distance_step segs st').
  assert (navigation_distance_step (total, hd) s =
            (d ← _haversine_m a.1 a.2 b.1 b.2; Ok (fadd total d, hd))) as ->.
  { unfold navigation_distance_step. rewrite Hfrom, Hto.
    destruct (Hno s (list_elem_of_here _ _)) as [Hc Hh].
    apply String.eqb_neq in Hc, Hh. by rewrite Hc, Hh. }
  destruct (_haversine_m a.1 a.2 b.1 b.2) as [d|e]; [|done].
  cbn [mbind result_bind].
  apply IH. intros s' Hs'. apply Hno. by apply list_elem_of_further.
Qed.

Lemma bbox_Raise (lat lng radius_m : pyfloat) e :
  _bbox_from_point_radius lat lng radius_m = Raise e -> e <> KeyError.
Proof.
  unfold _bbox_from_point_radius, math_call, py_div.
  destruct (math_cos (math_radians lat)); cbn; [|by intros [= <-]].
  destruct (feqb _ _); cbn; [by intros [= <-]|discriminate].
Qed.

Lemma fetch_nodes_Raise elements e :
  _fetch_nodes elements = Raise e -> e = KeyError /\ malformed elements.
Proof.
  intros (el & s & Hin & Hr)%for_each_Raise.
  apply fetch_nodes_step_Raise in Hr as (-> & Hty & Hmiss).
  split; [done|]. by exists el.
Qed.

Lemma fetch_pedestrian_ways_elements_Raise elements e :
  _fetch_pedestrian_ways_elements elements = Raise e -> e = KeyError /\ malformed elements.
Proof.
  unfold _fetch_pedestrian_ways_elements.
  destruct (_fetch_nodes elements) eqn:Hn; cbn; [discriminate|].
  intros [= <-]. by apply fetch_nodes_Raise.
Qed.

Lemma fetch_highways_elements_Raise elements e :
  _fetch_highways_elements elements = Raise e -> e = KeyError /\ malformed elements.
Proof.
  unfold _fetch_highways_elements.
  destruct (_fetch_nodes elements) eqn:Hn; cbn; [discriminate|].
  intros [= <-]. by apply fetch_nodes_Raise.
Qed.

Lemma nearest_node_Raise point nodes g m e :
  _nearest_node point nodes g m = Raise e -> e = ValueError.
Proof.
  unfold _nearest_node. destruct point as [plat plng].
  destruct (for_each _ nodes (None, inf)) as [st|e'] eqn:Hscan; cbn; [discriminate|].
  intros [= <-]. apply for_each_Raise in Hscan as ([nid [lat lng]] & s & _ & Hr).
  unfold _nearest_node_step in Hr. destruct (g !! nid); [|discriminate].
  destruct (_haversine_m plat plng lat lng) eqn:Hh; cbn in Hr.
  - by destruct (fltb _ _ && fleb _ _).
  - injection Hr as <-. by apply haversine_raises_ValueError in Hh.
Qed.

(** The nearest-node rounds: what they raise is a [ValueError], and the
    nodes they return are results of [_nearest_node] calls, or were there
    before. *)
Lemma nearest_loop_spec origin dest nodes g rounds st :
  (forall n, st.1 = Some n -> in_nodes nodes n = true) ->
  (forall n, st.2 = Some n -> in_nodes nodes n = true) ->
  match navigation_nearest_loop origin dest nodes g rounds st with
  | Ok r => (forall n, r.1 = Some n -> in_nodes nodes n = true)
            /\ (forall n, r.2 = Some n -> in_nodes nodes n = true)
  | Raise e => e = ValueError
  end.
Proof.
  revert st. induction rounds as [|m rounds IH]; intros [o d] Ho Hd; cbn [fst snd] in *.
  - cbn. by split.
  - cbn [navigation_nearest_loop fst snd].
    assert (match (match o with
                   | Some n => Ok (Some n)
                   | None => _nearest_node origin nodes g m
                   end) with
            | Ok r => forall n, r = Some n -> in_nodes nodes n = true
            | Raise e => e = ValueError
            end) as Ho'.
    { destruct o as [n|]; [done|].
      destruct (_nearest_node origin nodes g m) as [r|e] eqn:Hn.
      - intros n ->. by apply nearest_node_in_table in Hn as [? _].
      - by apply nearest_node_Raise in Hn. }
    destruct (match o with Some n => _ | None => _ end) as [o'|e]; cbn; [|done].
    assert (match (match d with
                   | Some n => Ok (Some n)
                   | None => _nearest_node dest nodes g m
                   end) with
            | Ok r => forall n, r = Some n -> in_nodes nodes n = true
            | Raise e => e = ValueError
            end) as Hd'.
    { destruct d as [n|]; [done|].
      destruct (_nearest_node dest nodes g m) as [r|e] eqn:Hn.
      - intros n ->. by apply nearest_node_in_table in Hn as [? _].
      - by apply nearest_node_Raise in Hn. }
    destruct (match d with Some n => _ | None => _ end) as [d'|e]; cbn; [|done].
    destruct (node_truthy o' && node_truthy d'); [by split|].
    by apply IH.
Qed.

Lemma nearest_nodes_spec origin dest nodes g :
  match navigation_nearest_nodes origin dest nodes g with
  | Ok r => (forall n, r.1 = Some n -> in_nodes nodes n = true)
            /\ (forall n, r.2 = Some n -> in_nodes nodes n = true)
  | Raise e => e = ValueError
  end.
Proof. apply nearest_loop_spec; by intros n [=]. Qed.

Lemma polyline_length_Raise total coords e :
  _polyline_length_from total coords = Raise e -> e = ValueError.
Proof.
  revert total. induction coords as [|a [|b l] IH]; intros total; [done..|].
  change (_polyline_length_from total (a :: b :: l))
    with (d ← _haversine_m a.1 a.2 b.1 b.2; _polyline_length_from (fadd total d) (b :: l)).
  destruct (_haversine_m a.1 a.2 b.1 b.2) as [d|e'] eqn:Hh; cbn.
  - apply IH.
  - intros [= <-]. by apply haversine_raises_ValueError in Hh.
Qed.

Lemma distance_loop_Raise segs st e :
  for_each navigation_distance_step segs st = Raise e -> e = ValueError.
Proof.
  intros (s & st' & _ & Hr)%for_each_Raise. unfold navigation_distance_step in Hr.
  destruct (_haversine_m _ _ _ _) eqn:Hh; cbn in Hr.
  - by destruct (_ || _).
  - injection Hr as <-. by apply haversine_raises_ValueError in Hh.
Qed.

(** The edges of the hybrid graph join nodes of the table. *)
Lemma hybrid_step_present nodes (step : graph * edge_types -> (Z * Z) * string
                                          -> result (graph * edge_types)) xs st st' :
  (forall s e s', step s e = Ok s' ->
     s' = s \/ (present nodes e.1 /\ exists w, s'.1 = add_edge s.1 e.1.1 e.1.2 w)) ->
  (forall u v w, (v, w) ∈ adj st.1 u -> in_nodes nodes u = true /\ in_nodes nodes v = true) ->
  for_each step xs st = Ok st' ->
  forall u v w, (v, w) ∈ adj st'.1 u -> in_nodes nodes u = true /\ in_nodes nodes v = true.
Proof.
  intros Hstep Hst Hloop.
  refine (for_each_invariant
            (fun s => forall u v w, (v, w) ∈ adj s.1 u ->
                        in_nodes nodes u = true /\ in_nodes nodes v = true)
            _ xs st st' _ Hst Hloop).
  intros s e s' _ Hs Hbody u v w.
  destruct (Hstep _ _ _ Hbody) as [->|[[Hu Hv] [w' ->]]]; [apply Hs|].
  rewrite elem_of_adj_add_edge. intros [Hin|[(-> & -> & _)|(-> & -> & _)]]; eauto.
Qed.

Lemma hybrid_pedestrian_step_graph nodes wt s e s' :
  hybrid_pedestrian_step nodes wt s e = Ok s' ->
  s' = s \/ (present nodes e.1 /\ exists w, s'.1 = add_edge s.1 e.1.1 e.1.2 w).
Proof.
  destruct e as [[u v] c]. unfold hybrid_pedestrian_step, _hybrid_pedestrian_edge.
  cbn [fst snd].
  pose proof (present_dec nodes (u, v)) as Hdec. cbn [fst snd] in Hdec.
  destruct Hdec as [[-> Hp]|[-> Hp]]; [|intros [= <-]; by left].
  destruct (nodes_item nodes u) as [[lat1 lon1]|]; cbn; [|discriminate].
  destruct (nodes_item nodes v) as [[lat2 lon2]|]; cbn; [|discriminate].
  destruct (_haversine_m lat1 lon1 lat2 lon2); cbn; [|discriminate].
  intros [= <-]. right. split; [done|]. cbn. eauto.
Qed.

Lemma hybrid_highway_step_graph nodes wt s e s' :
  hybrid_highway_step nodes wt s e = Ok s' ->
  s' = s \/ (present nodes e.1 /\ exists w, s'.1 = add_edge s.1 e.1.1 e.1.2 w).
Proof.
  destruct e as [[u v] c]. unfold hybrid_highway_step, _hybrid_highway_edge.
  cbn [fst snd].
  pose proof (present_dec nodes (u, v)) as Hdec. cbn [fst snd] in Hdec.
  destruct Hdec as [[-> Hp]|[-> Hp]]; [|intros [= <-]; by left].
  destruct (nodes_item nodes u) as [[lat1 lon1]|]; cbn; [|discriminate].
  destruct (nodes_item nodes v) as [[lat2 lon2]|]; cbn; [|discriminate].
  destruct (_haversine_m lat1 lon1 lat2 lon2); cbn; [|discriminate].
  intros [= <-]. right. split; [done|]. cbn. eauto.
Qed.

Lemma hybrid_edges_present nodes pedestrian_ways highway_ways pw hw gh eth :
  _build_hybrid_graph nodes pedestrian_ways highway_ways pw hw = Ok (gh, eth) ->
  forall u v, edge gh u v -> in_nodes nodes u = true /\ in_nodes nodes v = true.
Proof.
  rewrite build_hybrid_graph_flat.
  destruct (for_each _ (all_edges pedestrian_ways) (∅, ∅)) as [st|] eqn:Hped; cbn;
    [|discriminate].
  intros Hhw u v [w Hw]. revert u v w Hw.
  change gh with (gh, eth).1.
  eapply hybrid_step_present; [apply hybrid_highway_step_graph| |exact Hhw].
  eapply hybrid_step_present; [apply hybrid_pedestrian_step_graph| |exact Hped].
  intros u v w Hin. cbn in Hin. rewrite adj_empty in Hin. by apply elem_of_nil in Hin.
Qed.

(** The nodes of a search result between two nodes of the table, on a
    graph whose edges join nodes of the table, are nodes of the table. *)
Lemma path_in_table nodes g start goal p :
  (forall u v, edge g u v -> in_nodes nodes u = true /\ in_nodes nodes v = true) ->
  in_nodes nodes start = true ->
  _shortest_path g start goal = Some p ->
  forall x, x ∈ p -> in_nodes nodes x = true.
Proof.
  intros Hedges Hstart Hp x Hx.
  destruct (shortest_path_nodes _ _ _ _ _ Hp Hx) as [->|[y Hy]]; [done|].
  by destruct (Hedges _ _ Hy).
Qed.

Lemma route_coords_present nodes node_path :
  (forall x, x ∈ node_path -> in_nodes nodes x = true) ->
  forall e, route_coords nodes node_path <> Raise e.
Proof.
  unfold route_coords. intros Hall e (_ & nid & Hin & Habs)%route_coords_Raise.
  rewrite (Hall _ Hin) in Habs. discriminate.
Qed.

Lemma segments_present nodes et node_path :
  (forall x, x ∈ node_path -> in_nodes nodes x = true) ->
  forall e, _segments_with_types node_path nodes et <> Raise e.
Proof.
  intros Hall e ([u v] & acc & Hin & Hr)%for_each_Raise.
  apply segments_step_Raise in Hr as [_ Habs].
  apply consecutive_elem_of in Hin as [Hu Hv].
  rewrite (Hall _ Hu), (Hall _ Hv) in Habs. by destruct Habs.
Qed.
End HandlerLemmas.

Section Handler.
Context {FM : PyFloat}.
Implicit Types (post : string -> query -> option (list element)).

Lemma fetch_pedestrian_ways_ends post south west north east Q E :
  (forall elements nodes ways,
     (_fetch_overpass_data post (PedestrianWaysQuery south west north east)).2
       = Some elements ->
     _fetch_pedestrian_ways_elements elements = Ok (nodes, ways) -> Q (nodes, ways)) ->
  (forall elements e,
     (_fetch_overpass_data post (PedestrianWaysQuery south west north east)).2
       = Some elements ->
     _fetch_pedestrian_ways_elements elements = Raise e -> E (Python e)) ->
  ((_fetch_overpass_data post (PedestrianWaysQuery south west north east)).2 = None ->
   E AllEndpointsFailed) ->
  ends_with (_fetch_pedestrian_ways post south west north east) Q E.
Proof.
  intros HQ HE Hfail. unfold _fetch_pedestrian_ways.
  apply ends_bind, ends_of_download; [|done].
  intros elements Hel. apply ends_of_result.
  - intros [nodes ways]. eauto.
  - eauto.
Qed.

Ltac run_walk :=
  repeat first
    [ progress cbn [ends_with]
    | apply ends_bind
    | apply ends_of_result; [intros ? ?|intros ? ?]
    | apply ends_of_search; intros ? ?
    | apply ends_of_download; [intros ? ?|intros ?]
    | match goal with
      | |- ends_with (match ?x with _ => _ end) _ _ => destruct x
      | |- ends_with (if ?c then _ else _) _ _ => destruct c eqn:?
      | |- ends_with (let '(_, _) := ?x in _) _ _ => destruct x
      end ].

(** The answer "Failed to build routing graph" is never given: when the
    fetch returns a way, the graph built from the ways has a node. *)
Theorem navigation_never_reports_empty_graph post origin dest radius_m :
  match navigation post origin dest radius_m with
  | Returns (NoGraph _ _) => False
  | _ => True
  end.
Proof.
  assert (ends_with (navigation_try post origin dest radius_m)
            (fun r => forall a b, r <> NoGraph a b) (fun _ => True)) as H.
  { unfold navigation_try.
    apply ends_bind, ends_of_result; [intros d0 _|done].
    apply ends_bind, ends_of_result; [intros [[[south west] north] east] _|done].
    apply ends_bind, fetch_pedestrian_ways_ends; [|done..].
    intros elements osm_nodes ways _ Hfetch.
    destruct ways as [|wy ways]; [done|].
    apply ends_bind, ends_of_result; [intros [g et] Hb|done].
    destruct (decide (g = ∅)) as [Hg|Hg].
    { exfalso. assert (wy :: ways = []) as Habs; [|discriminate].
      eapply built_graph_empty; [|exact Hb|exact Hg].
      intros wy' Hwy'. by apply (fetched_pedestrian_ways_ok _ _ _ Hfetch). }
    unfold navigation_hybrid.
    run_walk; done. }
  unfold navigation. destruct (navigation_try post origin dest radius_m) as [[]| |];
    try done. by destruct (H ways_count nodes_count).
Qed.

(** The hybrid attempt and the choice of the route. *)
Lemma navigation_route_choice post origin dest south west north east
    osm_nodes ways g et o d node_path :
  _shortest_path g o d = Some node_path ->
  ends_with
    (match node_path with
     | [] => navigation_hybrid post origin dest south west north east osm_nodes ways et
     | _ :: _ => Returns (node_path, false, et, osm_nodes)
     end)
    (route_choice post origin dest south west north east osm_nodes ways g et o d)
    (fun f => f = Python KeyError ->
       exists elements,
         (_fetch_overpass_data post (HighwaysQuery south west north east)).2
           = Some elements
         /\ malformed elements).
Proof.
  intros Hp. destruct node_path as [|x node_path].
  - unfold navigation_hybrid, _fetch_highways.
    apply ends_bind, ends_bind, ends_of_download; [intros elements Hdl|done].
    apply ends_of_result.
    2: { intros e He [= ->]. apply fetch_highways_elements_Raise in He as [_ Hm].
         by exists elements. }
    intros [highway_nodes highway_ways] Hfetch.
    destruct highway_ways as [|hw highway_ways]; [by left|].
    set (highway_ways' := hw :: highway_ways) in *.
    apply ends_bind, ends_of_result.
    2: { intros e He%hybrid_graph_Raise. by subst. }
    intros [gh eth] Hgh.
    apply ends_bind, ends_of_result.
    2: { intros e He%nearest_node_Raise. by subst. }
    intros ho Hho.
    apply ends_bind, ends_of_result.
    2: { intros e He%nearest_node_Raise. by subst. }
    intros hd Hhd.
    destruct (node_truthy ho && node_truthy hd) eqn:Htruthy; [|by left].
    apply andb_true_iff in Htruthy as [Ho Hd].
    destruct ho as [s|]; [|done]. destruct hd as [t|]; [|done].
    apply ends_bind, ends_of_search. intros p Hpath. cbn [default] in Hpath.
    destruct p as [|y p]; [by left|].
    right. right. split_and!; try done.
    exists elements, highway_nodes, highway_ways', gh, s, t. by split_and!.
  - right. left. by split_and!.
Qed.

(** The handler's [try] block: when it returns a route, the route was
    computed as [route_answer] says; the answers for an empty graph and for
    an exception are not given by it; and a [KeyError] leaves it only when
    a download was malformed. *)
Lemma navigation_try_spec post origin dest radius_m :
  ends_with (navigation_try post origin dest radius_m)
    (fun r =>
       match r with
       | Success route segs network meta =>
           route_answer post origin dest radius_m route segs network meta
       | NoGraph _ _ | ServerError _ => False
       | _ => True
       end)
    (fun f => f = Python KeyError -> malformed_download post origin dest radius_m).
Proof.
  unfold navigation_try.
  apply ends_bind, ends_of_result.
  2: { intros e He%haversine_raises_ValueError. by subst. }
  intros d0 Hd0.
  apply ends_bind, ends_of_result.
  2: { intros e He%bbox_Raise [= ->]. done. }
  intros [[[south west] north] east] Hbox.
  assert (navigation_bbox origin dest radius_m = Ok (south, west, north, east)) as Hnb.
  { unfold navigation_bbox. rewrite Hd0. exact Hbox. }
  unfold _fetch_pedestrian_ways.
  apply ends_bind, ends_bind, ends_of_download; [intros elements Hdl|done].
  apply ends_of_result.
  2: { intros e He [= ->]. apply fetch_pedestrian_ways_elements_Raise in He as [_ Hm].
       exists south, west, north, east, (PedestrianWaysQuery south west north east),
         elements. auto. }
  intros [osm_nodes ways] Hfetch.
  pose proof (fetched_pedestrian_ways_ok _ _ _ Hfetch) as Hways.
  destruct ways as [|wy ways0]; [done|].
  set (ways := wy :: ways0) in *.
  apply ends_bind, ends_of_result.
  2: { intros e He%build_graph_present_Raise; [by subst|].
       intros wy' u Hwy'. by apply Hways. }
  intros [g et] Hb.
  destruct (decide (g = ∅)) as [Hg|Hg].
  { exfalso. assert (ways = []) as Habs; [|discriminate].
    eapply built_graph_empty; [|exact Hb|exact Hg].
    intros wy' Hwy'. by apply Hways. }
  pose proof (nearest_nodes_spec origin dest osm_nodes g) as Hnear.
  apply ends_bind, ends_of_result.
  2: { intros e He. rewrite He in Hnear. by subst. }
  intros [[o|] [d|]] Hod; try done.
  rewrite Hod in Hnear. destruct Hnear as [Ho Hd]. cbn in Ho, Hd.
  specialize (Ho o eq_refl). specialize (Hd d eq_refl).
  apply ends_bind, ends_of_search. intros node_path Hpath.
  apply ends_bind.
  eapply ends_mono;
    [|intros f Hf|by apply (navigation_route_choice _ _ _ _ _ _ _ _ _ g et o d)].
  2: { intros Hk. destruct (Hf Hk) as (hel & Hhdl & Hm).
       exists south, west, north, east, (HighwaysQuery south west north east), hel.
       auto. }
  intros [[[p uses] et'] nodes] Hchoice.
  destruct p as [|x p0]; [done|].
  set (p := x :: p0) in *.
  assert (forall y, y ∈ p -> in_nodes nodes y = true) as Hpresent.
  { destruct Hchoice as [?|[(_ & _ & -> & Hp)|(_ & _ & Hh)]]; [done| |].
    - eapply path_in_table; [|exact Ho|exact Hp].
      intros u v He. by destruct (built_edge_category _ _ _ _ _ _ Hb He) as (? & ? & _).
    - destruct Hh as (hel & hn & hw & gh & s & t & _ & _ & -> & Hgh & Hs & _ & Hp).
      eapply path_in_table; [|by eapply nearest_node_in_table|exact Hp].
      by apply (hybrid_edges_present _ _ _ _ _ _ _ Hgh). }
  apply ends_bind, ends_of_result.
  2: { intros e He. by destruct (route_coords_present _ _ Hpresent e). }
  intros coords Hcoords.
  apply ends_bind, ends_of_result.
  2: { intros e He. by destruct (segments_present _ et' _ Hpresent e). }
  intros segs Hsegs.
  apply ends_bind, ends_of_result.
  2: { intros e He%polyline_length_Raise. by subst. }
  intros total Htotal.
  apply ends_bind, ends_of_result.
  2: { intros e He%distance_loop_Raise. by subst. }
  intros [pd hd] Hdist. cbn [ends_with].
  exists south, west, north, east, elements, osm_nodes, ways, g, et, o, d, p, et', nodes.
  cbn. by split_and!.
Qed.

Lemma navigation_Returns post origin dest radius_m r :
  navigation post origin dest radius_m = Returns r ->
  match r with
  | Success route segs network meta =>
      route_answer post origin dest radius_m route segs network meta
  | ServerError cause =>
      cause = Python KeyError -> malformed_download post origin dest radius_m
  | NoGraph _ _ => False
  | _ => True
  end.
Proof.
  pose proof (navigation_try_spec post origin dest radius_m) as H.
  unfold navigation. destruct (navigation_try post origin dest radius_m) as [r'|f|];
    [|by intros [= <-]|discriminate].
  intros [= <-]. cbn in H. by destruct r'.
Qed.

(** The handler answers with a [KeyError] (status 500) only when one of
    its own two downloads -- the pedestrian ways or the highways of the
    bounding box it computed -- held a node element without [id], [lat] or
    [lon]: on well-formed downloads no dict lookup of the route computation
    -- in [_build_graph], in the coordinate list, in [_segments_with_types]
    -- ever misses. *)
Theorem navigation_KeyError_needs_malformed_download post origin dest radius_m :
  navigation post origin dest radius_m = Returns (ServerError (Python KeyError)) ->
  exists south west north east q elements,
    navigation_bbox origin dest radius_m = Ok (south, west, north, east)
    /\ (q = PedestrianWaysQuery south west north east
        \/ q = HighwaysQuery south west north east)
    /\ (_fetch_overpass_data post q).2 = Some elements
    /\ exists el, el ∈ elements /\ is_type el "node" = true
         /\ (el_lat el = None \/ el_lon el = None \/ el_id el = None).
Proof. intros H%navigation_Returns. by apply H. Qed.

(** The category map of [_build_graph] holds categories of the ways. *)
Lemma built_types_of_ways nodes ways g et k c :
  _build_graph nodes ways = Ok (g, et) -> et !! k = Some c ->
  exists wy, wy ∈ ways /\ c = category_of wy.
Proof.
  rewrite build_graph_flat. intros Hb Hk.
  pose proof (build_steps_rank_rule _ _ _ _ Hb k) as Hrule. rewrite Hk in Hrule.
  destruct Hrule as [(u & v & Hin & _) _].
  apply elem_of_all_edges in Hin as (wy & Hwy & _ & ->). eauto.
Qed.

Lemma ranked_not_highway c : ranked c -> c <> "highway".
Proof. intros Hr ->. by compute in Hr. Qed.

(** A route without highways: the answer says "pedestrian_only", no
    segment is a highway segment, the highway distance is 0.0, and the
    pedestrian distance is the total distance -- the very same float, since
    both sums add the same segment lengths in the same order. *)
Theorem pedestrian_route_distances post origin dest radius_m route segs network meta :
  navigation post origin dest radius_m = Returns (Success route segs network meta) ->
  meta_uses_highways meta = false ->
  meta_routing_mode meta = "pedestrian_only"
  /\ (forall s, s ∈ segs -> seg_is_highway s = false)
  /\ meta_highway_distance_m meta = lit 0
  /\ meta_pedestrian_distance_m meta = meta_distance_m meta.
Proof.
  intros H%navigation_Returns Huses.
  destruct H as (south & west & north & east & elements & osm_nodes & ways & g & et
                 & o & d & p & et' & nodes & _ & _ & Hfetch & Hb & _ & Hne & Hchoice
                 & Hcoords & Hsegs & _ & Htotal & Hdist & _ & _ & Hmode).
  rewrite Huses in Hmode, Hchoice.
  destruct Hchoice as [?|[(_ & -> & -> & Hp)|([=] & _)]]; [done|].
  pose proof (fetched_pedestrian_ways_ok _ _ _ Hfetch) as Hways.
  apply route_coords_Ok in Hcoords as (coords & -> & Hcoords). cbn [app] in *.
  apply segments_loop in Hsegs as (segs' & -> & Hsegs). cbn [app] in *.
  assert (forall s, s ∈ segs' -> seg_category s <> "highway" /\ seg_highway s <> "highway")
    as Hno.
  { intros s (i & Hi)%list_elem_of_lookup.
    destruct (Forall2_lookup_r _ _ _ _ _ Hsegs Hi) as ([u v] & _ & Hseg).
    destruct Hseg as (_ & _ & Hcat & Hhw & _). rewrite Hhw. cbn in Hcat.
    assert (seg_category s <> "highway"); [|done].
    rewrite Hcat. destruct (et !! frozenset u v) as [c|] eqn:Hk; cbn; [|done].
    destruct (built_types_of_ways _ _ _ _ _ _ Hb Hk) as (wy & Hwy & ->).
    apply ranked_not_highway. by apply Hways. }
  pose proof (segments_along_route _ _ _ _ _ Hcoords Hsegs) as Halong.
  rewrite (pedestrian_distance_is_polyline _ _ _ _ Halong Hno) in Hdist.
  unfold _polyline_length in Htotal. rewrite Htotal in Hdist. injection Hdist as <- <-.
  split_and!; try done.
  intros s Hs. destruct (Hno s Hs) as [Hc _].
  apply list_elem_of_lookup in Hs as [i Hi].
  destruct (Forall2_lookup_r _ _ _ _ _ Hsegs Hi) as (uv & _ & Hseg).
  destruct Hseg as (_ & _ & _ & _ & Hflag).
  destruct (seg_is_highway s); [|done]. by destruct Hc; apply Hflag.
Qed.
End Handler.

Section HandlerRoute.
Context {FM : PyFloat} {FL : FloatLaws FM}.
Implicit Types (post : string -> query -> option (list element)).

(** The shape of a non-empty search result. *)
Lemma shortest_path_shape (g : graph) start goal p :
  _shortest_path g start goal = Some p -> p <> [] ->
  head p = Some start /\ last p = Some goal /\ NoDup p
  /\ forall a b, (a, b) ∈ consecutive p -> edge g a b.
Proof.
  intros Hp Hne.
  destruct (shortest_path_Some _ _ _ _ Hp Hne) as (st & l & Hs & Hc & Hlast & ->).
  split_and!.
  - by rewrite head_reverse.
  - by rewrite last_reverse.
  - rewrite reverse_Permutation. by apply chain_NoDup in Hc.
  - intros a b Hab. apply (search_prev_edges _ _ _ _ Hs).
    by apply (chain_links _ _ _ _ _ Hc).
Qed.

(** The route of a successful answer.  The handler downloaded the
    pedestrian ways of its bounding box, built their graph and took the
    graph nodes nearest to the origin and to the destination, both within
    1000 m.  The route is the result of the search between these two nodes
    in that graph; or, when that search came back empty, of the search in
    the hybrid graph of the same ways and the downloaded highways, between
    the nodes of the hybrid graph nearest to the two points.  It starts at
    the one node and ends at the other, visits no node twice and moves along
    edges of the graph that was searched; and the answer lists the
    coordinates of its nodes, with one coloured segment between each two
    consecutive points. *)
Theorem navigation_route_joins_nearest_nodes post origin dest radius_m
    route segs network meta :
  fleb (lit 200) (lit 500) = true -> fleb (lit 500) (lit 1000) = true ->
  navigation post origin dest radius_m = Returns (Success route segs network meta) ->
  exists south west north east elements osm_nodes ways gp etp o d,
    navigation_bbox origin dest radius_m = Ok (south, west, north, east)
    /\ (_fetch_overpass_data post (PedestrianWaysQuery south west north east)).2
      = Some elements
    /\ _fetch_pedestrian_ways_elements elements = Ok (osm_nodes, ways)
    /\ _build_graph osm_nodes ways = Ok (gp, etp)
    /\ _nearest_node origin osm_nodes gp (lit 1000) = Ok (Some o)
    /\ _nearest_node dest osm_nodes gp (lit 1000) = Ok (Some d)
    /\ exists nodes g node_path s t,
         ((meta_uses_highways meta = false
           /\ nodes = osm_nodes /\ g = gp /\ s = o /\ t = d)
          \/ (meta_uses_highways meta = true
              /\ _shortest_path gp o d = Some []
              /\ exists hel highway_nodes highway_ways eth,
                   (_fetch_overpass_data post (HighwaysQuery south west north east)).2
                     = Some hel
                   /\ _fetch_highways_elements hel = Ok (highway_nodes, highway_ways)
                   /\ nodes = nodes_merge osm_nodes highway_nodes
                   /\ _build_hybrid_graph nodes ways highway_ways (lit 1) (lit 3)
                        = Ok (g, eth)
                   /\ _nearest_node origin nodes g (lit 1000) = Ok (Some s)
                   /\ _nearest_node dest nodes g (lit 1000) = Ok (Some t)))
         /\ _shortest_path g s t = Some node_path
         /\ head node_path = Some s /\ last node_path = Some t /\ NoDup node_path
         /\ (forall a b, (a, b) ∈ consecutive node_path -> edge g a b)
         /\ Forall2 (fun nid c => nodes_get nodes nid = Some c) node_path route
         /\ segments_along route segs.
Proof.
  intros H25 H51 H%navigation_Returns.
  destruct H as (south & west & north & east & elements & osm_nodes & ways & g & et
                 & o & d & p & et' & nodes & Hnb & Hdl & Hfetch & Hb & Hnear & Hne
                 & Hchoice & Hcoords & Hsegs & _).
  rewrite (nearest_rounds _ _ _ _ H25 H51) in Hnear.
  destruct (_nearest_node origin osm_nodes g (lit 1000)) as [o'|] eqn:Ho;
    cbn in Hnear; [|discriminate].
  destruct (_nearest_node dest osm_nodes g (lit 1000)) as [d'|] eqn:Hd;
    cbn in Hnear; [|discriminate].
  injection Hnear as -> ->.
  exists south, west, north, east, elements, osm_nodes, ways, g, et, o, d.
  split_and!; try done.
  apply route_coords_Ok in Hcoords as (coords & -> & Hcoords). cbn [app] in *.
  apply segments_loop in Hsegs as (segs' & -> & Hsegs). cbn [app] in *.
  pose proof (segments_along_route _ _ _ _ _ Hcoords Hsegs) as Halong.
  destruct Hchoice as [?|[(Huses & -> & -> & Hp)|(Huses & Hp0 & Hh)]]; [done| |].
  - destruct (shortest_path_shape _ _ _ _ Hp Hne) as (? & ? & ? & ?).
    exists osm_nodes, g, p, o, d. split_and!; try done. by left.
  - destruct Hh as (hel & hn & hw & gh & s & t & Hhdl & Hhf & -> & Hgh & Hs & Ht & Hp).
    destruct (shortest_path_shape _ _ _ _ Hp Hne) as (? & ? & ? & ?).
    exists (nodes_merge osm_nodes hn), gh, p, s, t. split_and!; try done.
    right. split_and!; [done..|]. by exists hel, hn, hw, et'.
Qed.
End HandlerRoute.

(** ** Station facilities *)

Lemma no_underscore_pretty_N_go (x : N) (s : string) :
  no_underscore s -> no_underscore (pretty_N_go x s).
Proof.
  revert s. induction (N.lt_wf_0 x) as [x _ IH]; intros s Hs.
  assert (x = 0 \/ 0 < x)%N as [->|Hx] by lia; [by rewrite pretty_N_go_0|].
  rewrite pretty_N_go_step by done. apply IH; [by apply N.div_lt|].
  split; [|done]. unfold pretty_N_char. by repeat case_match.
Qed.

Lemma no_underscore_pretty (n : nat) : no_underscore (pretty n).
Proof.
  unfold pretty, pretty_nat, pretty, pretty_N.
  destruct (decide (N.of_nat n = 0%N)); [done|].
  by apply no_underscore_pretty_N_go.
Qed.

Lemma string_app_nil (s : string) : "" +:+ s = s.
Proof. reflexivity. Qed.

Lemma string_app_cons (c : ascii) (a s : string) : String c a +:+ s = String c (a +:+ s).
Proof. reflexivity. Qed.

Lemma underscore_in_app (a b : string) : ~ no_underscore (a +:+ "_" +:+ b).
Proof.
  induction a as [|c a IH]; rewrite ?string_app_nil, ?(string_app_cons _ a).
  - change ("_" +:+ b) with (String "_" b). cbn. by intros [? _].
  - cbn. by intros [_ ?].
Qed.

(** A string is split in one way only into a part, an underscore and a
    part without underscore. *)
Lemma split_at_last_underscore (t1 t2 d1 d2 : string) :
  no_underscore d1 -> no_underscore d2 ->
  t1 +:+ "_" +:+ d1 = t2 +:+ "_" +:+ d2 -> t1 = t2 /\ d1 = d2.
Proof.
  intros H1 H2. revert t2.
  induction t1 as [|c t1 IH]; intros [|c' t2];
    rewrite ?string_app_nil, ?(string_app_cons _ t1), ?(string_app_cons _ t2).
  - by intros ->%(inj (String.app "_")).
  - change ("_" +:+ d1) with (String "_" d1).
    intros [= <- ->]. by destruct (underscore_in_app t2 d2).
  - change ("_" +:+ d2) with (String "_" d2).
    intros [= -> <-]. by destruct (underscore_in_app t1 d1).
  - intros [= <- Heq]. by destruct (IH _ Heq) as [-> ->].
Qed.

Lemma human_name_inj (p t t' : string) (k k' : nat) :
  human_name p t k = human_name p t' k' -> t = t' /\ k = k'.
Proof.
  unfold human_name. intros Heq%(inj (String.app p))%(inj (String.app "_")).
  apply split_at_last_underscore in Heq as [-> Hk]; [|apply no_underscore_pretty..].
  split; [done|]. by apply (inj pretty).
Qed.

Section FacilityNames.
Context {FM : PyFloat}.
Variable title : string -> string.
Implicit Types (results : list facility) (counters : gmap string nat).

Lemma classify_step_cases prefix st el :
  (feature_coords el = None /\ _classify_and_name_step title prefix st el = st)
  \/ exists r,
       _classify_and_name_step title prefix st el
         = (<[fac_type r := S (default O (st.1 !! fac_type r))]> st.1, st.2 ++ [r])
       /\ fac_name r = human_name prefix (fac_type r) (S (default O (st.1 !! fac_type r)))
       /\ is_Some (feature_coords el).
Proof.
  unfold _classify_and_name_step.
  destruct (feature_coords el) as [[lat lon]|]; [|by left].
  right. generalize (classified_type title (default ∅ (el_tags el))). intros ty.
  exists (Facility (el_id el) (human_name prefix ty (S (default O (st.1 !! ty)))) ty
                   lat lon (default ∅ (el_tags el) !! "name") (default ∅ (el_tags el))).
  split_and!; [reflexivity|reflexivity|eauto].
Qed.

(** What the loop keeps: each counter is the number of results of its type,
    the results of a type are numbered from 1 in their order, and no two
    results have the same name. *)
Lemma classify_invariant prefix features :
  let st := fold_left (_classify_and_name_step title prefix) features (∅, []) in
  (forall t, default O (st.1 !! t) = length (filter (fun r => fac_type r = t) st.2))
  /\ (forall t, fac_name <$> filter (fun r => fac_type r = t) st.2
                = human_name prefix t
                    <$> seq 1 (length (filter (fun r => fac_type r = t) st.2)))
  /\ NoDup (fac_name <$> st.2)
  /\ (forall r, r ∈ st.2 ->
        exists k, (k <= default O (st.1 !! fac_type r))%nat
                  /\ fac_name r = human_name prefix (fac_type r) k).
Proof.
  induction features as [|el features IH] using rev_ind.
  - cbn. split_and!; try done; [apply NoDup_nil_2|].
    intros r Hr. by apply elem_of_nil in Hr.
  - rewrite fold_left_app. cbn [fold_left].
    set (st := fold_left _ features (∅, [])) in *. cbn zeta in IH.
    destruct IH as (Hcount & Hnames & Hnodup & Hidx).
    destruct (classify_step_cases prefix st el) as [[_ ->]|(r & -> & Hname & _)];
      [by split_and!|].
    cbn [fst snd]. set (n := default O (st.1 !! fac_type r)) in *.
    split_and!.
    + intros t. rewrite filter_app, length_app, <- Hcount.
      rewrite filter_cons, filter_nil.
      destruct (decide (fac_type r = t)) as [<-|Hne].
      * rewrite lookup_insert_eq. cbn. fold n. lia.
      * rewrite lookup_insert_ne by done. cbn. lia.
    + intros t. rewrite filter_app, length_app, fmap_app, Hnames.
      rewrite filter_cons, filter_nil.
      destruct (decide (fac_type r = t)) as [<-|Hne]; cbn.
      * rewrite seq_app, fmap_app. cbn. rewrite <- Hcount. fold n. by rewrite Hname.
      * by rewrite Nat.add_0_r, !app_nil_r.
    + rewrite fmap_app. apply NoDup_app. split_and!; [done| |apply NoDup_singleton].
      intros name (r' & -> & Hr')%list_elem_of_fmap H%list_elem_of_singleton.
      cbn in H. destruct (Hidx r' Hr') as (k & Hk & Hname').
      rewrite Hname, Hname' in H. apply human_name_inj in H as [Ht ->].
      rewrite Ht in Hk. fold n in Hk. lia.
    + intros r' [Hr'| ->%list_elem_of_singleton]%elem_of_app.
      * destruct (Hidx r' Hr') as (k & Hk & Hname'). exists k. split; [|done].
        destruct (decide (fac_type r = fac_type r')) as [Heq|Hne].
        -- rewrite <- Heq, lookup_insert_eq. cbn. rewrite <- Heq in Hk. fold n in Hk. lia.
        -- by rewrite lookup_insert_ne.
      * exists (S n). rewrite lookup_insert_eq. by split.
Qed.

(** Within a station, the facilities of one type are numbered 1, 2, 3, ...
    in the order in which the download lists them: the names of the
    results of the type [t] are [prefix_t_1], [prefix_t_2], ... *)
Theorem facilities_numbered_per_type features prefix t :
  fac_name <$> filter (fun r => fac_type r = t) (_classify_and_name title features prefix)
  = human_name prefix t
      <$> seq 1 (length (filter (fun r => fac_type r = t)
                                (_classify_and_name title features prefix))).
Proof. apply (classify_invariant prefix features). Qed.

(** No two facilities of one answer share a name. *)
Theorem facility_names_unique features prefix :
  NoDup (fac_name <$> _classify_and_name title features prefix).
Proof. apply (classify_invariant prefix features). Qed.

Lemma classify_step_skip prefix st el :
  feature_coords el = None -> _classify_and_name_step title prefix st el = st.
Proof. unfold _classify_and_name_step. by intros ->. Qed.

(** A feature on the equator or on the zero meridian is lost unless it has
    a [center]: its coordinate 0.0 counts as missing, and the feature is
    skipped as if it were not in the download -- it takes no number
    either. *)
Theorem zero_coordinate_feature_ignored before el after prefix x :
  el_center el = None ->
  (el_lat el = Some x \/ el_lon el = Some x) -> feqb x (lit 0) = true ->
  _classify_and_name title (before ++ el :: after) prefix
  = _classify_and_name title (before ++ after) prefix.
Proof.
  intros Hc Hx Hzero. unfold _classify_and_name.
  rewrite !fold_left_app. cbn [fold_left].
  rewrite classify_step_skip; [done|].
  unfold feature_coords, float_or. rewrite Hc. cbn.
  destruct Hx as [-> | ->]; rewrite Hzero.
  - done.
  - destruct (el_lat el) as [y|]; [|done]. by destruct (feqb y (lit 0)).
Qed.
End FacilityNames.

(** ** The facilities cache *)

Lemma string_app_length (a b : string) :
  String.length (a +:+ b) = (String.length a + String.length b)%nat.
Proof.
  induction a as [|c a IH]; rewrite ?string_app_nil, ?(string_app_cons _ a); cbn; [done|].
  by rewrite IH.
Qed.

Lemma string_app_inj_r (a b s : string) : a +:+ s = b +:+ s -> a = b.
Proof.
  revert b. induction a as [|c a IH]; intros [|c' b];
    rewrite ?string_app_nil, ?(string_app_cons _ a), ?(string_app_cons _ b).
  - done.
  - intros H%(f_equal String.length). cbn in H. rewrite string_app_length in H. lia.
  - intros H%(f_equal String.length). cbn in H. rewrite string_app_length in H. lia.
  - intros [= <- H]. by rewrite (IH _ H).
Qed.

Section CacheFacts.
Context {FM : PyFloat}.
Variable title : string -> string.
Implicit Types (post : string -> query -> option (list element))
               (files : gmap string payload).

(** The cache round trip: after a call that returned, a call for the same
    station without [force_refresh] returns the same dict and leaves the
    files as they are, whatever the endpoints would answer then and whatever
    the time is -- no endpoint is asked. *)
Theorem cached_facilities_are_served post now station_key force_refresh files p files' :
  get_or_refresh_facilities title post now station_key force_refresh files
    = (Returns p, files') ->
  forall post' now',
    get_or_refresh_facilities title post' now' station_key false files'
      = (Returns p, files').
Proof.
  unfold get_or_refresh_facilities.
  destruct (STATIONS !! station_key) as [cfg|]; [|discriminate].
  destruct (if force_refresh then None else files !! _cache_path station_key)
    as [cached|] eqn:Hc.
  - intros [= <- <-] post' now'. destruct force_refresh; [discriminate|]. by rewrite Hc.
  - destruct (_overpass_query post _ _ _).2 as [elements|]; [|discriminate].
    intros [= <- <-] post' now'. by rewrite lookup_insert_eq.
Qed.

(** A call touches the cache file of its own station only, and a station
    that is not in [STATIONS] is refused with a [ValueError] before any file
    or endpoint is touched. *)
Theorem facilities_cache_frame post now station_key force_refresh files :
  let (r, files') :=
    get_or_refresh_facilities title post now station_key force_refresh files in
  (forall other, other <> station_key ->
     files' !! _cache_path other = files !! _cache_path other)
  /\ (STATIONS !! station_key = None -> r = Raises (Python ValueError) /\ files' = files).
Proof.
  unfold get_or_refresh_facilities.
  destruct (STATIONS !! station_key) as [cfg|]; [|by split].
  destruct (if force_refresh then None else files !! _cache_path station_key); [by split|].
  destruct (_overpass_query post _ _ _).2 as [elements|]; [|by split].
  split; [|done]. intros other Hother. rewrite lookup_insert_ne; [done|].
  unfold _cache_path. by intros ?%string_app_inj_r.
Qed.

End CacheFacts.

(** ** The catalog *)

Section Catalog.
Context {FM : PyFloat}.
Implicit Types (node_map : node_table) (el : element)
               (categories : gmap string (list catalog_feature)).

Lemma elem_of_categories_append categories c f c' f' :
  f' ∈ default [] (categories_append categories c f !! c') <->
  f' ∈ default [] (categories !! c') \/ (c' = c /\ f' = f).
Proof.
  unfold categories_append. destruct (decide (c = c')) as [->|Hne].
  - rewrite lookup_insert_eq. cbn. rewrite elem_of_app, list_elem_of_singleton. naive_solver.
  - rewrite lookup_insert_ne by done. naive_solver.
Qed.

Lemma catalog_fold node_map elements categories c f :
  f ∈ default [] (fold_left
        (fun categories el =>
           if is_type el "way" then
             match _fetch_pedestrian_catalog_way node_map (tags_of el) (node_ids_of el) with
             | Some (category, feature) => categories_append categories category feature
             | None => categories
             end
           else categories)
        elements categories !! c) <->
  f ∈ default [] (categories !! c)
  \/ exists el, el ∈ elements /\ is_type el "way" = true
       /\ _fetch_pedestrian_catalog_way node_map (tags_of el) (node_ids_of el) = Some (c, f).
Proof.
  revert categories. induction elements as [|el elements IH]; intros categories; cbn.
  - split; [auto|]. intros [?|(el & Hel & _)]; [done|]. by apply elem_of_nil in Hel.
  - rewrite IH. setoid_rewrite elem_of_cons.
    destruct (is_type el "way") eqn:Hty.
    + destruct (_fetch_pedestrian_catalog_way node_map (tags_of el) (node_ids_of el))
        as [[c0 f0]|] eqn:Hway.
      * rewrite elem_of_categories_append. split.
        -- intros [[?|[-> ->]]|(el' & Hel' & ? & ?)]; [auto|..].
           ++ right. exists el. auto.
           ++ right. exists el'. auto.
        -- intros [?|(el' & [->|Hel'] & ? & Hw)]; [auto| |].
           ++ rewrite Hway in Hw. injection Hw as -> ->. auto.
           ++ right. exists el'. auto.
      * split.
        -- intros [?|(el' & Hel' & ? & ?)]; [auto|]. right. exists el'. auto.
        -- intros [?|(el' & [->|Hel'] & ? & Hw)]; [auto|congruence|].
           right. exists el'. auto.
    + split.
      * intros [?|(el' & Hel' & ? & ?)]; [auto|]. right. exists el'. auto.
      * intros [?|(el' & [->|Hel'] & ? & Hw)]; [auto|congruence|].
        right. exists el'. auto.
Qed.

(** The catalog lists a feature under a category exactly when it was made
    from a way element of the download that the catalog classifier puts into
    that category and that has at least two nodes among the downloaded ones;
    every listed feature has at least two coordinates, so a way with fewer
    known nodes is in no list. *)
Theorem catalog_lists_classified_ways elements categories c f :
  _fetch_pedestrian_catalog_elements elements = Ok categories ->
  (f ∈ default [] (categories !! c) <->
   exists node_map el,
     _fetch_nodes elements = Ok node_map /\ el ∈ elements /\ is_type el "way" = true
     /\ _fetch_pedestrian_catalog_category (tags_of el) = Some c
     /\ _fetch_pedestrian_catalog_way node_map (tags_of el) (node_ids_of el) = Some (c, f))
  /\ (f ∈ default [] (categories !! c) -> (2 <= length (cf_coords f))%nat).
Proof.
  unfold _fetch_pedestrian_catalog_elements.
  destruct (_fetch_nodes elements) as [node_map|] eqn:Hn; cbn; [|discriminate].
  intros [= <-]. rewrite catalog_fold.
  assert (forall el, _fetch_pedestrian_catalog_way node_map (tags_of el) (node_ids_of el)
                       = Some (c, f) ->
            _fetch_pedestrian_catalog_category (tags_of el) = Some c
            /\ (2 <= length (cf_coords f))%nat) as Hway.
  { intros el. unfold _fetch_pedestrian_catalog_way.
    destruct (Nat.ltb_spec (length (List.filter (in_nodes node_map) (node_ids_of el))) 2);
      [discriminate|].
    destruct (_fetch_pedestrian_catalog_category (tags_of el)) as [c'|]; [|discriminate].
    intros [= -> <-]. split; [done|]. cbn. unfold to_coords.
    rewrite <- (Forall2_length _ _ _
                 (omap_all_Some (nodes_get node_map)
                                (List.filter (in_nodes node_map) (node_ids_of el))
                                (fun u Hu => proj1 (in_nodes_true _ _)
                                               (filter_in_nodes _ _ _ Hu)))).
    done. }
  assert (forall c', default [] (categories_init !! c') = []) as Hinit.
  { intros c'. unfold categories_init.
    repeat (rewrite lookup_insert; case_decide; [done|]).
    rewrite lookup_singleton. by case_decide. }
  rewrite Hinit. split.
  - split.
    + intros [[]%elem_of_nil|(el & Hel & Hty & Hw)].
      exists node_map, el. split_and!; try done. by apply Hway.
    + intros (node_map' & el & [= <-] & Hel & Hty & _ & Hw). right. by exists el.
  - intros [[]%elem_of_nil|(el & _ & _ & Hw)]. by apply (Hway el).
Qed.
End Catalog.

(** ** The further properties on the sample download *)

Section PrecinctExamples.
#[local] Existing Instance Fixed.float.

Lemma precinct_nodes : _fetch_nodes Precinct.elements = Ok Sample.nodes.
Proof. vm_compute. reflexivity. Qed.

Lemma precinct_ways :
  _fetch_pedestrian_ways_elements Precinct.elements
  = Ok (Sample.nodes, [Sample.footway_1_3_2]).
Proof. vm_compute. reflexivity. Qed.

Lemma precinct_answer :
  match Precinct.answer with
  | Returns (Success _ _ _ meta) => meta_uses_highways meta = false
  | _ => False
  end.
Proof. vm_compute. reflexivity. Qed.

Lemma fetch_nodes_last_wins_witness :
  NoDup Sample.nodes.*1
  /\ forall id c,
       nodes_get (FM := Fixed.float) Sample.nodes id = Some c <->
       exists before el after,
         Precinct.elements = before ++ el :: after /\ node_element el id c
         /\ forall el' c', el' ∈ after -> ~ node_element el' id c'.
Proof. exact (fetch_nodes_last_wins (FM := Fixed.float) Precinct.elements Sample.nodes precinct_nodes). Defined.

Lemma fetched_ways_build_graph_witness :
  (forall wy, wy ∈ [Sample.footway_1_3_2] ->
     ranked (category_of wy) /\ (2 <= length (way_nodes wy))%nat
     /\ forall u, u ∈ way_nodes wy -> in_nodes (FM := Fixed.float) Sample.nodes u = true)
  /\ (forall e, _build_graph (FM := Fixed.float) Sample.nodes [Sample.footway_1_3_2] = Raise e -> e = ValueError)
  /\ (forall g et, _build_graph (FM := Fixed.float) Sample.nodes [Sample.footway_1_3_2] = Ok (g, et) ->
        (g = ∅ <-> [Sample.footway_1_3_2] = [])).
Proof.
  exact (fetched_ways_build_graph (FM := Fixed.float) Precinct.elements Sample.nodes
           [Sample.footway_1_3_2] precinct_ways).
Defined.

Lemma fetch_highways_way_spec_witness :
  category_of Sample.road_1_2 = "highway"
  /\ highway_connector (tag {[ "highway" := "residential" ]} "highway") = true
  /\ (2 <= length (way_nodes Sample.road_1_2))%nat
  /\ (forall u, u ∈ way_nodes Sample.road_1_2 -> in_nodes (FM := Fixed.float) Sample.nodes u = true)
  /\ _fetch_pedestrian_ways_way (FM := Fixed.float) Sample.nodes {[ "highway" := "residential" ]} [1; 99; 2]
     = None.
Proof.
  apply (fetch_highways_way_spec (FM := Fixed.float) Sample.nodes {[ "highway" := "residential" ]}
           [1; 99; 2] Sample.road_1_2).
  vm_compute. reflexivity.
Defined.

Lemma result_value {A : Type} (r : result A) (d : A) :
  (match r with Ok _ => true | Raise _ => false end) = true ->
  r = Ok (match r with Ok a => a | Raise _ => d end).
Proof. by destruct r. Qed.

Lemma precinct_segments :
  _segments_with_types (FM := Fixed.float) [1; 3; 2] Sample.nodes
    (Sample.types_of Sample.built) = Ok Precinct.segments.
Proof. apply result_value. vm_compute. reflexivity. Qed.

Lemma segments_follow_route_witness :
  length Precinct.segments = (length [1; 3; 2] - 1)%nat
  /\ Forall2 (segment_of (FM := Fixed.float) Sample.nodes (Sample.types_of Sample.built))
             (consecutive [1; 3; 2]) Precinct.segments
  /\ forall i s s', Precinct.segments !! i = Some s -> Precinct.segments !! S i = Some s' ->
       seg_to s = seg_from s'.
Proof.
  exact (segments_follow_route (FM := Fixed.float) [1; 3; 2] Sample.nodes _
           Precinct.segments precinct_segments).
Defined.

Lemma route_segments_have_way_categories_witness :
  exists segments,
    _segments_with_types (FM := Fixed.float) [1; 3; 2] Sample.nodes (Sample.types_of Sample.built) = Ok segments
    /\ length segments = (length [1; 3; 2] - 1)%nat
    /\ forall s, s ∈ segments ->
         exists wy, wy ∈ [Sample.footway_1_3_2] /\ seg_category s = category_of wy.
Proof.
  apply (route_segments_have_way_categories (FM := Fixed.float) Sample.nodes [Sample.footway_1_3_2]
           Sample.pedestrian_graph (Sample.types_of Sample.built) 1 2 [1; 3; 2]).
  - exact sample_built.
  - vm_compute. reflexivity.
Defined.

Lemma nearest_node_radius_monotone_witness :
  _nearest_node (FM := Fixed.float) Sample.origin Sample.nodes Sample.pedestrian_graph (lit 1000)
  = Ok (Some 1).
Proof.
  apply (nearest_node_radius_monotone (FM := Fixed.float) Sample.origin Sample.nodes
           Sample.pedestrian_graph (lit 200) (lit 1000) 1).
  - vm_compute. reflexivity.
  - vm_compute. reflexivity.
Defined.

Lemma nearest_escalation_is_one_search_witness :
  navigation_nearest_nodes (FM := Fixed.float) Precinct.origin Precinct.dest Sample.nodes
    Sample.pedestrian_graph =
    (origin_node ← _nearest_node (FM := Fixed.float) Precinct.origin Sample.nodes
                     Sample.pedestrian_graph (lit 1000);
     dest_node ← _nearest_node (FM := Fixed.float) Precinct.dest Sample.nodes
                   Sample.pedestrian_graph (lit 1000);
     Ok (origin_node, dest_node)).
Proof.
  apply (nearest_escalation_is_one_search (FM := Fixed.float) Precinct.origin Precinct.dest Sample.nodes
           Sample.pedestrian_graph); vm_compute; reflexivity.
Defined.

Lemma hybrid_graph_raises_only_ValueError_witness :
  _build_hybrid_graph (FM := Fixed.float) Precinct.nodes_inf
    [Sample.footway_1_3_2; Sample.steps_1_2] [] (lit 1) (lit 3) = Raise ValueError
  /\ ValueError = ValueError.
Proof.
  assert (_build_hybrid_graph (FM := Fixed.float) Precinct.nodes_inf
            [Sample.footway_1_3_2; Sample.steps_1_2] [] (lit 1) (lit 3)
          = Raise ValueError) as Hh by (vm_compute; reflexivity).
  split; [exact Hh|].
  exact (hybrid_graph_raises_only_ValueError (FM := Fixed.float) Precinct.nodes_inf
           [Sample.footway_1_3_2; Sample.steps_1_2] [] (lit 1) (lit 3) ValueError Hh).
Defined.

Lemma hybrid_category_map_witness :
  Sample.types_of Sample.built_hybrid !! frozenset 1 2 = Some "highway" <->
  (exists uv, last_such (keyed (FM := Fixed.float) Sample.nodes (frozenset 1 2))
                (all_edges [Sample.footway_1_3_2]) (uv, "highway"))
  \/ ("highway" = "highway"
      /\ (forall e, e ∈ all_edges [Sample.footway_1_3_2] ->
            ~ keyed (FM := Fixed.float) Sample.nodes (frozenset 1 2) e)
      /\ exists e, e ∈ all_edges [Sample.road_1_2] /\ keyed (FM := Fixed.float) Sample.nodes (frozenset 1 2) e).
Proof.
  exact (hybrid_category_map (FM := Fixed.float) Sample.nodes [Sample.footway_1_3_2] [Sample.road_1_2]
           (lit 1) (lit 3) _ _ sample_built_hybrid (frozenset 1 2) "highway").
Defined.

Lemma precinct_broken_answer :
  navigation (FM := Fixed.float) Precinct.post_broken Precinct.origin Precinct.dest
    (lit 2000) = Returns (ServerError (Python KeyError)).
Proof.
  assert (match navigation (FM := Fixed.float) Precinct.post_broken Precinct.origin
                  Precinct.dest (lit 2000) with
          | Returns (ServerError (Python KeyError)) => true
          | _ => false
          end = true) as H by (vm_compute; reflexivity).
  destruct (navigation _ _ _ _) as [[| | | | | |[[]|]]| |]; done.
Qed.

Lemma navigation_KeyError_needs_malformed_download_witness :
  exists south west north east q elements,
    navigation_bbox (FM := Fixed.float) Precinct.origin Precinct.dest (lit 2000) = Ok (south, west, north, east)
    /\ (q = PedestrianWaysQuery south west north east
        \/ q = HighwaysQuery south west north east)
    /\ (_fetch_overpass_data Precinct.post_broken q).2 = Some elements
    /\ exists el, el ∈ elements /\ is_type el "node" = true
         /\ (el_lat el = None \/ el_lon el = None \/ el_id el = None).
Proof.
  exact (navigation_KeyError_needs_malformed_download (FM := Fixed.float)
           Precinct.post_broken Precinct.origin Precinct.dest (lit 2000)
           precinct_broken_answer).
Defined.

Lemma pedestrian_route_distances_witness :
  match Precinct.answer with
  | Returns (Success route segs network meta) =>
      meta_routing_mode meta = "pedestrian_only"
      /\ (forall s, s ∈ segs -> seg_is_highway s = false)
      /\ meta_highway_distance_m meta = lit 0
      /\ meta_pedestrian_distance_m meta = meta_distance_m meta
  | _ => False
  end.
Proof.
  pose proof precinct_answer as Huses.
  destruct Precinct.answer as [[route segs network meta| | | | | |]| |] eqn:Ha;
    [|exact Huses..].
  exact (pedestrian_route_distances (FM := Fixed.float) Precinct.post Precinct.origin Precinct.dest
           (lit 2000) route segs network meta Ha Huses).
Defined.
Lemma navigation_route_joins_nearest_nodes_witness :
  match Precinct.answer with
  | Returns (Success route segs network meta) =>
      exists south west north east elements osm_nodes ways gp etp o d,
        navigation_bbox Precinct.origin Precinct.dest (lit 2000) = Ok (south, west, north, east)
        /\ (_fetch_overpass_data Precinct.post (PedestrianWaysQuery south west north east)).2
          = Some elements
        /\ _fetch_pedestrian_ways_elements elements = Ok (osm_nodes, ways)
        /\ _build_graph osm_nodes ways = Ok (gp, etp)
        /\ _nearest_node Precinct.origin osm_nodes gp (lit 1000) = Ok (Some o)
        /\ _nearest_node Precinct.dest osm_nodes gp (lit 1000) = Ok (Some d)
        /\ exists nodes g node_path s t,
             ((meta_uses_highways meta = false
               /\ nodes = osm_nodes /\ g = gp /\ s = o /\ t = d)
              \/ (meta_uses_highways meta = true
                  /\ _shortest_path gp o d = Some []
                  /\ exists hel highway_nodes highway_ways eth,
                       (_fetch_overpass_data Precinct.post (HighwaysQuery south west north east)).2
                         = Some hel
                       /\ _fetch_highways_elements hel = Ok (highway_nodes, highway_ways)
                       /\ nodes = nodes_merge osm_nodes highway_nodes
                       /\ _build_hybrid_graph nodes ways highway_ways (lit 1) (lit 3)
                            = Ok (g, eth)
                       /\ _nearest_node Precinct.origin nodes g (lit 1000) = Ok (Some s)
                       /\ _nearest_node Precinct.dest nodes g (lit 1000) = Ok (Some t)))
             /\ _shortest_path g s t = Some node_path
             /\ head node_path = Some s /\ last node_path = Some t /\ NoDup node_path
             /\ (forall a b, (a, b) ∈ consecutive node_path -> edge g a b)
             /\ Forall2 (fun nid c => nodes_get nodes nid = Some c) node_path route
             /\ segments_along route segs
  | _ => False
  end.
Proof.
  pose proof precinct_answer as Huses.
  destruct Precinct.answer as [[route segs network meta| | | | | |]| |] eqn:Ha;
    [|exact Huses..].
  apply (navigation_route_joins_nearest_nodes (FM := Fixed.float) Precinct.post
           Precinct.origin Precinct.dest (lit 2000) route segs network meta);
    [vm_compute; reflexivity|vm_compute; reflexivity|exact Ha].
Defined.

Lemma zero_coordinate_feature_ignored_witness :
  _classify_and_name (FM := Fixed.float) Precinct.title
    ([Precinct.bench 21] ++ Precinct.fountain :: [Precinct.bench 22]) "Dadar"
  = _classify_and_name (FM := Fixed.float) Precinct.title
      ([Precinct.bench 21] ++ [Precinct.bench 22]) "Dadar".
Proof.
  apply (zero_coordinate_feature_ignored (FM := Fixed.float) Precinct.title
           [Precinct.bench 21] Precinct.fountain [Precinct.bench 22] "Dadar" (Fixed.Fin 0)).
  - reflexivity.
  - left. reflexivity.
  - vm_compute. reflexivity.
Defined.

Lemma precinct_first_call :
  Precinct.first_call = (Returns Precinct.served, Precinct.first_call.2).
Proof.
  assert (match Precinct.first_call.1 with Returns _ => true | _ => false end = true)
    as H by (vm_compute; reflexivity).
  unfold Precinct.served. by destruct Precinct.first_call as [[p| |] files].
Qed.

Lemma cached_facilities_are_served_witness :
  get_or_refresh_facilities (FM := Fixed.float) Precinct.title Precinct.post_down
    "2027-01-01T00:00:00" "dadar" false Precinct.first_call.2
  = (Returns Precinct.served, Precinct.first_call.2).
Proof.
  exact (cached_facilities_are_served (FM := Fixed.float) Precinct.title Precinct.post
           "2026-11-03T10:00:00" "dadar" false ∅ Precinct.served Precinct.first_call.2
           precinct_first_call Precinct.post_down "2027-01-01T00:00:00").
Defined.

Lemma precinct_catalog :
  _fetch_pedestrian_catalog_elements (FM := Fixed.float) Precinct.elements
  = Ok Precinct.catalog.
Proof. apply result_value. vm_compute. reflexivity. Qed.

Lemma catalog_lists_classified_ways_witness :
  (Precinct.footway_feature ∈ default [] (Precinct.catalog !! "foot_path") <->
   exists node_map el,
     _fetch_nodes Precinct.elements = Ok node_map /\ el ∈ Precinct.elements
     /\ is_type el "way" = true
     /\ _fetch_pedestrian_catalog_category (tags_of el) = Some "foot_path"
     /\ _fetch_pedestrian_catalog_way node_map (tags_of el) (node_ids_of el)
        = Some ("foot_path", Precinct.footway_feature))
  /\ (Precinct.footway_feature ∈ default [] (Precinct.catalog !! "foot_path") ->
      (2 <= length (cf_coords Precinct.footway_feature))%nat).
Proof.
  exact (catalog_lists_classified_ways (FM := Fixed.float) Precinct.elements
           Precinct.catalog "foot_path" Precinct.footway_feature precinct_catalog).
Defined.
End PrecinctExamples.
